(** * QRV detection core of h3lix: a shallow embedding of [core/qrv]

    The Python modules [core/qrv/models.py], [qms.py], [hamiltonian.py],
    [spectral.py], [hild.py], [rvl.py], [rsl.py] and [manager.py] are
    rendered as Rocq functions.  Conventions:

    - a Python [float] is a real number of [R] and a [complex] a pair of
      reals: the arithmetic is exact, and the properties stated over it are
      those that do not depend on rounding (shapes, control flow, which
      fields are copied, which call raises).  The normalisation of
      [qms.py], whose result does depend on it, is rendered a second time
      over IEEE binary64 in the module [Binary64];
    - a call that can raise returns a [Result]; a method that mutates its
      object returns the new object next to the [Result], since a raised
      exception does not roll the mutation back;
    - the collaborators outside [core/qrv] (graph accessor, parquet file,
      graph-store driver, event bus, [numpy.linalg.eigh], [uuid4]) are
      fields of an environment record or section variables. *)

From Stdlib Require Import Floats Reals Lra Lia ZArith.
From stdpp Require Import gmap strings list pretty.

(** ** Exceptions and fallible calls *)

Module Py.

Inductive exn : Type :=
| KeyError
| IndexError
| ValueError
| TypeError
| LinAlgError
| OSError
| ServiceUnavailable
| RuntimeError.

Inductive Result (A : Type) : Type :=
| Ok (a : A)
| Raise (e : exn).

Arguments Ok {A} a.
Arguments Raise {A} e.

Definition bind {A B : Type} (r : Result A) (k : A -> Result B) : Result B :=
  match r with
  | Ok a => k a
  | Raise e => Raise e
  end.

Definition returns {A : Type} (r : Result A) : Prop :=
  match r with
  | Ok _ => True
  | Raise _ => False
  end.

Definition raises {A : Type} (r : Result A) : Prop :=
  match r with
  | Ok _ => False
  | Raise _ => True
  end.

(** [xs[:k]] for a Python int [k]: a negative bound counts from the end. *)
Definition slice_to {A : Type} (k : Z) (xs : list A) : list A :=
  if (0 <=? k)%Z then firstn (Z.to_nat k) xs
  else firstn (length xs - Z.to_nat (- k)) xs.

(** [for x in xs: acc = step(acc, x)] where the body may raise. *)
Fixpoint foldM {A B : Type} (step : B -> A -> Result B) (xs : list A) (acc : B)
  : Result B :=
  match xs with
  | [] => Ok acc
  | x :: rest => bind (step acc x) (foldM step rest)
  end.

(** A list comprehension whose element expression may raise. *)
Fixpoint mapM {A B : Type} (f : A -> Result B) (xs : list A) : Result (list B) :=
  match xs with
  | [] => Ok []
  | x :: rest =>
      bind (f x) (fun y => bind (mapM f rest) (fun ys => Ok (y :: ys)))
  end.

End Py.

Export Py.

(** stdpp's [x ← c; k] notation for sequencing fallible calls *)
#[global] Instance Result_bind : MBind Result := fun A B k r => Py.bind r k.
#[global] Instance Result_ret : MRet Result := fun A a => Ok a.

(** ** Methods that mutate their object and may raise *)

Module Effect.

(** A method run on an object of type [S]: the object afterwards and the
    value returned or the exception raised. *)
Definition Eff (S A : Type) : Type := S -> S * Result A.

Definition eff_ret {S A : Type} (a : A) : Eff S A := fun s => (s, Ok a).

Definition eff_bind {S A B : Type} (m : Eff S A) (k : A -> Eff S B) : Eff S B :=
  fun s =>
    match m s with
    | (s', Ok a) => k a s'
    | (s', Raise e) => (s', Raise e)
    end.

Definition get {S : Type} : Eff S S := fun s => (s, Ok s).

Definition modify {S : Type} (f : S -> S) : Eff S unit := fun s => (f s, Ok tt).

(** A call that returns a value or raises, without touching the object. *)
Definition lift {S A : Type} (r : Result A) : Eff S A := fun s => (s, r).

(** An external call that raises when the environment injects a fault. *)
Definition may_fail {S : Type} (fault : option exn) : Eff S unit :=
  fun s =>
    match fault with
    | Some e => (s, Raise e)
    | None => (s, Ok tt)
    end.

(** [for x in xs: body(x)] *)
Fixpoint for_each {S A : Type} (body : A -> Eff S unit) (xs : list A) : Eff S unit :=
  match xs with
  | [] => eff_ret tt
  | x :: rest => eff_bind (body x) (fun _ => for_each body rest)
  end.

End Effect.

Export Effect.

#[global] Instance Eff_bind {S : Type} : MBind (Eff S) := fun A B k m => eff_bind m k.
#[global] Instance Eff_ret {S : Type} : MRet (Eff S) := fun A a => eff_ret a.

(** ** Complex numbers and the numpy vector operations the code uses *)

Module Np.

Local Open Scope R_scope.

Definition C : Type := (R * R)%type.

Definition Cre (z : C) : R := fst z.
Definition Cim (z : C) : R := snd z.
Definition C0 : C := (0, 0).
Definition Cof (x : R) : C := (x, 0).
Definition Cadd (a b : C) : C := (fst a + fst b, snd a + snd b).
Definition Csub (a b : C) : C := (fst a - fst b, snd a - snd b).
Definition Cmul (a b : C) : C :=
  (fst a * fst b - snd a * snd b, fst a * snd b + snd a * fst b).
Definition Cconj (a : C) : C := (fst a, - snd a).
Definition Cscale (k : R) (a : C) : C := (k * fst a, k * snd a).
Definition Cdivr (a : C) (k : R) : C := (fst a / k, snd a / k).
(** squared modulus and modulus ([abs] of a complex) *)
Definition Cabs2 (a : C) : R := fst a * fst a + snd a * snd a.
Definition Cabs (a : C) : R := sqrt (Cabs2 a).
(** the imaginary unit [1j] *)
Definition Ci : C := (0, 1).

Definition Rlt_bool (x y : R) : bool := if Rlt_dec x y then true else false.
Definition Rle_bool (x y : R) : bool := if Rle_dec x y then true else false.

Abbreviation vec := (list C).
Abbreviation matrix := (list (list C)).

Definition Rsum (xs : list R) : R := fold_right Rplus 0 xs.
Definition Csum (xs : list C) : C := fold_right Cadd C0 xs.

(** [np.linalg.norm] of a one-dimensional complex array, without rounding *)
Definition norm (v : vec) : R := sqrt (Rsum (map Cabs2 v)).

(** [v / k] for a real scalar [k] *)
Definition vdiv (v : vec) (k : R) : vec := map (fun z => Cdivr z k) v.

(** [if norm > 0: v = v / norm] *)
Definition normalize (v : vec) : vec :=
  if Rlt_bool 0 (norm v) then vdiv v (norm v) else v.

(** Element-wise binary operation on one-dimensional arrays with numpy's
    broadcasting: equal sizes pair up, an array of size 1 is stretched,
    any other pair of sizes raises [ValueError]. *)
Definition broadcast2 (op : C -> C -> C) (a b : vec) : Result vec :=
  if Nat.eqb (length a) (length b) then Ok (zip_with op a b)
  else match a, b with
       | _, [y] => Ok (map (fun x => op x y) a)
       | [x], _ => Ok (map (fun y => op x y) b)
       | _, _ => Raise ValueError
       end.

Definition vsub : vec -> vec -> Result vec := broadcast2 Csub.
Definition vadd : vec -> vec -> Result vec := broadcast2 Cadd.

(** [np.outer(a, b)] *)
Definition outer (a b : vec) : matrix :=
  map (fun x => map (fun y => Cmul x y) b) a.

Definition dot (row v : vec) : C := Csum (zip_with Cmul row v).

(** [h @ v] for an [n] x [n] array [h] built with [n] rows: the core
    dimensions must agree, otherwise numpy raises [ValueError]. *)
Definition matvec (n : nat) (h : matrix) (v : vec) : Result vec :=
  if Nat.eqb n (length v) then Ok (map (fun row => dot row v) h)
  else Raise ValueError.

(** [h] is an [n] x [n] array. *)
Definition square (n : nat) (h : matrix) : Prop :=
  length h = n /\ Forall (fun row => length row = n) h.

(** [np.zeros((n, n))] *)
Definition zeros (n : nat) : matrix := replicate n (replicate n C0).

(** [m[:, j]]: column [j], [IndexError] when a row is too short *)
Definition column (m : matrix) (j : nat) : Result vec :=
  mapM (fun row => match row !! j with
                   | Some z => Ok z
                   | None => Raise IndexError
                   end) m.

(** Insertion of an index into a list of indices already ordered by the
    keys [key]: the new index goes after every index whose key is less
    than or equal to its own. *)
Fixpoint insert_sorted (key : nat -> R) (i : nat) (sorted : list nat) : list nat :=
  match sorted with
  | [] => [i]
  | j :: rest =>
      if Rlt_bool (key i) (key j) then i :: j :: rest
      else j :: insert_sorted key i rest
  end.

(** [np.argsort(xs)]: the indices of [xs] in ascending order of value.
    Indices of equal values are put in index order here; numpy's default
    sort fixes no order among them. *)
Definition argsort (xs : list R) : list nat :=
  fold_left (fun acc i => insert_sorted (fun k => nth k xs 0) i acc)
            (seq 0 (length xs)) [].

End Np.

(** ** [core/qrv/models.py] *)

Module Models.

Import Np.

Record QMSState : Type := mkQMSState {
  basis : list string;
  amplitudes : list C;
  session_id : option string;
  t_rel_ms : option R;
  qms_norm : R;
  meta : list (string * option R)
}.

Record RogueDirection : Type := mkRogueDirection {
  direction_id : string;
  eigenvalue : R;
  loadings : gmap string R;
  high_segments : list string;
  delta_error : R
}.

Record RogueDetectionResult : Type := mkRogueDetectionResult {
  triggered : bool;
  error_norm : R;
  ablation_improvement : R;
  rogue_directions : list RogueDirection;
  rogue_segments : list string;
  event_id : option string;
  pre_state : option QMSState;
  post_state : option QMSState
}.

Record RogueEventRecord : Type := mkRogueEventRecord {
  rec_id : string;
  rec_session_id : string;
  rec_t_rel_ms : R;
  detection : RogueDetectionResult;
  rec_prompt_id : option string
}.

Inductive HILDState : Type :=
| idle
| pending
| clarifying
| passive_safe
| resolved.

Record HILDPrompt : Type := mkHILDPrompt {
  prompt_id : string;
  anchor : string;
  ambiguity : string;
  request : string
}.

(** the [text] property *)
Definition text (p : HILDPrompt) : string :=
  anchor p +:+ " " +:+ ambiguity p +:+ " " +:+ request p.

Record HILDStatus : Type := mkHILDStatus {
  hs_session_id : string;
  state : HILDState;
  active_event_id : option string;
  prompt : option HILDPrompt;
  last_transition_ms : option R
}.

End Models.

(** ** [core/qrv/spectral.py] *)

Module Spectral.

Import Np Models.

Local Open Scope R_scope.

Record SpectralRogueDetector : Type := mkSpectralRogueDetector {
  max_directions : Z;
  loading_top_k : Z;
  improvement_tolerance : R
}.

(** [SpectralRogueDetector()] *)
Definition default : SpectralRogueDetector :=
  mkSpectralRogueDetector 3 5 (1 / 1000000).

Definition _error_operator (psi_obs psi_pred : vec) : Result (matrix * R) :=
  delta ← vsub psi_obs psi_pred;
  Ok (outer delta (map Cconj delta), norm delta).

(** [xs[i]] with Python's bounds check *)
Definition item {A : Type} (xs : list A) (i : nat) : Result A :=
  match xs !! i with
  | Some x => Ok x
  | None => Raise IndexError
  end.

Definition _top_loadings (d : SpectralRogueDetector) (v : vec) (basis : list string)
  : Result (list string) :=
  let mags := map Cabs v in
  let sorted_idx := rev (argsort mags) in
  let top_idx := slice_to (loading_top_k d) sorted_idx in
  mapM (item basis) (List.filter (fun i => Rlt_bool 0 (nth i mags 0)) top_idx).

Definition _ablate (psi_obs psi_pred : vec) (indices : list nat) : Result R :=
  let psi_hat := fold_left (fun v idx => <[idx := C0]> v) indices psi_obs in
  let psi_hat := normalize psi_hat in
  diff ← vsub psi_hat psi_pred;
  Ok (norm diff).

(** [list(dict.fromkeys(xs))]: the first occurrence of each element, in
    order of appearance *)
Definition unique_first (xs : list string) : list string :=
  fold_left (fun acc x => if bool_decide (x ∈ acc) then acc else acc ++ [x]) xs [].

(** [[basis.index(seg) for seg in segs if seg in basis]] *)
Definition indices_in (basis segs : list string) : list nat :=
  omap (fun seg => fst <$> list_find (fun b => b = seg) basis) segs.

(** [{basis_id: float(abs(vec[i]) ** 2) for i, basis_id in enumerate(basis)}] *)
Definition loadings_of (v : vec) (basis : list string) : Result (gmap string R) :=
  foldM (fun m '(i, basis_id) => z ← item v i; Ok (<[basis_id := Cabs z ^ 2]> m))
        (imap pair basis) ∅.

Section Detect.

(** [numpy.linalg.eigh]: eigenvalues and the matrix whose columns are the
    eigenvectors, or [LinAlgError]. *)
Variable eigh : matrix -> Result (list R * matrix).

(** One pass of the loop over [order[: self.max_directions]]. *)
Definition direction (d : SpectralRogueDetector) (basis : list string)
    (eigvals : list R) (eigvecs : matrix) (idx : nat) : Result RogueDirection :=
  val ← item eigvals idx;
  v ← column eigvecs idx;
  loads ← loadings_of v basis;
  top_segments ← _top_loadings d v basis;
  Ok (mkRogueDirection ("chi_" +:+ pretty idx) val loads top_segments 0).

Definition set_delta_error (x : R) (rd : RogueDirection) : RogueDirection :=
  mkRogueDirection (direction_id rd) (eigenvalue rd) (loadings rd)
                   (high_segments rd) x.

Definition detect (d : SpectralRogueDetector) (observed predicted : QMSState)
  : Result RogueDetectionResult :=
  let psi_obs := amplitudes observed in
  let psi_pred := amplitudes predicted in
  if Nat.eqb (length psi_obs) 0 then
    Ok (mkRogueDetectionResult false 0 0 [] [] None (Some observed) (Some predicted))
  else
    '(oe, error_norm) ← _error_operator psi_obs psi_pred;
    '(eigvals, eigvecs) ← eigh oe;
    let order := rev (argsort eigvals) in
    rogue_dirs ← mapM (direction d (basis observed) eigvals eigvecs)
                      (slice_to (max_directions d) order);
    let unique_high := unique_first (concat (map high_segments rogue_dirs)) in
    let ablate_indices := indices_in (basis observed) unique_high in
    ablated_error ← _ablate psi_obs psi_pred ablate_indices;
    let improvement := ablated_error - error_norm in
    Ok (mkRogueDetectionResult
          (Rlt_bool improvement (- improvement_tolerance d))
          error_norm improvement
          (map (set_delta_error improvement) rogue_dirs)
          unique_high None (Some observed) (Some predicted)).

End Detect.

(** What [numpy.linalg.eigh] promises for a Hermitian [n] x [n] input:
    [n] eigenvalues in ascending order and an [n] x [n] array whose column
    [j] is a unit-norm eigenvector for eigenvalue [j]. *)
Definition eigh_contract (m : matrix) (eigvals : list R) (eigvecs : matrix) : Prop :=
  length eigvals = length m /\
  square (length m) eigvecs /\
  (forall i j x y, eigvals !! i = Some x -> eigvals !! j = Some y ->
                   (i <= j)%nat -> x <= y) /\
  (forall j lam, eigvals !! j = Some lam ->
     exists v, column eigvecs j = Ok v /\
               matvec (length m) m v = Ok (map (Cscale lam) v) /\
               norm v = 1).

End Spectral.

(** ** [core/qrv/hild.py] *)

Module HILD.

Import Models.

Record HILDSessionState : Type := mkHILDSessionState {
  status : HILDStatus;
  unanswered_retry : bool
}.

(** The machine is its [sessions] dictionary. *)
Abbreviation HILDStateMachine := (gmap string HILDSessionState).

Definition get_status (sessions : HILDStateMachine) (sid : string) : HILDStatus :=
  match sessions !! sid with
  | None => mkHILDStatus sid idle None None None
  | Some st => status st
  end.

(** [uuid] is the value [uuid4()] yields for the new prompt's id. *)
Definition _make_prompt (uuid : string) (det : RogueDetectionResult) : HILDPrompt :=
  {| prompt_id := uuid;
     anchor := "We observed a divergence between expected and current state.";
     ambiguity := "Segments " +:+ String.concat ", " (firstn 3 (rogue_segments det))
                  +:+ " carry unusual loadings.";
     request := "Which activity or context best describes your current state?" |}.

Definition is_clarifying (s : HILDState) : bool :=
  match s with clarifying => true | _ => false end.

Definition is_passive_safe (s : HILDState) : bool :=
  match s with passive_safe => true | _ => false end.

(** [status.state in {HILDState.idle, HILDState.resolved}] *)
Definition is_idle_or_resolved (s : HILDState) : bool :=
  match s with idle | resolved => true | _ => false end.

Definition on_tick (uuid : string) (sessions : HILDStateMachine)
    (sid : string) (t : R) (det : RogueDetectionResult)
  : HILDStateMachine * HILDStatus :=
  let '(sessions, st) :=
    match sessions !! sid with
    | Some st => (sessions, st)
    | None =>
        let st := mkHILDSessionState (mkHILDStatus sid idle None None (Some t)) false in
        (<[sid := st]> sessions, st)
    end in
  let cur := status st in
  if triggered det && is_idle_or_resolved (state cur) then
    let new := mkHILDStatus sid clarifying (event_id det)
                 (Some (_make_prompt uuid det)) (Some t) in
    (<[sid := mkHILDSessionState new false]> sessions, new)
  else if triggered det && is_clarifying (state cur) then
    (sessions, cur)
  else if negb (triggered det) && is_clarifying (state cur) then
    if unanswered_retry st then
      let new := mkHILDStatus sid passive_safe (active_event_id cur)
                   (prompt cur) (Some t) in
      (<[sid := mkHILDSessionState new (unanswered_retry st)]> sessions, new)
    else
      (<[sid := mkHILDSessionState cur true]> sessions, cur)
  else if is_passive_safe (state cur) && negb (triggered det) then
    let new := mkHILDStatus sid resolved (active_event_id cur) None (Some t) in
    (<[sid := mkHILDSessionState new (unanswered_retry st)]> sessions, new)
  else
    (sessions, cur).

Definition acknowledge (sessions : HILDStateMachine) (sid : string)
    (response : string) (t : R) : HILDStateMachine * HILDStatus :=
  match sessions !! sid with
  | None =>
      let new := mkHILDStatus sid idle None None (Some t) in
      (<[sid := mkHILDSessionState new false]> sessions, new)
  | Some st =>
      let new := mkHILDStatus sid resolved (active_event_id (status st)) None (Some t) in
      (<[sid := mkHILDSessionState new false]> sessions, new)
  end.

End HILD.

(** ** The graph accessor ([mpg/repository.py]) as [core/qrv] sees it *)

Module Repo.

Import Np.

(** A value stored under a key of a segment dictionary: [float()] either
    converts it to a number or rejects it by raising. *)
Inductive AttrVal : Type :=
| Num (x : R)
| NotNum (e : exn).

Definition py_float (v : AttrVal) : Result R :=
  match v with
  | Num x => Ok x
  | NotNum e => Raise e
  end.

(** One dictionary of [top_segments]: its ["id"] and the other entries. *)
Record Segment : Type := mkSegment {
  seg_id : string;
  seg_attrs : gmap string AttrVal
}.

(** One dictionary of [get_segment_states]; both metrics are
    [Optional[float]] in [mpg/models.py]. *)
Record SegmentStateRow : Type := mkSegmentStateRow {
  coherence : option R;
  potency : option R
}.

(** One [(u, v, data)] of [graph.edges(data=True)]; [None] is a key that
    is absent from [data]. *)
Record Edge : Type := mkEdge {
  edge_src : string;
  edge_dst : string;
  strength : option R;
  confidence : option R
}.

Definition Graph : Type := list Edge.

Inductive Kind : Type :=
| InMemoryMPGRepository
| Neo4jMPGRepository.

(** The three read operations; each may raise (a lost database
    connection, a malformed store). *)
Record t : Type := mk {
  kind : Kind;
  top_segments : Z -> Result (list Segment);
  get_segment_states : string -> Z -> Result (list SegmentStateRow);
  get_graph : option Z -> Result Graph
}.

End Repo.

(** ** [core/qrv/qms.py] *)

Module QMS.

Import Np Models Repo.

Local Open Scope R_scope.

Record QMSBuilder : Type := mkQMSBuilder {
  repo : Repo.t;
  weights : list (string * R);
  include_state_metrics : bool
}.

Definition default_weights : list (string * R) :=
  [ ("importance", 4 / 10); ("confidence", 25 / 100); ("stability", 1 / 10);
    ("recency", 1 / 10); ("intensity", 1 / 10); ("valence", 5 / 100);
    ("coherence", 15 / 100); ("potency", 1 / 10) ]%string.

(** [__init__]: [weights or {...}] falls back on [None] and on [{}]. *)
Definition init (r : Repo.t) (w : option (list (string * R))) (metrics : bool)
  : QMSBuilder :=
  mkQMSBuilder r
    (match w with
     | None | Some [] => default_weights
     | Some w => w
     end)
    metrics.

(** [x or 0.0] for an optional float *)
Definition or_zero (x : option R) : R := default 0 x.

Definition _latest_state (b : QMSBuilder) (segment_id : string) : R * R :=
  if negb (include_state_metrics b) then (0, 0)
  else match get_segment_states (repo b) segment_id 1 with
       | Raise _ => (0, 0)
       | Ok [] => (0, 0)
       | Ok (st :: _) => (or_zero (coherence st), or_zero (potency st))
       end.

(** [float(segment.get(key, 0.0))] *)
Definition attr_float (seg : Segment) (key : string) : Result R :=
  match seg_attrs seg !! key with
  | None => Ok 0
  | Some v => py_float v
  end.

(** The loop over [self.weights.items()], for given latest-state metrics. *)
Definition weighted_sum (ws : list (string * R)) (seg : Segment) (coh pot : R)
  : Result R :=
  foldM (fun total '(key, weight) =>
           if String.eqb key "coherence" then Ok (total + weight * coh)
           else if String.eqb key "potency" then Ok (total + weight * pot)
           else x ← attr_float seg key; Ok (total + weight * x))
        ws 0.

Definition _amplitude_from_segment (b : QMSBuilder) (seg : Segment) : Result R :=
  let '(coh, pot) := _latest_state b (seg_id seg) in
  weighted_sum (weights b) seg coh pot.

(** Every weighted key other than the two state metrics names an entry of
    the segment that is absent or that [float()] accepts. *)
Definition weighted_attrs_numeric (ws : list (string * R)) (seg : Segment) : Prop :=
  Forall (fun kw => String.eqb kw.1 "coherence" = false ->
                    String.eqb kw.1 "potency" = false ->
                    returns (attr_float seg kw.1)) ws.

(** [amplitudes[: overrides.size] += overrides], for [overrides] already
    cut to at most [amplitudes.size] entries *)
Definition add_prefix (amps ov : vec) : vec :=
  zip_with Cadd (take (length ov) amps) ov ++ drop (length ov) amps.

Definition apply_overrides (amps : vec) (feature_overrides : option (list R)) : vec :=
  match feature_overrides with
  | None => amps
  | Some fo =>
      let overrides := map Cof fo in
      if Nat.eqb (length overrides) 0 then amps
      else add_prefix amps (take (length amps) overrides)
  end.

(** The amplitude vector as it is just before the normalisation. *)
Definition raw_amplitudes (b : QMSBuilder) (segments : list Segment)
    (feature_overrides : option (list R)) : Result vec :=
  amps ← mapM (_amplitude_from_segment b) segments;
  Ok (apply_overrides (map Cof amps) feature_overrides).

Definition build_from_segments (b : QMSBuilder) (sid : string) (t : R)
    (limit : Z) (feature_overrides : option (list R)) : Result QMSState :=
  segments ← top_segments (repo b) limit;
  amps ← raw_amplitudes b segments feature_overrides;
  Ok (mkQMSState (map seg_id segments) (normalize amps) (Some sid) (Some t)
                 (norm amps) []).

End QMS.

(** ** [core/qrv/qms.py] over IEEE binary64

    The builder once more, with a Python [float] as a binary64 number
    (Rocq's primitive [float], rounding to nearest even) and a [complex]
    as a pair of them, for the properties that depend on rounding, overflow
    or underflow. *)

Module Binary64.

#[local] Set Warnings "-inexact-float".

Local Open Scope float_scope.

Definition C : Type := (float * float)%type.

Definition C0 : C := (0, 0).
Definition Cof (x : float) : C := (x, 0).
Definition Cadd (a b : C) : C := (fst a + fst b, snd a + snd b).

(** The quotient of two [complex128] values as numpy's [true_divide]
    computes it: scaled by the larger component of the divisor. *)
Definition Cdiv (a b : C) : C :=
  let '(ar, ai) := a in
  let '(br, bi) := b in
  if PrimFloat.abs bi <=? PrimFloat.abs br then
    if (PrimFloat.abs br =? 0) && (PrimFloat.abs bi =? 0)
    then (ar / PrimFloat.abs br, ai / PrimFloat.abs br)
    else
      let rat := bi / br in
      let scl := 1 / (br + bi * rat) in
      ((ar + ai * rat) * scl, (ai - ar * rat) * scl)
  else
    let rat := br / bi in
    let scl := 1 / (bi + br * rat) in
    ((ar * rat + ai) * scl, (ai * rat - ar) * scl).

Abbreviation vec := (list C).

(** [x.dot(x)] of a [float64] array, the products added from left to
    right. *)
Definition dot_self (xs : list float) : float :=
  fold_left (fun acc x => acc + x * x) xs 0.

(** [np.linalg.norm] of a one-dimensional [complex128] array:
    [sqrt(x.real.dot(x.real) + x.imag.dot(x.imag))] *)
Definition norm (v : vec) : float :=
  PrimFloat.sqrt (dot_self (map fst v) + dot_self (map snd v)).

(** [v / k] for a Python float [k], which numpy first casts to
    [complex128] *)
Definition vdiv (v : vec) (k : float) : vec := map (fun z => Cdiv z (Cof k)) v.

(** [if norm > 0: v = v / norm] *)
Definition normalize (v : vec) : vec :=
  if 0 <? norm v then vdiv v (norm v) else v.

Record QMSState : Type := mkQMSState {
  basis : list string;
  amplitudes : list C;
  session_id : option string;
  t_rel_ms : option float;
  qms_norm : float
}.

Inductive AttrVal : Type :=
| Num (x : float)
| NotNum (e : exn).

Definition py_float (v : AttrVal) : Result float :=
  match v with
  | Num x => Ok x
  | NotNum e => Raise e
  end.

Record Segment : Type := mkSegment {
  seg_id : string;
  seg_attrs : gmap string AttrVal
}.

Record SegmentStateRow : Type := mkSegmentStateRow {
  coherence : option float;
  potency : option float
}.

(** The two read operations of the graph accessor the builder calls. *)
Record Repository : Type := mkRepository {
  top_segments : Z -> Result (list Segment);
  get_segment_states : string -> Z -> Result (list SegmentStateRow)
}.

Record QMSBuilder : Type := mkQMSBuilder {
  repo : Repository;
  weights : list (string * float);
  include_state_metrics : bool
}.

Definition default_weights : list (string * float) :=
  [ ("importance", 0.4); ("confidence", 0.25); ("stability", 0.1);
    ("recency", 0.1); ("intensity", 0.1); ("valence", 0.05);
    ("coherence", 0.15); ("potency", 0.1) ]%string.

Definition init (r : Repository) (w : option (list (string * float))) (metrics : bool)
  : QMSBuilder :=
  mkQMSBuilder r
    (match w with
     | None | Some [] => default_weights
     | Some w => w
     end)
    metrics.

(** [float(x or 0.0)] for an optional float *)
Definition or_zero (x : option float) : float :=
  match x with
  | Some v => if v =? 0 then 0 else v
  | None => 0
  end.

Definition _latest_state (b : QMSBuilder) (segment_id : string) : float * float :=
  if negb (include_state_metrics b) then (0, 0)
  else match get_segment_states (repo b) segment_id 1 with
       | Raise _ => (0, 0)
       | Ok [] => (0, 0)
       | Ok (st :: _) => (or_zero (coherence st), or_zero (potency st))
       end.

Definition attr_float (seg : Segment) (key : string) : Result float :=
  match seg_attrs seg !! key with
  | None => Ok 0
  | Some v => py_float v
  end.

Definition weighted_sum (ws : list (string * float)) (seg : Segment) (coh pot : float)
  : Result float :=
  foldM (fun total '(key, weight) =>
           if String.eqb key "coherence" then Ok (total + weight * coh)
           else if String.eqb key "potency" then Ok (total + weight * pot)
           else x ← attr_float seg key; Ok (total + weight * x))
        ws 0.

Definition _amplitude_from_segment (b : QMSBuilder) (seg : Segment) : Result float :=
  let '(coh, pot) := _latest_state b (seg_id seg) in
  weighted_sum (weights b) seg coh pot.

Definition add_prefix (amps ov : vec) : vec :=
  zip_with Cadd (take (length ov) amps) ov ++ drop (length ov) amps.

Definition apply_overrides (amps : vec) (feature_overrides : option (list float)) : vec :=
  match feature_overrides with
  | None => amps
  | Some fo =>
      let overrides := map Cof fo in
      if Nat.eqb (length overrides) 0 then amps
      else add_prefix amps (take (length amps) overrides)
  end.

(** The amplitude vector as it is just before the normalisation. *)
Definition raw_amplitudes (b : QMSBuilder) (segments : list Segment)
    (feature_overrides : option (list float)) : Result vec :=
  amps ← mapM (_amplitude_from_segment b) segments;
  Ok (apply_overrides (map Cof amps) feature_overrides).

Definition build_from_segments (b : QMSBuilder) (sid : string) (t : float)
    (limit : Z) (feature_overrides : option (list float)) : Result QMSState :=
  segments ← top_segments (repo b) limit;
  amps ← raw_amplitudes b segments feature_overrides;
  Ok (mkQMSState (map seg_id segments) (normalize amps) (Some sid) (Some t)
                 (norm amps)).



End Binary64.

(** ** [core/qrv/hamiltonian.py] *)

Module Hamiltonian.

Import Np Models Repo.

Local Open Scope R_scope.

Record HamiltonianBuilder : Type := mkHamiltonianBuilder {
  repo : Repo.t;
  diag_damping : R
}.

(** [{node_id: i for i, node_id in enumerate(basis)}]: a repeated id keeps
    its last position. *)
Definition index_of_basis (basis : list string) : gmap string nat :=
  fold_left (fun m '(i, node_id) => <[node_id := i]> m) (imap pair basis) ∅.

(** [h[i, j] = f(h[i, j])] *)
Definition update_entry (f : C -> C) (i j : nat) (h : matrix) : matrix :=
  alter (alter f j) i h.

Definition add_edge (index : gmap string nat) (h : matrix) (e : Edge) : matrix :=
  match index !! edge_src e, index !! edge_dst e with
  | Some i, Some j =>
      let s := default 0 (strength e) in
      let c := default 1 (confidence e) in
      update_entry (fun z => Cadd z (Cof (s * c))) i j h
  | _, _ => h
  end.

(** [h[i, i] -= diag_damping * np.sum(np.abs(h[i]))] *)
Definition damp_row (damping : R) (h : matrix) (i : nat) : matrix :=
  match h !! i with
  | Some row =>
      update_entry (fun z => Csub z (Cof (damping * Rsum (map Cabs row)))) i i h
  | None => h
  end.

Definition build (b : HamiltonianBuilder) (basis : list string) (level : Z)
  : Result matrix :=
  graph ← get_graph (repo b) (Some level);
  let n := length basis in
  let index := index_of_basis basis in
  let h := fold_left (add_edge index) graph (zeros n) in
  Ok (fold_left (damp_row (diag_damping b)) (seq 0 n) h).

Definition predict (b : HamiltonianBuilder) (prev_state : QMSState) (dt : R)
  : Result QMSState :=
  let psi_prev := amplitudes prev_state in
  h ← build b (basis prev_state) 1;
  hpsi ← matvec (length (basis prev_state)) h psi_prev;
  psi_pred ← vsub psi_prev (map (Cmul (Cmul Ci (Cof dt))) hpsi);
  Ok (mkQMSState (basis prev_state) (normalize psi_pred)
                 (session_id prev_state) (t_rel_ms prev_state)
                 (norm psi_pred)
                 [("predicted_from"%string, t_rel_ms prev_state)]).

End Hamiltonian.

(** ** [core/qrv/rvl.py] *)

Module RVL.

Import Np Models.

(** One row of the audit table. *)
Record AuditRow : Type := mkAuditRow {
  row_id : string;
  row_session_id : string;
  row_t_rel_ms : R;
  row_rogue_segments : string;
  row_error_norm : R;
  row_ablation_improvement : R;
  row_prompt_id : option string;
  row_pre_basis : string;
  row_post_basis : string;
  row_pre_amplitudes : list C;
  row_post_amplitudes : list C
}.

Definition audit_row (record : RogueEventRecord) : AuditRow :=
  let det := detection record in
  mkAuditRow (rec_id record) (rec_session_id record) (rec_t_rel_ms record)
    (String.concat "," (rogue_segments det))
    (error_norm det) (ablation_improvement det) (rec_prompt_id record)
    (match pre_state det with Some q => String.concat "," (basis q) | None => "" end)
    (match post_state det with Some q => String.concat "," (basis q) | None => "" end)
    (match pre_state det with Some q => amplitudes q | None => [] end)
    (match post_state det with Some q => amplitudes q | None => [] end).

(** The statements [session.run] is called with. *)
Inductive Statement : Type :=
| MergeRogueEvent (id session_id : string) (t : R) (error_norm improvement : R)
                  (segments : list string) (prompt_id : option string)
| MergeQMSState (relation qid : string) (basis : list string) (amps : list R)
                (norm : R) (session_id : string) (t : R) (eid : string)
| MergeRogueDirection (did : string) (eig : R) (loadings : gmap string R)
                      (delta : R) (eid : string)
| MergeInvolves (did sid : string)
| MatchRogueEvents (sid : option string).

(** A [RogueEvent] node as the graph store returns it. *)
Record EventNode : Type := mkEventNode {
  node_id : string;
  node_session_id : string;
  node_t_rel_ms : R
}.

(** An element of the list [list_events] returns: the dump of a record of
    the in-memory log, or the properties of a stored node. *)
Inductive Event : Type :=
| Dumped (record : RogueEventRecord)
| Stored (node : EventNode).

(** What the durable sinks do when they are called: [None] is a call that
    succeeds, [Some e] one that raises [e]. *)
Record Env : Type := mkEnv {
  mkdir_fault : option exn;
  read_parquet_fault : option exn;
  to_parquet_fault : list AuditRow -> option exn;
  session_fault : option exn;
  run_fault : Statement -> option exn;
  stored_events : option string -> list EventNode
}.

(** The library object together with the two stores it writes to: the
    parquet file at [audit_path] ([None] while the file does not exist) and
    the statements the graph store has executed. *)
Record RogueVariableLibrary : Type := mkRVL {
  repo_kind : Repo.Kind;
  _in_memory : list RogueEventRecord;
  audit_file : option (list AuditRow);
  graph_store : list Statement
}.

Definition init (kind : Repo.Kind) : RogueVariableLibrary := mkRVL kind [] None [].

Definition append_in_memory (record : RogueEventRecord) (l : RogueVariableLibrary)
  : RogueVariableLibrary :=
  mkRVL (repo_kind l) (_in_memory l ++ [record]) (audit_file l) (graph_store l).

Definition set_audit_file (rows : list AuditRow) (l : RogueVariableLibrary)
  : RogueVariableLibrary :=
  mkRVL (repo_kind l) (_in_memory l) (Some rows) (graph_store l).

Definition executed (stmt : Statement) (l : RogueVariableLibrary)
  : RogueVariableLibrary :=
  mkRVL (repo_kind l) (_in_memory l) (audit_file l) (graph_store l ++ [stmt]).

(** The frame [to_parquet] is called with. *)
Definition audit_frame (l : RogueVariableLibrary) (record : RogueEventRecord)
  : list AuditRow :=
  match audit_file l with
  | Some existing => existing ++ [audit_row record]
  | None => [audit_row record]
  end.

Definition _write_audit (env : Env) (record : RogueEventRecord)
  : Eff RogueVariableLibrary unit :=
  _ ← may_fail (mkdir_fault env);
  l ← get;
  _ ← match audit_file l with
      | Some _ => may_fail (read_parquet_fault env)
      | None => mret tt
      end;
  _ ← may_fail (to_parquet_fault env (audit_frame l record));
  modify (set_audit_file (audit_frame l record)).

Definition state_statement (relation suffix : string) (record : RogueEventRecord)
    (q : option QMSState) : list Statement :=
  match q with
  | Some q =>
      [MergeQMSState relation (rec_id record +:+ suffix) (basis q)
                     (map Cabs (amplitudes q)) (qms_norm q)
                     (rec_session_id record) (rec_t_rel_ms record) (rec_id record)]
  | None => []
  end.

Definition direction_statements (record : RogueEventRecord) (rd : RogueDirection)
  : list Statement :=
  MergeRogueDirection (direction_id rd) (eigenvalue rd) (loadings rd)
                      (delta_error rd) (rec_id record)
  :: map (MergeInvolves (direction_id rd)) (high_segments rd).

(** The statements of [_persist_neo4j], in the order they are run. *)
Definition statements (record : RogueEventRecord) : list Statement :=
  let det := detection record in
  MergeRogueEvent (rec_id record) (rec_session_id record) (rec_t_rel_ms record)
                  (error_norm det) (ablation_improvement det) (rogue_segments det)
                  (rec_prompt_id record)
  :: state_statement "HAS_PRE_STATE" "_pre" record (pre_state det)
  ++ state_statement "HAS_POST_STATE" "_post" record (post_state det)
  ++ concat (map (direction_statements record) (rogue_directions det)).

Definition run (env : Env) (stmt : Statement) : Eff RogueVariableLibrary unit :=
  _ ← may_fail (run_fault env stmt);
  modify (executed stmt).

Definition _persist_neo4j (env : Env) (record : RogueEventRecord)
  : Eff RogueVariableLibrary unit :=
  l ← get;
  match repo_kind l with
  | Repo.InMemoryMPGRepository => mret tt
  | Repo.Neo4jMPGRepository =>
      _ ← may_fail (session_fault env);
      for_each (run env) (statements record)
  end.

Definition record (env : Env) (record : RogueEventRecord)
  : Eff RogueVariableLibrary unit :=
  _ ← modify (append_in_memory record);
  _ ← _write_audit env record;
  _persist_neo4j env record.

(** [if session_id and rec.session_id != session_id: continue] *)
Definition skipped (session_id : option string) (rec : RogueEventRecord) : bool :=
  match session_id with
  | Some sid => negb (String.eqb sid "") && negb (String.eqb (rec_session_id rec) sid)
  | None => false
  end.

Definition list_events (env : Env) (l : RogueVariableLibrary)
    (session_id : option string) : Result (list Event) :=
  let events :=
    map Dumped (List.filter (fun rec => negb (skipped session_id rec)) (_in_memory l)) in
  match repo_kind l with
  | Repo.InMemoryMPGRepository => Ok events
  | Repo.Neo4jMPGRepository =>
      match session_fault env, run_fault env (MatchRogueEvents session_id) with
      | Some e, _ => Raise e
      | None, Some e => Raise e
      | None, None => Ok (events ++ map Stored (stored_events env session_id))
      end
  end.

End RVL.

(** ** [core/qrv/rsl.py] *)

Module RSL.

Import Np Models.

Local Open Scope R_scope.

Record RosettaStoneAligner : Type := mkRosettaStoneAligner {
  noise : R
}.

Record Aligned : Type := mkAligned {
  aligned_basis : list string;
  aligned_state : vec;
  aligned_norm : R
}.

(** [standard_normal i] is the [i]-th draw of
    [default_rng().standard_normal(vec.shape)]. *)
Definition align (a : RosettaStoneAligner) (standard_normal : nat -> R)
    (qms : QMSState) : Aligned :=
  let v := amplitudes qms in
  let v :=
    if Rlt_bool 0 (noise a) then
      zip_with Cadd v
        (map (fun i => Cscale (noise a) (Cmul (Cof (standard_normal i)) Ci))
             (seq 0 (length v)))
    else v in
  mkAligned (basis qms) (normalize v) (norm v).

Record Archetype : Type := mkArchetype {
  centroid : vec;
  participants : nat
}.

(** [np.pad(vec, (0, max_len - vec.size))] *)
Definition pad (n : nat) (v : vec) : vec := v ++ replicate (n - length v) C0.

(** [max(len(s.amplitudes) for s in states)] *)
Definition max_len (states : list QMSState) : nat :=
  fold_right Nat.max 0%nat (map (fun s => length (amplitudes s)) states).

(** The sum of the rows of a matrix with [n] columns *)
Definition column_sums (n : nat) (rows : list vec) : vec :=
  fold_left (zip_with Cadd) rows (replicate n C0).

(** [np.vstack(mat).mean(axis=0)], without rounding *)
Definition mean_rows (n : nat) (rows : list vec) : vec :=
  map (fun z => Cdivr z (INR (length rows))) (column_sums n rows).

(** The list under the key ["archetypes"]. *)
Definition summarize_group (states : list QMSState) : list Archetype :=
  match states with
  | [] => []
  | _ =>
      let n := max_len states in
      let mat := map (fun s => pad n (amplitudes s)) states in
      [mkArchetype (mean_rows n mat) (length states)]
  end.

End RSL.

(** ** [core/qrv/manager.py] *)

Module Manager.

Import Np Models.

Local Open Scope R_scope.

(** The dictionaries handed to [bus.publish]. *)
Inductive Message : Type :=
| qrv_detection (session_id : string) (t : R) (event_id : string)
                (rogue_segments : list string) (error_norm improvement : R)
| hild_status (session_id : string) (t : R) (state : HILDState)
              (prompt : option string).

(** What lies outside the manager during one tick. *)
Record Env : Type := mkEnv {
  eigh : matrix -> Result (list R * matrix);
  sinks : RVL.Env;
  (** the values [uuid4()] yields for the event and for the prompt *)
  event_uuid : string;
  prompt_uuid : string;
  (** [bus.publish(message)] run to completion *)
  publish : Message -> Result unit;
  standard_normal : nat -> R
}.

(** What [asyncio.get_event_loop()] finds in the thread that calls the
    manager: a loop that is running (the call comes from a coroutine or a
    callback); the thread's current loop, not running, open (this is also
    the main thread where the policy creates the loop on demand) or closed;
    or no current loop, where the call raises [RuntimeError]. *)
Inductive EventLoop : Type :=
| loop_running
| loop_open
| loop_closed
| loop_unset.

Record QRVManager : Type := mkQRVManager {
  qms_builder : QMS.QMSBuilder;
  hamiltonian : Hamiltonian.HamiltonianBuilder;
  detector : Spectral.SpectralRogueDetector;
  hild : gmap string HILD.HILDSessionState;
  rvl : RVL.RogueVariableLibrary;
  rsl : RSL.RosettaStoneAligner;
  qms_limit : Z;
  _last_qms : gmap string QMSState;
  (** [bus] is not [None] *)
  bus : bool;
  (** the messages handed to the bus so far *)
  sent : list Message;
  (** the event loop of the calling thread (not an attribute of the
      object: [_publish_event] closes the loop it has used) *)
  event_loop : EventLoop
}.

(** [__init__], in a thread without a current event loop. *)
Definition init (repo : Repo.t) (limit : Z) (with_bus : bool) : QRVManager :=
  mkQRVManager (QMS.init repo None true)
               (Hamiltonian.mkHamiltonianBuilder repo (1 / 10))
               Spectral.default ∅ (RVL.init (Repo.kind repo))
               (RSL.mkRosettaStoneAligner 0) limit ∅ with_bus [] loop_unset.

Definition set_hild (h : gmap string HILD.HILDSessionState) (m : QRVManager) : QRVManager :=
  mkQRVManager (qms_builder m) (hamiltonian m) (detector m) h (rvl m) (rsl m)
               (qms_limit m) (_last_qms m) (bus m) (sent m) (event_loop m).

Definition set_rvl (l : RVL.RogueVariableLibrary) (m : QRVManager) : QRVManager :=
  mkQRVManager (qms_builder m) (hamiltonian m) (detector m) (hild m) l (rsl m)
               (qms_limit m) (_last_qms m) (bus m) (sent m) (event_loop m).

Definition set_last_qms (sid : string) (q : QMSState) (m : QRVManager) : QRVManager :=
  mkQRVManager (qms_builder m) (hamiltonian m) (detector m) (hild m) (rvl m) (rsl m)
               (qms_limit m) (<[sid := q]> (_last_qms m)) (bus m) (sent m) (event_loop m).

Definition add_sent (msg : Message) (m : QRVManager) : QRVManager :=
  mkQRVManager (qms_builder m) (hamiltonian m) (detector m) (hild m) (rvl m) (rsl m)
               (qms_limit m) (_last_qms m) (bus m) (sent m ++ [msg]) (event_loop m).

(** The manager called from a thread whose event loop is [loop]. *)
Definition with_event_loop (loop : EventLoop) (m : QRVManager) : QRVManager :=
  mkQRVManager (qms_builder m) (hamiltonian m) (detector m) (hild m) (rvl m) (rsl m)
               (qms_limit m) (_last_qms m) (bus m) (sent m) loop.

(** [try: body finally: cleanup] *)
Definition finally {S A : Type} (body : Eff S A) (cleanup : S -> S) : Eff S A :=
  fun s => let '(s', r) := body s in (cleanup s', r).

(** A method of [self.rvl] run from the manager. *)
Definition on_rvl {A : Type} (f : Eff RVL.RogueVariableLibrary A) : Eff QRVManager A :=
  fun m => let '(l, r) := f (rvl m) in (set_rvl l m, r).

Definition set_event_id (id : string) (det : RogueDetectionResult)
  : RogueDetectionResult :=
  mkRogueDetectionResult (triggered det) (error_norm det) (ablation_improvement det)
                         (rogue_directions det) (rogue_segments det) (Some id)
                         (pre_state det) (post_state det).

(** [loop.run_until_complete(self.bus.publish(message))]: a closed loop
    raises [RuntimeError] before the coroutine is run. *)
Definition run_until_complete (env : Env) (loop : EventLoop) (msg : Message)
  : Eff QRVManager unit :=
  match loop with
  | loop_closed => lift (Raise RuntimeError)
  | _ => _ ← lift (publish env msg); modify (add_sent msg)
  end.

(** With a running loop the publication is scheduled as a task.  Otherwise
    it is run to completion, on the thread's current loop or, when there is
    none, on a new loop; what it raises reaches the caller, and the loop
    that was used is closed in either case. *)
Definition _publish_event (env : Env) (msg : Message) : Eff QRVManager unit :=
  m ← get;
  if negb (bus m) then mret tt
  else match event_loop m with
       | loop_running => modify (add_sent msg)
       | loop_unset => finally (run_until_complete env loop_open msg) (fun m => m)
       | loop => finally (run_until_complete env loop msg) (with_event_loop loop_closed)
       end.

(** [self._last_qms.get(session_id, observed)] *)
Definition prior (m : QRVManager) (sid : string) (observed : QMSState) : QMSState :=
  default observed (_last_qms m !! sid).

(** [max((t_rel_ms - (prev.t_rel_ms or t_rel_ms)), 1.0) / 1000.0]: a prior
    time that is [None] or [0.0] is replaced by the current time. *)
Definition elapsed (t : R) (prev : QMSState) : R :=
  let t_prev :=
    match t_rel_ms prev with
    | Some p => if Req_dec_T p 0 then t else p
    | None => t
    end in
  Rmax (t - t_prev) 1 / 1000.

Definition event_record (env : Env) (sid : string) (t : R)
    (det : RogueDetectionResult) : RogueEventRecord :=
  mkRogueEventRecord (event_uuid env) sid t (set_event_id (event_uuid env) det) None.

Record Bundle : Type := mkBundle {
  qms_observed : QMSState;
  qms_predicted : QMSState;
  bundle_detection : RogueDetectionResult;
  bundle_hild : HILDStatus;
  aligned : RSL.Aligned;
  bundle_event_id : option string
}.

(** The branch [if detection.triggered:]; returns the detection (with its
    [event_id] set when it triggered) and the event id. *)
Definition register (env : Env) (sid : string) (t : R) (det : RogueDetectionResult)
  : Eff QRVManager (RogueDetectionResult * option string) :=
  if triggered det then
    let record := event_record env sid t det in
    _ ← on_rvl (RVL.record (sinks env) record);
    _ ← _publish_event env
          (qrv_detection sid t (event_uuid env) (rogue_segments det)
                         (error_norm det) (ablation_improvement det));
    mret (detection record, Some (event_uuid env))
  else mret (det, None).

Definition process_tick (env : Env) (sid : string) (t : R)
    (feature_overrides : option (list R)) : Eff QRVManager Bundle :=
  m ← get;
  observed ← lift (QMS.build_from_segments (qms_builder m) sid t (qms_limit m)
                                           feature_overrides);
  let prev := prior m sid observed in
  predicted ← lift (Hamiltonian.predict (hamiltonian m) prev (elapsed t prev));
  det ← lift (Spectral.detect (eigh env) (detector m) observed predicted);
  '(det, event_id) ← register env sid t det;
  status ← (fun m => let '(h, status) := HILD.on_tick (prompt_uuid env) (hild m) sid t det in
                     (set_hild h m, Ok status));
  _ ← _publish_event env
        (hild_status sid t (state status) (text <$> prompt status));
  _ ← modify (set_last_qms sid observed);
  mret (mkBundle observed predicted det status
                 (RSL.align (rsl m) (standard_normal env) observed) event_id).

Definition acknowledge_prompt (sid response : string) (t : R)
  : Eff QRVManager HILDStatus :=
  fun m => let '(h, status) := HILD.acknowledge (hild m) sid response t in
           (set_hild h m, Ok status).

Definition list_events (env : Env) (m : QRVManager) (session_id : option string)
  : Result (list RVL.Event) :=
  RVL.list_events (sinks env) (rvl m) session_id.

Definition status (m : QRVManager) (sid : string) : HILDStatus :=
  HILD.get_status (hild m) sid.

End Manager.

(** ** The first fault a call of [record] meets *)

Module Faults.

Import Models RVL.

(** The first element that is a fault *)
Fixpoint first_fault (faults : list (option exn)) : option exn :=
  match faults with
  | [] => None
  | Some e :: _ => Some e
  | None :: rest => first_fault rest
  end.

(** The steps of [_write_audit] in order: [mkdir], [read_parquet] when the
    file exists, [to_parquet]. *)
Definition audit_fault (env : Env) (l : RogueVariableLibrary)
    (record : RogueEventRecord) : option exn :=
  first_fault
    [ mkdir_fault env;
      match audit_file l with Some _ => read_parquet_fault env | None => None end;
      to_parquet_fault env (audit_frame l record) ].

(** The steps of [_persist_neo4j]: none for the in-memory repository, else
    opening the session and each statement in turn. *)
Definition mirror_fault (env : Env) (l : RogueVariableLibrary)
    (record : RogueEventRecord) : option exn :=
  match repo_kind l with
  | Repo.InMemoryMPGRepository => None
  | Repo.Neo4jMPGRepository =>
      first_fault (session_fault env :: map (run_fault env) (statements record))
  end.

Definition outcome (fault : option exn) : Result unit :=
  match fault with
  | Some e => Raise e
  | None => Ok tt
  end.

End Faults.

(** ** Drivers and sample data used to state and exercise the properties *)

Module Scenario.

Import Np Models HILD.

Local Open Scope R_scope.

(** Three segments as [tests/test_qrvm_manager.py] builds them, one edge,
    and a state lookup that fails for ["seg_1"]. *)
Definition demo_segment (id : string) : Repo.Segment :=
  Repo.mkSegment id
    (list_to_map
       [ ("name", Repo.NotNum ValueError); ("valence", Repo.Num (1 / 10));
         ("intensity", Repo.Num (1 / 2)); ("recency", Repo.Num (1 / 2));
         ("stability", Repo.Num (1 / 2)); ("importance", Repo.Num (1 / 2));
         ("confidence", Repo.Num (1 / 2)) ]%string).

Definition demo_segments : list Repo.Segment :=
  [demo_segment "seg_0"; demo_segment "seg_1"; demo_segment "seg_2"]%string.

Definition demo_repo : Repo.t :=
  Repo.mk Repo.InMemoryMPGRepository
    (fun limit => Ok (slice_to limit demo_segments))
    (fun segment_id _ =>
       if String.eqb segment_id "seg_1" then Raise ServiceUnavailable
       else Ok [Repo.mkSegmentStateRow (Some (1 / 2)) None])
    (fun _ => Ok [Repo.mkEdge "seg_0" "seg_1" (Some (6 / 10)) (Some (8 / 10))]%string).

Definition demo_builder : QMS.QMSBuilder := QMS.init demo_repo None true.

Definition demo_hamiltonian : Hamiltonian.HamiltonianBuilder :=
  Hamiltonian.mkHamiltonianBuilder demo_repo (1 / 10).

(** The two states of [tests/test_qrvm.py]. *)
Definition observed_ab : QMSState :=
  mkQMSState ["a"; "b"]%string [Cof 1; Cof 0] None None 1 [].

Definition predicted_ab : QMSState :=
  mkQMSState ["a"; "b"]%string [Cof 0; Cof 1] None None 1 [].

(** An eigensolver answer for the 2 x 2 zero matrix: eigenvalues 0, 0 and
    the identity as eigenvectors. *)
Definition eigh_of_zero2 (m : matrix) : Result (list R * matrix) :=
  Ok ([0; 0], [[Cof 1; Cof 0]; [Cof 0; Cof 1]]).

(** A correct eigensolver answer for the error operator of those two
    states, [[1, -1], [-1, 1]]: eigenvalues 0 and 2, eigenvectors
    [(1, 1) / sqrt 2] and [(1, -1) / sqrt 2]. *)
Definition eigh_of_swap (m : matrix) : Result (list R * matrix) :=
  Ok ([0; 2],
      [[Cof (/ sqrt 2); Cof (/ sqrt 2)]; [Cof (/ sqrt 2); Cof (- / sqrt 2)]]).

(** A triggered detection on the swapped pair and its event record. *)
Definition swap_detection : RogueDetectionResult :=
  mkRogueDetectionResult true (sqrt 2) (1 - sqrt 2) [] ["b"; "a"]%string
                         (Some "ev-1"%string) (Some observed_ab) (Some predicted_ab).

Definition swap_record : RogueEventRecord :=
  mkRogueEventRecord "ev-1" "s1" 1000 swap_detection None.

(** Sinks that all work, and sinks whose parquet write fails. *)
Definition sinks_ok : RVL.Env :=
  RVL.mkEnv None None (fun _ => None) None (fun _ => None) (fun _ => []).

Definition sinks_parquet_down : RVL.Env :=
  RVL.mkEnv None None (fun _ => Some OSError) None (fun _ => None) (fun _ => []).

(** Sinks whose parquet file works and whose graph store cannot be reached:
    no session can be opened. *)
Definition sinks_store_down : RVL.Env :=
  RVL.mkEnv None None (fun _ => None) (Some ServiceUnavailable)
            (fun _ => Some ServiceUnavailable) (fun _ => []).

(** A graph store that cannot be reached: every read raises. *)
Definition down_repo : Repo.t :=
  Repo.mk Repo.Neo4jMPGRepository
    (fun _ => Raise ServiceUnavailable)
    (fun _ _ => Raise ServiceUnavailable)
    (fun _ => Raise ServiceUnavailable).

Definition tick_env : Manager.Env :=
  Manager.mkEnv eigh_of_zero2 sinks_ok "ev-1" "p-1" (fun _ => Ok tt) (fun _ => 0).

Definition down_manager : Manager.QRVManager := Manager.init down_repo 64 false.

(** A Hamiltonian builder over that store, and a prior state with an empty
    basis. *)
Definition down_hamiltonian : Hamiltonian.HamiltonianBuilder :=
  Hamiltonian.mkHamiltonianBuilder down_repo (1 / 10).

Definition empty_prior : QMSState := mkQMSState [] [] None None 0 [].

Definition demo_prior : QMSState :=
  mkQMSState ["seg_0"; "seg_1"; "seg_2"]%string [Cof 1; C0; C0]
             (Some "s1"%string) (Some 0) 1 [].

(** The four ticks of the scenario, threaded through the machine. *)
Definition run4 (u1 u2 u3 u4 : string) (sessions : HILDStateMachine) (sid : string)
    (t1 t2 t3 t4 : R) (d1 d2 d3 d4 : RogueDetectionResult)
  : HILDStatus * HILDStatus * HILDStatus * HILDStatus :=
  let '(m1, s1) := on_tick u1 sessions sid t1 d1 in
  let '(m2, s2) := on_tick u2 m1 sid t2 d2 in
  let '(m3, s3) := on_tick u3 m2 sid t3 d3 in
  let '(m4, s4) := on_tick u4 m3 sid t4 d4 in
  (s1, s2, s3, s4).

Definition quiet_detection : RogueDetectionResult :=
  mkRogueDetectionResult false 0 0 [] [] None None None.

Definition rogue_detection : RogueDetectionResult :=
  mkRogueDetectionResult true 1 (-1) [] ["seg_0"; "seg_1"]%string (Some "ev-1"%string)
                         None None.

(** A one-segment observation against its negation, and the eigensolver
    answer for their 1 x 1 error operator [[4]]. *)
Definition observed_flip : QMSState :=
  mkQMSState ["a"%string] [Cof 1] None None 1 [].

Definition predicted_flip : QMSState :=
  mkQMSState ["a"%string] [Cof (-1)] None None 1 [].

Definition eigh_of_flip (m : matrix) : Result (list R * matrix) :=
  Ok ([4%R], [[Cof 1]]).

(** A three-segment observation against a two-segment prediction. *)
Definition observed_abc : QMSState :=
  mkQMSState ["a"; "b"; "c"]%string [Cof 1; Cof 0; Cof 0] None None 1 [].

(** A segment whose importance is not a number, a repository that ranks it
    second, and a repository with the sample ranking whose state lookups
    always fail. *)
Definition bad_segment : Repo.Segment :=
  Repo.mkSegment "seg_bad" {[ "importance"%string := Repo.NotNum TypeError ]}.

Definition bad_repo : Repo.t :=
  Repo.mk Repo.InMemoryMPGRepository
    (fun _ => Ok [demo_segment "seg_0"; bad_segment])
    (fun _ _ => Ok [])
    (fun _ => Ok []).

Definition stateless_repo : Repo.t :=
  Repo.mk Repo.InMemoryMPGRepository
    (fun limit => Ok (slice_to limit demo_segments))
    (fun _ _ => Raise ServiceUnavailable)
    (fun _ => Ok []).

(** A state with two basis ids and a single amplitude. *)
Definition lopsided_state : QMSState :=
  mkQMSState ["a"; "b"]%string [Cof 1] None None 1 [].

(** A second record of the same session, one of another session, and a
    graph store that fails on the statements about rogue directions. *)
Definition swap_record_2 : RogueEventRecord :=
  mkRogueEventRecord "ev-2" "s1" 2000 swap_detection None.

Definition other_record : RogueEventRecord :=
  mkRogueEventRecord "ev-3" "s2" 2500 swap_detection None.

Definition sinks_directions_down : RVL.Env :=
  RVL.mkEnv None None (fun _ => None) None
    (fun stmt => match stmt with
                 | RVL.MergeRogueDirection _ _ _ _ _ => Some ServiceUnavailable
                 | _ => None
                 end)
    (fun _ => []).

(** A library over the in-memory repository holding two records of two
    sessions. *)
Definition demo_library : RVL.RogueVariableLibrary :=
  RVL.mkRVL Repo.InMemoryMPGRepository [swap_record; other_record] None [].

(** A repository without segments or edges, a manager over it with and
    without a bus, and an environment whose bus cannot be reached. *)
Definition empty_repo : Repo.t :=
  Repo.mk Repo.InMemoryMPGRepository (fun _ => Ok []) (fun _ _ => Ok []) (fun _ => Ok []).

Definition empty_manager : Manager.QRVManager := Manager.init empty_repo 64 false.

Definition empty_manager_bus : Manager.QRVManager := Manager.init empty_repo 64 true.

Definition bus_down_env : Manager.Env :=
  Manager.mkEnv eigh_of_zero2 sinks_ok "ev-1" "p-1"
                (fun _ => Raise ServiceUnavailable) (fun _ => 0).

Definition empty_observed : QMSState :=
  mkQMSState [] [] (Some "s1"%string) (Some 0) 0 [].

Definition empty_predicted : QMSState :=
  mkQMSState [] [] (Some "s1"%string) (Some 0) 0 [("predicted_from"%string, Some 0)].

Definition empty_detection : RogueDetectionResult :=
  mkRogueDetectionResult false 0 0 [] [] None (Some empty_observed) (Some empty_predicted).

End Scenario.

(** ** Segments the builder cannot convert *)

Module QMSErrors.

Import Np Repo QMS.

(** A weighted key, other than the two state metrics, whose entry in the
    segment is rejected by [float()]. *)
Definition rejected_attr (ws : list (string * R)) (seg : Segment) : Prop :=
  Exists (fun kw => String.eqb kw.1 "coherence" = false /\
                    String.eqb kw.1 "potency" = false /\
                    raises (attr_float seg kw.1)) ws.

End QMSErrors.

(** ** Edges that do not couple two segments of a basis *)

Module Coupling.

Import Repo.

(** An edge with an end outside the basis. *)
Definition leaves_basis (basis : list string) (e : Edge) : Prop :=
  edge_src e ∉ basis \/ edge_dst e ∉ basis.

End Coupling.

(** ** What a call of [record] leaves in the two stores *)

Module Stores.

Import Models RVL Faults.

(** The statements run before the first one that raises. *)
Fixpoint clean_prefix (env : Env) (stmts : list Statement) : list Statement :=
  match stmts with
  | [] => []
  | stmt :: rest =>
      match run_fault env stmt with
      | Some _ => []
      | None => stmt :: clean_prefix env rest
      end
  end.

(** The statements [_persist_neo4j] gets executed for a record. *)
Definition mirrored (env : Env) (l : RogueVariableLibrary) (record : RogueEventRecord)
  : list Statement :=
  match repo_kind l, session_fault env with
  | Repo.Neo4jMPGRepository, None => clean_prefix env (statements record)
  | _, _ => []
  end.

End Stores.

(** ** [mpg/repository.py]: the in-memory repository *)

Module InMemory.

Import Np.

Local Open Scope R_scope.

(** [mpg/models.py] *)
Record MPGNode : Type := mkMPGNode {
  node_id : string;
  name : string;
  layers : list string;
  valence : R;
  intensity : R;
  recency : R;
  stability : R;
  importance : R;
  confidence : R;
  reasoning : string;
  level : Z;
  visible : bool
}.

Record MPGEdge : Type := mkMPGEdge {
  src : string;
  dst : string;
  rel_type : string;
  strength : R;
  edge_confidence : R;
  edge_reasoning : string
}.

Record SegmentState : Type := mkSegmentState {
  state_id : string;
  segment_id : string;
  t : R;
  coherence : option R;
  potency : option R
}.

(** A [dict] with string keys, in insertion order. *)
Definition dict (V : Type) : Type := list (string * V).

Fixpoint dict_get {V : Type} (k : string) (d : dict V) : option V :=
  match d with
  | [] => None
  | (k', v) :: rest => if String.eqb k' k then Some v else dict_get k rest
  end.

(** [d[k] = v]: an existing key keeps its position. *)
Fixpoint dict_set {V : Type} (k : string) (v : V) (d : dict V) : dict V :=
  match d with
  | [] => [(k, v)]
  | (k', v') :: rest =>
      if String.eqb k' k then (k, v) :: rest else (k', v') :: dict_set k v rest
  end.

Record InMemoryMPGRepository : Type := mkRepository {
  nodes : dict MPGNode;
  edges : list MPGEdge;
  segment_states : gmap string (list SegmentState)
}.

(** [InMemoryMPGRepository()] *)
Definition empty : InMemoryMPGRepository := mkRepository [] [] ∅.

Definition node_exists (r : InMemoryMPGRepository) (id : string) : bool :=
  bool_decide (is_Some (dict_get id (nodes r))).

Definition create_node (node : MPGNode) (r : InMemoryMPGRepository)
  : InMemoryMPGRepository :=
  mkRepository (dict_set (node_id node) node (nodes r)) (edges r) (segment_states r).

Definition create_edge (edge : MPGEdge) : Eff InMemoryMPGRepository unit :=
  fun r =>
    if negb (node_exists r (src edge)) || negb (node_exists r (dst edge))
    then (r, Raise ValueError)
    else (mkRepository (nodes r) (edges r ++ [edge]) (segment_states r), Ok tt).

Definition create_segment_state (id : string) (st : SegmentState)
    (r : InMemoryMPGRepository) : InMemoryMPGRepository :=
  mkRepository (nodes r) (edges r)
               (<[id := default [] (segment_states r !! id) ++ [st]]> (segment_states r)).

(** [sorted(xs, key=key, reverse=True)] for a key compared by [lt]: a
    descending order in which elements of equal key keep their order. *)
Fixpoint insert_desc {A : Type} (lt : A -> A -> bool) (x : A) (sorted : list A) : list A :=
  match sorted with
  | [] => [x]
  | y :: rest => if lt y x then x :: y :: rest else y :: insert_desc lt x rest
  end.

Definition sorted_desc {A : Type} (lt : A -> A -> bool) (xs : list A) : list A :=
  fold_left (fun acc x => insert_desc lt x acc) xs [].

Definition Req_bool (x y : R) : bool := if Req_dec_T x y then true else false.

(** The order of the tuples [(n.importance, n.confidence)] *)
Definition rank_lt (a b : MPGNode) : bool :=
  Rlt_bool (importance a) (importance b) ||
  (Req_bool (importance a) (importance b) && Rlt_bool (confidence a) (confidence b)).

(** [n.level >= 1 or "Segment" in n.layers] *)
Definition is_segment (n : MPGNode) : bool :=
  (1 <=? level n)%Z || bool_decide ("Segment"%string ∈ layers n).

(** The nodes [top_segments] dumps, in order. *)
Definition ranked (r : InMemoryMPGRepository) (limit : Z) : list MPGNode :=
  slice_to limit (sorted_desc rank_lt (List.filter is_segment (map snd (nodes r)))).

Definition state_lt (a b : SegmentState) : bool := Rlt_bool (t a) (t b).

(** The states [get_segment_states] dumps, in order. *)
Definition latest_states (r : InMemoryMPGRepository) (id : string) (limit : Z)
  : list SegmentState :=
  slice_to limit (sorted_desc state_lt (default [] (segment_states r !! id))).

(** A [networkx.DiGraph]: for every node, in the order the nodes were
    added, its successors with the edge data, in the order first added. *)
Definition DiGraph : Type := dict (dict (R * R)).

Definition add_node (n : string) (g : DiGraph) : DiGraph :=
  match dict_get n g with
  | Some _ => g
  | None => g ++ [(n, [])]
  end.

Definition add_edge (u v : string) (data : R * R) (g : DiGraph) : DiGraph :=
  let g := add_node v (add_node u g) in
  dict_set u (dict_set v data (default [] (dict_get u g))) g.

(** [graph.edges(data=True)] *)
Definition graph_edges (g : DiGraph) : Repo.Graph :=
  concat (map (fun '(u, nbrs) =>
                 map (fun '(v, (s, c)) => Repo.mkEdge u v (Some s) (Some c)) nbrs)
              g).

(** [self.nodes[k]] *)
Definition node_at (r : InMemoryMPGRepository) (k : string) : Result MPGNode :=
  match dict_get k (nodes r) with
  | Some n => Ok n
  | None => Raise KeyError
  end.

(** The condition under which [get_graph] adds an edge. *)
Definition edge_selected (r : InMemoryMPGRepository) (lvl : option Z) (e : MPGEdge)
  : Result bool :=
  match lvl with
  | None => Ok true
  | Some l =>
      a ← node_at r (src e);
      if negb (level a =? l)%Z then Ok false
      else b ← node_at r (dst e); Ok (level b =? l)%Z
  end.

Definition get_graph (r : InMemoryMPGRepository) (lvl : option Z) : Result DiGraph :=
  let g0 :=
    fold_left (fun g n =>
                 match lvl with
                 | Some l => if (level n =? l)%Z then add_node (node_id n) g else g
                 | None => add_node (node_id n) g
                 end)
              (map snd (nodes r)) [] in
  foldM (fun (g : DiGraph) (e : MPGEdge) =>
           sel ← edge_selected r lvl e;
           Ok (if sel : bool
               then add_edge (src e) (dst e) (strength e, edge_confidence e) g
               else g))
        (edges r) g0.

Section Dump.

(** [float(s)] for a string [s]. *)
Variable float_of_str : string -> Repo.AttrVal.

(** [_dump_model(n)] as the builder reads it. *)
Definition dump_node (n : MPGNode) : Repo.Segment :=
  Repo.mkSegment (node_id n)
    (list_to_map
       [ ("id", float_of_str (node_id n)); ("name", float_of_str (name n));
         ("layers", Repo.NotNum TypeError);
         ("valence", Repo.Num (valence n)); ("intensity", Repo.Num (intensity n));
         ("recency", Repo.Num (recency n)); ("stability", Repo.Num (stability n));
         ("importance", Repo.Num (importance n));
         ("confidence", Repo.Num (confidence n));
         ("reasoning", float_of_str (reasoning n));
         ("level", Repo.Num (IZR (level n)));
         ("visible", Repo.Num (if visible n then 1 else 0));
         ("created_at", Repo.NotNum TypeError);
         ("updated_at", Repo.NotNum TypeError) ]%string).

Definition dump_state (st : SegmentState) : Repo.SegmentStateRow :=
  Repo.mkSegmentStateRow (coherence st) (potency st).

Definition top_segments (r : InMemoryMPGRepository) (limit : Z) : list Repo.Segment :=
  map dump_node (ranked r limit).

Definition get_segment_states (r : InMemoryMPGRepository) (id : string) (limit : Z)
  : list Repo.SegmentStateRow :=
  map dump_state (latest_states r id limit).

(** The repository as the accessor [core/qrv] is given. *)
Definition as_repo (r : InMemoryMPGRepository) : Repo.t :=
  Repo.mk Repo.InMemoryMPGRepository
    (fun limit => Ok (top_segments r limit))
    (fun id limit => Ok (get_segment_states r id limit))
    (fun lvl => g ← get_graph r lvl; Ok (graph_edges g)).

End Dump.

(** Adjacent elements of [l] are related by [rel]. *)
Definition chain {A : Type} (rel : A -> A -> Prop) (l : list A) : Prop :=
  forall i a b, l !! i = Some a -> l !! S i = Some b -> rel a b.

(** The calls that build a repository. *)
Inductive Op : Type :=
| CreateNode (node : MPGNode)
| CreateEdge (edge : MPGEdge)
| CreateSegmentState (id : string) (st : SegmentState).

Definition step (r : InMemoryMPGRepository) (op : Op) : InMemoryMPGRepository :=
  match op with
  | CreateNode node => create_node node r
  | CreateEdge edge => (create_edge edge r).1
  | CreateSegmentState id st => create_segment_state id st r
  end.

(** The repository after the calls [ops] on a fresh one (a [create_edge]
    that raises is caught by the caller). *)
Definition run (ops : list Op) : InMemoryMPGRepository := fold_left step ops empty.

(** Every edge joins two existing nodes. *)
Definition edges_closed (r : InMemoryMPGRepository) : Prop :=
  Forall (fun e => is_Some (dict_get (src e) (nodes r)) /\
                   is_Some (dict_get (dst e) (nodes r))) (edges r).

End InMemory.

(** ** Histories of the HILD machine *)

Module HILDTrace.

Import Np Models HILD.

(** One call on the machine. *)
Inductive Op : Type :=
| Tick (uuid sid : string) (t : R) (det : RogueDetectionResult)
| Ack (sid response : string) (t : R).

Definition step (sessions : HILDStateMachine) (op : Op) : HILDStateMachine :=
  match op with
  | Tick uuid sid t det => (on_tick uuid sessions sid t det).1
  | Ack sid response t => (acknowledge sessions sid response t).1
  end.

(** The machine after the calls [ops], starting from [HILDStateMachine()]. *)
Definition run (ops : list Op) : HILDStateMachine := fold_left step ops ∅.

(** A status stored under [sid] is coherent: it names [sid], is not in
    PendingRogue, carries a prompt exactly in Clarifying and PassiveSafe,
    and has no active event in Idle. *)
Definition coherent (sid : string) (s : HILDStatus) : Prop :=
  hs_session_id s = sid /\
  match state s with
  | pending => False
  | clarifying | passive_safe => is_Some (prompt s)
  | idle => prompt s = None /\ active_event_id s = None
  | resolved => prompt s = None
  end.

Definition all_coherent (sessions : HILDStateMachine) : Prop :=
  forall sid st, sessions !! sid = Some st -> coherent sid (status st).

(** Successive ticks of one session, each with its own prompt id, time and
    detection. *)
Definition ticks (sessions : HILDStateMachine) (sid : string)
    (calls : list (string * R * RogueDetectionResult)) : HILDStateMachine :=
  fold_left (fun m '(uuid, t, det) => (on_tick uuid m sid t det).1) calls sessions.

(** The number of quiet ticks a session needs to come to rest. *)
Definition distance (o : option HILDSessionState) : nat :=
  match o with
  | None => 0
  | Some st =>
      match state (status st) with
      | clarifying => if unanswered_retry st then 2 else 3
      | passive_safe => 1
      | _ => 0
      end
  end.

(** A machine in which session [sid] waits in Clarifying on a prompt. *)
Definition waiting (sid : string) : HILDStateMachine :=
  run [Tick "p-1" sid 0
         (mkRogueDetectionResult true 1 (-1) [] ["seg_0"; "seg_1"]%string
                                 (Some "ev-1"%string) None None)].

End HILDTrace.

(** ** A sample in-memory repository *)

Module RepositoryScenario.

Import Np.

Local Open Scope R_scope.

(** An in-memory repository built through its own calls: two segment
    nodes, an edge between them, an edge to a node that does not exist
    (rejected), and two snapshots of the first segment. *)
Definition node_of (id : string) (imp : R) : InMemory.MPGNode :=
  InMemory.mkMPGNode id "Segment" ["demo"%string] (1 / 10) (1 / 2) (1 / 2) (1 / 2)
                     imp (1 / 2) "test" 1 true.

Definition snapshot_1 : InMemory.SegmentState :=
  InMemory.mkSegmentState "st-1" "seg_0" 1 (Some (1 / 2)) None.

Definition snapshot_2 : InMemory.SegmentState :=
  InMemory.mkSegmentState "st-2" "seg_0" 2 (Some (3 / 4)) (Some (1 / 4)).

Definition built_ops : list InMemory.Op :=
  [ InMemory.CreateNode (node_of "seg_0" (1 / 2));
    InMemory.CreateNode (node_of "seg_1" (3 / 4));
    InMemory.CreateEdge (InMemory.mkMPGEdge "seg_0" "seg_1" "CAUSES" (6 / 10) (8 / 10) "test");
    InMemory.CreateEdge (InMemory.mkMPGEdge "seg_0" "ghost" "CAUSES" (6 / 10) (8 / 10) "test");
    InMemory.CreateSegmentState "seg_0" snapshot_1;
    InMemory.CreateSegmentState "seg_0" snapshot_2 ].

Definition snapshots_repo : InMemory.InMemoryMPGRepository :=
  InMemory.mkRepository [("seg_0"%string, node_of "seg_0" (1 / 2))] []
                        {[ "seg_0"%string := [snapshot_1; snapshot_2] ]}.

(** [float()] on the strings of these nodes, none of which is a number. *)
Definition no_number (s : string) : Repo.AttrVal := Repo.NotNum ValueError.

End RepositoryScenario.

(* ===================================================================== *)
(** * Properties *)
(* ===================================================================== *)

Import Np Models Scenario.

(** ** HILD state machine *)

Section HILDFacts.

Import HILD.

Local Open Scope R_scope.

Implicit Types (sessions : gmap string HILDSessionState) (sid : string).

Lemma acknowledge_known sessions sid st response t :
  sessions !! sid = Some st ->
  acknowledge sessions sid response t =
    (<[sid := mkHILDSessionState
                (mkHILDStatus sid resolved (active_event_id (status st)) None (Some t))
                false]> sessions,
     mkHILDStatus sid resolved (active_event_id (status st)) None (Some t)).
Proof. intros H. unfold acknowledge. by rewrite H. Qed.

Lemma acknowledge_unknown sessions sid response t :
  sessions !! sid = None ->
  acknowledge sessions sid response t =
    (<[sid := mkHILDSessionState (mkHILDStatus sid idle None None (Some t)) false]> sessions,
     mkHILDStatus sid idle None None (Some t)).
Proof. intros H. unfold acknowledge. by rewrite H. Qed.

(** C1, as stated, fails: acknowledging a session id that has no state
    returns a status in Idle, not in Resolved. *)
Lemma C1_acknowledge_unknown_session_stays_idle :
  ~ (forall sessions sid response t,
        state (acknowledge sessions sid response t).2 = resolved).
Proof.
  intros H.
  specialize (H ∅ "s-unknown"%string "walking"%string 1500).
  unfold acknowledge in H. rewrite lookup_empty in H. discriminate H.
Qed.

(** C1, amended: for a session id that has a state, whatever that state is,
    [acknowledge] returns a status in Resolved that carries the prior
    [active_event_id] forward with the prompt cleared, and stores it; for a
    session id without a state it creates the session in Idle, stores it and
    returns that Idle status (no prompt, no active event). *)
Theorem C1_acknowledge_resolves_known_sessions sessions sid response t :
  let '(sessions', out) := acknowledge sessions sid response t in
  get_status sessions' sid = out /\
  hs_session_id out = sid /\
  prompt out = None /\
  last_transition_ms out = Some t /\
  match sessions !! sid with
  | Some st =>
      state out = resolved /\
      active_event_id out = active_event_id (status st)
  | None =>
      state out = idle /\ active_event_id out = None
  end.
Proof.
  unfold acknowledge, get_status.
  destruct (sessions !! sid) as [st|] eqn:E;
    rewrite lookup_insert_eq; simpl; repeat split; reflexivity.
Qed.

Lemma on_tick_trigger_from_idle uuid sessions sid t det :
  state (get_status sessions sid) = idle ->
  triggered det = true ->
  on_tick uuid sessions sid t det =
    (let new := mkHILDStatus sid clarifying (event_id det)
                  (Some (_make_prompt uuid det)) (Some t) in
     (<[sid := mkHILDSessionState new false]>
        (match sessions !! sid with
         | Some _ => sessions
         | None => <[sid := mkHILDSessionState
                              (mkHILDStatus sid idle None None (Some t)) false]> sessions
         end), new)).
Proof.
  intros Hidle Htrig. unfold on_tick, get_status in *.
  destruct (sessions !! sid) as [st|] eqn:E; simpl in *.
  - rewrite Htrig, Hidle. reflexivity.
  - rewrite Htrig. reflexivity.
Qed.

Lemma on_tick_quiet_clarifying uuid sessions sid t det st :
  sessions !! sid = Some st ->
  state (status st) = clarifying ->
  triggered det = false ->
  on_tick uuid sessions sid t det =
    if unanswered_retry st then
      (<[sid := mkHILDSessionState
                  (mkHILDStatus sid passive_safe (active_event_id (status st))
                                (prompt (status st)) (Some t))
                  (unanswered_retry st)]> sessions,
       mkHILDStatus sid passive_safe (active_event_id (status st))
                    (prompt (status st)) (Some t))
    else (<[sid := mkHILDSessionState (status st) true]> sessions, status st).
Proof.
  intros E Hs Htrig. unfold on_tick. rewrite E, Htrig, Hs. reflexivity.
Qed.

Lemma on_tick_quiet_passive_safe uuid sessions sid t det st :
  sessions !! sid = Some st ->
  state (status st) = passive_safe ->
  triggered det = false ->
  on_tick uuid sessions sid t det =
    (<[sid := mkHILDSessionState
                (mkHILDStatus sid resolved (active_event_id (status st)) None (Some t))
                (unanswered_retry st)]> sessions,
     mkHILDStatus sid resolved (active_event_id (status st)) None (Some t)).
Proof.
  intros E Hs Htrig. unfold on_tick. rewrite E, Htrig, Hs. reflexivity.
Qed.

(** C4: from Idle (a session without a state, or one whose state is Idle),
    the ticks triggered, quiet, quiet, quiet give Clarifying with a prompt,
    Clarifying again (the grace tick), PassiveSafe, Resolved. *)
Theorem C4_hild_scenario u1 u2 u3 u4 sessions sid t1 t2 t3 t4 d1 d2 d3 d4 :
  state (get_status sessions sid) = idle ->
  triggered d1 = true ->
  triggered d2 = false ->
  triggered d3 = false ->
  triggered d4 = false ->
  let '(s1, s2, s3, s4) := run4 u1 u2 u3 u4 sessions sid t1 t2 t3 t4 d1 d2 d3 d4 in
  (state s1 = clarifying /\ prompt s1 = Some (_make_prompt u1 d1)) /\
  (state s2 = clarifying /\ prompt s2 = prompt s1) /\
  state s3 = passive_safe /\
  state s4 = resolved.
Proof.
  intros Hidle H1 H2 H3 H4. unfold run4.
  rewrite (on_tick_trigger_from_idle _ _ _ _ _ Hidle H1). cbv beta iota zeta.
  erewrite on_tick_quiet_clarifying;
    [ | apply lookup_insert_eq | reflexivity | exact H2 ].
  cbv beta iota zeta delta [unanswered_retry status].
  erewrite on_tick_quiet_clarifying;
    [ | apply lookup_insert_eq | reflexivity | exact H3 ].
  cbv beta iota zeta delta [unanswered_retry status].
  erewrite on_tick_quiet_passive_safe;
    [ | apply lookup_insert_eq | reflexivity | exact H4 ].
  cbn. repeat split; reflexivity.
Qed.

End HILDFacts.

Lemma C4_hild_scenario_witness :
  let '(s1, s2, s3, s4) :=
    run4 "p1" "p2" "p3" "p4" ∅ "s1" 0 1000 2000 3000
              rogue_detection quiet_detection quiet_detection quiet_detection in
  (state s1 = clarifying /\ prompt s1 = Some (HILD._make_prompt "p1" rogue_detection)) /\
  (state s2 = clarifying /\ prompt s2 = prompt s1) /\
  state s3 = passive_safe /\
  state s4 = resolved.
Proof.
  apply (C4_hild_scenario "p1" "p2" "p3" "p4" ∅ "s1" 0 1000 2000 3000
           rogue_detection quiet_detection quiet_detection quiet_detection);
    reflexivity.
Defined.

(** ** Vectors: norms and normalisation *)

Section NormFacts.

Local Open Scope R_scope.

Lemma Cabs2_nonneg (z : C) : 0 <= Cabs2 z.
Proof. unfold Cabs2. nra. Qed.

Lemma Rsum_Cabs2_nonneg (v : vec) : 0 <= Rsum (map Cabs2 v).
Proof.
  induction v as [|z v IH]; simpl.
  - lra.
  - pose proof (Cabs2_nonneg z). lra.
Qed.

Lemma norm_nonneg (v : vec) : 0 <= norm v.
Proof. apply sqrt_pos. Qed.

Lemma norm_nil : norm [] = 0.
Proof. unfold norm. simpl. apply sqrt_0. Qed.

Lemma Rlt_bool_true (x y : R) : x < y -> Rlt_bool x y = true.
Proof. intros H. unfold Rlt_bool. destruct (Rlt_dec x y); [reflexivity | contradiction]. Qed.

Lemma Rlt_bool_false (x y : R) : ~ x < y -> Rlt_bool x y = false.
Proof. intros H. unfold Rlt_bool. destruct (Rlt_dec x y); [contradiction | reflexivity]. Qed.

Lemma normalize_zero (v : vec) : norm v = 0 -> normalize v = v.
Proof. intros H. unfold normalize. rewrite Rlt_bool_false; [done | lra]. Qed.

Lemma normalize_length (v : vec) : length (normalize v) = length v.
Proof.
  unfold normalize. destruct (Rlt_bool 0 (norm v)); [|done].
  unfold vdiv. by rewrite length_map.
Qed.

End NormFacts.

(** ** Fallible loops *)

Section LoopFacts.

Context {A B : Type}.

Lemma mapM_returns (f : A -> Result B) (xs : list A) :
  Forall (fun x => returns (f x)) xs ->
  exists ys, mapM f xs = Ok ys /\ length ys = length xs.
Proof.
  induction 1 as [|x xs Hx _ IH]; simpl.
  - by exists [].
  - destruct IH as (ys & -> & Hlen). destruct (f x) as [y|e]; [|destruct Hx].
    exists (y :: ys). simpl. by rewrite Hlen.
Qed.

Lemma mapM_length (f : A -> Result B) (xs : list A) (ys : list B) :
  mapM f xs = Ok ys -> length ys = length xs.
Proof.
  revert ys. induction xs as [|x xs IH]; simpl; intros ys H.
  - by inversion H.
  - destruct (f x) as [y|e]; [|discriminate]. simpl in H.
    destruct (mapM f xs) as [ys'|e]; [|discriminate]. simpl in H.
    inversion H; subst. simpl. by rewrite (IH ys').
Qed.

Lemma foldM_returns (step : B -> A -> Result B) (xs : list A) (acc : B) :
  Forall (fun x => forall acc', returns (step acc' x)) xs ->
  returns (foldM step xs acc).
Proof.
  intros H. revert acc. induction H as [|x xs Hx _ IH]; simpl; intros acc.
  - exact I.
  - specialize (Hx acc). destruct (step acc x) as [acc'|e]; [|destruct Hx].
    simpl. apply IH.
Qed.

End LoopFacts.

(** ** QMS builder *)

Section QMSFacts.

Import Repo QMS.

Local Open Scope R_scope.

Lemma weighted_sum_returns ws seg coh pot :
  weighted_attrs_numeric ws seg -> returns (weighted_sum ws seg coh pot).
Proof.
  intros H. unfold weighted_sum. apply foldM_returns.
  eapply Forall_impl; [exact H|]. intros [key w] Hk acc. simpl in *.
  destruct (String.eqb key "coherence") eqn:E1; [exact I|].
  destruct (String.eqb key "potency") eqn:E2; [exact I|].
  specialize (Hk eq_refl eq_refl).
  destruct (attr_float seg key); [exact I | destruct Hk].
Qed.

Lemma _amplitude_from_segment_returns b seg :
  weighted_attrs_numeric (weights b) seg -> returns (_amplitude_from_segment b seg).
Proof.
  intros H. unfold _amplitude_from_segment.
  destruct (_latest_state b (seg_id seg)) as [coh pot].
  by apply weighted_sum_returns.
Qed.

(** A state lookup that raises is answered with [(0.0, 0.0)]. *)
Lemma _latest_state_lookup_raises b segment_id :
  raises (get_segment_states (repo b) segment_id 1) ->
  _latest_state b segment_id = (0, 0).
Proof.
  intros H. unfold _latest_state.
  destruct (include_state_metrics b); simpl; [|reflexivity].
  destruct (get_segment_states (repo b) segment_id 1); [destruct H | reflexivity].
Qed.

Lemma add_prefix_length (amps ov : vec) :
  (length ov <= length amps)%nat -> length (add_prefix amps ov) = length amps.
Proof.
  intros H. unfold add_prefix.
  rewrite length_app, length_zip_with, length_take, length_drop. lia.
Qed.

Lemma apply_overrides_length (amps : vec) fo :
  length (apply_overrides amps fo) = length amps.
Proof.
  unfold apply_overrides. destruct fo as [fo|]; [|done].
  destruct (length (map Cof fo) =? 0)%nat; [done|].
  apply add_prefix_length. rewrite length_take. lia.
Qed.

Lemma raw_amplitudes_returns b segs fo :
  Forall (weighted_attrs_numeric (weights b)) segs ->
  exists raw, raw_amplitudes b segs fo = Ok raw /\ length raw = length segs.
Proof.
  intros H. unfold raw_amplitudes.
  destruct (mapM_returns (_amplitude_from_segment b) segs) as (amps & -> & Hlen).
  { eapply Forall_impl; [exact H|]. intros seg. apply _amplitude_from_segment_returns. }
  eexists. split; [reflexivity|].
  by rewrite apply_overrides_length, length_map.
Qed.

Lemma build_from_segments_returns b sid t limit fo segs raw :
  top_segments (repo b) limit = Ok segs ->
  raw_amplitudes b segs fo = Ok raw ->
  build_from_segments b sid t limit fo =
    Ok (mkQMSState (map seg_id segs) (normalize raw) (Some sid) (Some t) (norm raw) []).
Proof. intros Hs Hr. unfold build_from_segments. rewrite Hs. simpl. by rewrite Hr. Qed.

(** C8: whatever the per-segment state lookups do (return or raise), a
    build over [N] ranked segments returns a state with [N] basis ids and
    [N] amplitudes; for a segment whose lookup raises, coherence and potency
    are taken as 0 in its weighted sum. *)
Theorem C8_state_lookup_fault_isolated b sid t limit fo segs :
  top_segments (repo b) limit = Ok segs ->
  Forall (weighted_attrs_numeric (weights b)) segs ->
  (exists q, build_from_segments b sid t limit fo = Ok q /\
             length (basis q) = length segs /\
             length (amplitudes q) = length segs) /\
  (forall seg, seg ∈ segs ->
     raises (get_segment_states (repo b) (seg_id seg) 1) ->
     _latest_state b (seg_id seg) = (0, 0) /\
     _amplitude_from_segment b seg = weighted_sum (weights b) seg 0 0).
Proof.
  intros Hs Hnum. split.
  - destruct (raw_amplitudes_returns b segs fo Hnum) as (raw & Hraw & Hlen).
    eexists. split; [exact (build_from_segments_returns b sid t limit fo segs raw Hs Hraw)|].
    simpl. by rewrite length_map, normalize_length.
  - intros seg _ Hraise.
    pose proof (_latest_state_lookup_raises b (seg_id seg) Hraise) as H0.
    split; [exact H0|]. unfold _amplitude_from_segment. by rewrite H0.
Qed.

End QMSFacts.

(** ** QMS builder: the normalisation in binary64 *)

Section Binary64Facts.

Import Binary64.

Local Open Scope float_scope.








End Binary64Facts.


Lemma demo_segment_numeric (id : string) :
  QMS.weighted_attrs_numeric QMS.default_weights (demo_segment id).
Proof.
  unfold QMS.weighted_attrs_numeric, QMS.default_weights.
  repeat (apply List.Forall_cons; [intros E1 E2; try discriminate E1; try discriminate E2; exact I|]).
  apply List.Forall_nil.
Qed.

Lemma demo_segments_numeric :
  Forall (QMS.weighted_attrs_numeric (QMS.weights demo_builder)) demo_segments.
Proof.
  unfold demo_segments.
  repeat (apply List.Forall_cons; [apply demo_segment_numeric|]).
  apply List.Forall_nil.
Qed.

Lemma C8_state_lookup_fault_isolated_witness :
  (exists q, QMS.build_from_segments demo_builder "s1" 1000 3 None = Ok q /\
             length (basis q) = length demo_segments /\
             length (amplitudes q) = length demo_segments) /\
  (forall seg, seg ∈ demo_segments ->
     raises (Repo.get_segment_states (QMS.repo demo_builder) (Repo.seg_id seg) 1) ->
     QMS._latest_state demo_builder (Repo.seg_id seg) = (0%R, 0%R) /\
     QMS._amplitude_from_segment demo_builder seg =
       QMS.weighted_sum (QMS.weights demo_builder) seg 0 0).
Proof.
  apply (C8_state_lookup_fault_isolated demo_builder "s1" 1000 3 None demo_segments).
  - reflexivity.
  - exact demo_segments_numeric.
Defined.

(** The lookup for ["seg_1"] of the sample repository does raise, and the
    build still yields three amplitudes. *)
Example demo_lookup_raises :
  raises (Repo.get_segment_states demo_repo "seg_1" 1).
Proof. exact I. Qed.

(** ** Hamiltonian builder *)

Section HamiltonianFacts.

Import Repo Hamiltonian.

Local Open Scope R_scope.

Lemma zeros_square n : square n (zeros n).
Proof.
  unfold square, zeros. rewrite length_replicate. split; [done|].
  apply Forall_replicate, length_replicate.
Qed.

Lemma update_entry_square f i j n h : square n h -> square n (update_entry f i j h).
Proof.
  intros [Hlen Hrows]. unfold update_entry. split.
  - rewrite length_alter. exact Hlen.
  - apply Forall_alter; [exact Hrows|].
    intros row _ Hrow. cbv beta in *. by rewrite length_alter.
Qed.

Lemma add_edge_square index n h e : square n h -> square n (add_edge index h e).
Proof.
  intros H. unfold add_edge.
  destruct (index !! edge_src e); [|exact H].
  destruct (index !! edge_dst e); [|exact H].
  by apply update_entry_square.
Qed.

Lemma damp_row_square d n h i : square n h -> square n (damp_row d h i).
Proof.
  intros H. unfold damp_row. destruct (h !! i); [|exact H].
  by apply update_entry_square.
Qed.

Lemma fold_left_square {X : Type} (step : matrix -> X -> matrix) n (xs : list X) h :
  (forall h x, square n h -> square n (step h x)) ->
  square n h -> square n (fold_left step xs h).
Proof.
  intros Hstep. revert h. induction xs as [|x xs IH]; simpl; intros h H.
  - exact H.
  - apply IH, Hstep, H.
Qed.

Lemma build_returns b basis level g :
  get_graph (repo b) (Some level) = Ok g ->
  exists h, build b basis level = Ok h /\ square (length basis) h.
Proof.
  intros Hg. unfold build. rewrite Hg. simpl. eexists. split; [reflexivity|].
  apply fold_left_square; [intros; by apply damp_row_square|].
  apply fold_left_square; [intros; by apply add_edge_square|].
  apply zeros_square.
Qed.

Lemma vsub_same_length (a b : vec) :
  length a = length b ->
  exists d, vsub a b = Ok d /\ d = zip_with Csub a b /\ length d = length a.
Proof.
  intros H. unfold vsub, broadcast2. rewrite H, Nat.eqb_refl.
  eexists. split; [reflexivity|]. split; [reflexivity|].
  rewrite length_zip_with. lia.
Qed.

Lemma predict_get_graph_raises (b : HamiltonianBuilder) prev dt e :
  get_graph (repo b) (Some 1%Z) = Raise e ->
  predict b prev dt = Raise e.
Proof. intros H. unfold predict, build. by rewrite H. Qed.

(** C9, as stated, fails: [predict] has no handler around [get_graph], so
    over a graph store that cannot be reached it raises, also for a prior
    state whose amplitudes and basis have the same length, at the floor
    [dt] of 0.001, and also for the empty basis. *)
Lemma C9_predict_raises_when_get_graph_fails :
  ~ (forall b prev dt,
       length (amplitudes prev) = length (basis prev) -> 1 / 1000 <= dt ->
       returns (predict b prev dt)).
Proof.
  intros H.
  specialize (H down_hamiltonian empty_prior (1 / 1000) eq_refl (Rle_refl _)).
  rewrite (predict_get_graph_raises _ _ _ ServiceUnavailable) in H; [exact H|].
  reflexivity.
Qed.

(** C9, amended: for every prior state whose amplitudes and basis have the
    same length and for every [dt], [predict] raises what [get_graph]
    raises when the graph accessor fails; when the accessor returns the
    graph, [predict] returns, the result keeps the basis and has as many
    amplitudes as basis ids, and with an empty basis the Hamiltonian has no
    rows, the predicted amplitudes are empty and the norm is 0. *)
Theorem C9_predict_returns_same_length b prev dt :
  length (amplitudes prev) = length (basis prev) ->
  match get_graph (repo b) (Some 1%Z) with
  | Raise e => predict b prev dt = Raise e
  | Ok g =>
      exists h q,
        build b (basis prev) 1 = Ok h /\
        square (length (basis prev)) h /\
        predict b prev dt = Ok q /\
        basis q = basis prev /\
        length (amplitudes q) = length (basis q) /\
        (basis prev = [] -> h = [] /\ amplitudes q = [] /\ qms_norm q = 0)
  end.
Proof.
  intros Hlen.
  destruct (get_graph (repo b) (Some 1%Z)) as [g|e] eqn:Hg;
    [|by apply predict_get_graph_raises].
  destruct (build_returns b (basis prev) 1 g Hg) as (h & Hb & Hsq).
  exists h. unfold predict. rewrite Hb. simpl.
  unfold matvec. rewrite <- Hlen, Nat.eqb_refl. simpl.
  destruct (vsub_same_length (amplitudes prev)
              (map (Cmul (Cmul Ci (Cof dt)))
                   (map (fun row => dot row (amplitudes prev)) h)))
    as (d & Hd & _ & Hdlen).
  { rewrite !length_map. destruct Hsq as [-> _]. exact Hlen. }
  rewrite Hd. simpl. eexists. split; [reflexivity|].
  split; [rewrite Hlen; exact Hsq|].
  split; [reflexivity|]. simpl. split; [reflexivity|].
  split; [rewrite normalize_length; congruence|].
  intros Hnil. rewrite Hnil in Hlen. simpl in Hlen.
  destruct Hsq as [Hh _]. rewrite Hnil in Hh. simpl in Hh.
  apply nil_length_inv in Hh.
  assert (d = []) as -> by (apply nil_length_inv; congruence).
  repeat split; [exact Hh | | apply norm_nil].
  unfold normalize. rewrite norm_nil.
  rewrite Rlt_bool_false by lra. reflexivity.
Qed.

End HamiltonianFacts.

Lemma C9_predict_returns_same_length_witness :
  exists h q,
    Hamiltonian.build demo_hamiltonian (basis demo_prior) 1 = Ok h /\
    square (length (basis demo_prior)) h /\
    Hamiltonian.predict demo_hamiltonian demo_prior (1 / 1000) = Ok q /\
    basis q = basis demo_prior /\
    length (amplitudes q) = length (basis q) /\
    (basis demo_prior = [] -> h = [] /\ amplitudes q = [] /\ qms_norm q = 0%R).
Proof.
  exact (C9_predict_returns_same_length demo_hamiltonian demo_prior (1 / 1000) eq_refl).
Defined.

(** ** Spectral detector: the calls of [detect] return on well-shaped data *)

Section SpectralShape.

Import Spectral.

Local Open Scope R_scope.






Lemma returns_Ok {A : Type} (r : Result A) : returns r -> exists a, r = Ok a.
Proof. destruct r as [a|e]; [by exists a | intros []]. Qed.









End SpectralShape.

(** ** Spectral detector: identical observation and prediction *)

Section SpectralSelf.

Import Spectral.

Local Open Scope R_scope.




End SpectralSelf.


(** ** Spectral detector: the swapped pair of [tests/test_qrvm.py] *)

Section SpectralSwap.

Import Spectral.

Local Open Scope R_scope.

Lemma sqrt_eq_1 (x : R) : sqrt x = 1 -> x = 1.
Proof.
  intros H. destruct (Rle_lt_dec x 0) as [Hle|Hlt].
  - rewrite (sqrt_neg_0 _ Hle) in H. lra.
  - rewrite <- (sqrt_sqrt x) by lra. rewrite H. ring.
Qed.

Lemma sqrt2_gt : 14 / 10 < sqrt 2.
Proof.
  rewrite <- (sqrt_square (14 / 10)) by lra.
  apply sqrt_lt_1; lra.
Qed.

Lemma error_operator_ab :
  _error_operator (amplitudes observed_ab) (amplitudes predicted_ab) =
    Ok (outer [Csub (Cof 1) (Cof 0); Csub (Cof 0) (Cof 1)]
              (map Cconj [Csub (Cof 1) (Cof 0); Csub (Cof 0) (Cof 1)]),
        norm [Csub (Cof 1) (Cof 0); Csub (Cof 0) (Cof 1)]).
Proof. reflexivity. Qed.

Lemma error_norm_ab : norm [Csub (Cof 1) (Cof 0); Csub (Cof 0) (Cof 1)] = sqrt 2.
Proof. unfold norm, Cabs2, Csub, Cof. simpl. f_equal. ring. Qed.

(** A unit eigenvector of the error operator [[1, -1], [-1, 1]] has two
    components of squared modulus 1/2. *)
Lemma eigvec_half (lam : R) (p q : C) :
  matvec 2 (outer [Csub (Cof 1) (Cof 0); Csub (Cof 0) (Cof 1)]
                  (map Cconj [Csub (Cof 1) (Cof 0); Csub (Cof 0) (Cof 1)]))
         [p; q] = Ok (map (Cscale lam) [p; q]) ->
  norm [p; q] = 1 ->
  Cabs2 p = 1 / 2 /\ Cabs2 q = 1 / 2.
Proof.
  destruct p as [p1 p2], q as [q1 q2].
  unfold matvec, outer, dot, Csum, Cmul, Cconj, Csub, Cof, Cadd, Cscale, C0, norm, Cabs2.
  simpl. intros Heq Hnorm.
  apply sqrt_eq_1 in Hnorm.
  inversion Heq as [[H1 H2 H3 H4]]. clear Heq.
  assert (Ha : lam * (p1 + q1) = 0) by lra.
  assert (Hb : lam * (p2 + q2) = 0) by lra.
  destruct (Req_dec lam 0) as [Hz|Hnz].
  - subst lam. assert (p1 = q1) by lra. assert (p2 = q2) by lra. subst. lra.
  - apply Rmult_integral in Ha as [Ha|Ha]; [contradiction|].
    apply Rmult_integral in Hb as [Hb|Hb]; [contradiction|].
    assert (q1 = - p1) by lra. assert (q2 = - p2) by lra. subst.
    split; nra.
Qed.

Lemma Cabs_half (z : C) : Cabs2 z = 1 / 2 -> 0 < Cabs z.
Proof. intros H. unfold Cabs. rewrite H. apply sqrt_lt_R0. lra. Qed.

Lemma Rlt_bool_irrefl (x : R) : Rlt_bool x x = false.
Proof. apply Rlt_bool_false. lra. Qed.

Lemma _top_loadings_ab (p q : C) :
  Cabs2 p = 1 / 2 -> Cabs2 q = 1 / 2 ->
  _top_loadings default [p; q] ["a"; "b"]%string = Ok ["b"; "a"]%string.
Proof.
  intros Hp Hq. unfold _top_loadings, argsort. simpl.
  assert (Hpq : Cabs q = Cabs p) by (unfold Cabs; by rewrite Hp, Hq).
  rewrite Hpq, Rlt_bool_irrefl. simpl.
  rewrite (Rlt_bool_true 0 (Cabs p)) by (by apply Cabs_half). simpl.
  reflexivity.
Qed.

Lemma direction_ab (l0 l1 : R) (a b c d : C) (idx : nat) :
  (idx < 2)%nat ->
  Cabs2 (if Nat.eqb idx 0 then a else b) = 1 / 2 ->
  Cabs2 (if Nat.eqb idx 0 then c else d) = 1 / 2 ->
  exists rd,
    direction default ["a"; "b"]%string [l0; l1] [[a; b]; [c; d]] idx = Ok rd /\
    high_segments rd = ["b"; "a"]%string.
Proof.
  intros Hidx Hp Hq. unfold direction.
  destruct idx as [|[|idx]]; [| |lia]; simpl in *;
    rewrite (_top_loadings_ab _ _ Hp Hq); simpl;
    eexists; (split; [reflexivity|]); reflexivity.
Qed.

Lemma _ablate_ab :
  _ablate (amplitudes observed_ab) (amplitudes predicted_ab) [1; 0]%nat = Ok 1.
Proof.
  unfold _ablate. simpl.
  assert (H0 : norm [C0; C0] = 0).
  { unfold norm, Cabs2, C0. simpl.
    replace (0 * 0 + 0 * 0 + (0 * 0 + 0 * 0 + 0)) with 0 by ring. apply sqrt_0. }
  unfold normalize. rewrite H0, Rlt_bool_irrefl.
  unfold vsub, broadcast2. simpl. f_equal.
  unfold norm, Cabs2, Csub, C0, Cof. simpl.
  replace ((0 - 0) * (0 - 0) + (0 - 0) * (0 - 0) +
           ((0 - 1) * (0 - 1) + (0 - 0) * (0 - 0) + 0)) with 1 by ring.
  apply sqrt_1.
Qed.

(** C5: with the default detector and an eigensolver that honours the
    contract of [numpy.linalg.eigh] on the error operator, the observation
    [1, 0] against the prediction [0, 1] over the basis a, b is triggered
    and the segment a is among the rogue segments. *)
Theorem C5_detect_swap_triggered eigh eigvals eigvecs :
  (forall oe en,
     _error_operator (amplitudes observed_ab) (amplitudes predicted_ab) = Ok (oe, en) ->
     eigh oe = Ok (eigvals, eigvecs) /\ eigh_contract oe eigvals eigvecs) ->
  exists r,
    detect eigh default observed_ab predicted_ab = Ok r /\
    triggered r = true /\
    "a"%string ∈ rogue_segments r.
Proof.
  intros H.
  destruct (H _ _ error_operator_ab) as [Heigh (Hlen & [Hrows Hcols] & Hsorted & Hvec)].
  simpl in Hlen, Hrows, Hcols.
  destruct eigvals as [|l0 [|l1 [|? ?]]]; try discriminate Hlen.
  destruct eigvecs as [|r0 [|r1 [|? ?]]]; try discriminate Hrows.
  inversion Hcols as [|? ? Hr0 Hcols']; subst.
  inversion Hcols' as [|? ? Hr1 _]; subst.
  destruct r0 as [|a [|b [|? ?]]]; try discriminate Hr0.
  destruct r1 as [|c [|d [|? ?]]]; try discriminate Hr1.
  destruct (Hvec 0%nat l0 eq_refl) as (v0 & Hv0 & Hm0 & Hn0).
  destruct (Hvec 1%nat l1 eq_refl) as (v1 & Hv1 & Hm1 & Hn1).
  simpl in Hv0, Hv1. inversion Hv0; subst v0. inversion Hv1; subst v1.
  destruct (eigvec_half _ _ _ Hm0 Hn0) as [Ha Hc].
  destruct (eigvec_half _ _ _ Hm1 Hn1) as [Hb Hd].
  assert (Hle : l0 <= l1) by (apply (Hsorted 0%nat 1%nat); [reflexivity | reflexivity | lia]).
  destruct (direction_ab l0 l1 a b c d 1) as (rd1 & Hrd1 & Hhigh1);
    [lia | exact Hb | exact Hd |].
  destruct (direction_ab l0 l1 a b c d 0) as (rd0 & Hrd0 & Hhigh0);
    [lia | exact Ha | exact Hc |].
  unfold detect.
  change (length (amplitudes observed_ab) =? 0)%nat with false. cbv iota.
  rewrite error_operator_ab.
  change (basis observed_ab) with ["a"; "b"]%string.
  cbn [mbind Result_bind Py.bind]. rewrite Heigh.
  cbn [mbind Result_bind Py.bind].
  assert (Horder : slice_to (max_directions default) (rev (argsort [l0; l1]))
                   = [1; 0]%nat).
  { unfold argsort. simpl. rewrite Rlt_bool_false by lra. reflexivity. }
  rewrite Horder. cbn [mapM]. rewrite Hrd1, Hrd0.
  cbn [mbind Result_bind Py.bind map concat app]. rewrite Hhigh1, Hhigh0.
  change (unique_first (["b"%string; "a"%string] ++ ["b"%string; "a"%string] ++ []))
    with ["b"%string; "a"%string].
  change (indices_in ["a"; "b"]%string ["b"; "a"]%string) with [1; 0]%nat.
  rewrite _ablate_ab. cbn [mbind Result_bind Py.bind].
  eexists. split; [reflexivity|]. simpl. split.
  - rewrite error_norm_ab. apply Rlt_bool_true.
    pose proof sqrt2_gt. lra.
  - apply list_elem_of_In. simpl. tauto.
Qed.

End SpectralSwap.

Lemma inv_sqrt2_sqr : (/ sqrt 2 * / sqrt 2 = 1 / 2)%R.
Proof.
  rewrite <- Rinv_mult, sqrt_sqrt by lra. lra.
Qed.

(** The sample eigensolver answer satisfies the contract of
    [numpy.linalg.eigh] on the error operator of the swapped pair. *)
Lemma eigh_of_swap_contract :
  Spectral.eigh_contract
    (outer [Csub (Cof 1) (Cof 0); Csub (Cof 0) (Cof 1)]
           (map Cconj [Csub (Cof 1) (Cof 0); Csub (Cof 0) (Cof 1)]))
    [0; 2]%R
    [[Cof (/ sqrt 2); Cof (/ sqrt 2)]; [Cof (/ sqrt 2); Cof (- / sqrt 2)]].
Proof.
  pose proof inv_sqrt2_sqr as Hs.
  split; [reflexivity|]. split; [split; [reflexivity | repeat constructor]|]. split.
  - intros i j x y Hi Hj Hij.
    destruct i as [|[|i]], j as [|[|j]]; simpl in Hi, Hj;
      try discriminate; inversion Hi; inversion Hj; subst; try lra; lia.
  - intros j lam Hj.
    destruct j as [|[|j]]; simpl in Hj; try discriminate; inversion Hj; subst lam;
      (eexists; split; [reflexivity|]; split;
       [ unfold matvec, outer, dot, Csum, Cmul, Cconj, Csub, Cof, Cadd, Cscale, C0;
         simpl; repeat (try (ring_simplify; reflexivity); f_equal; try ring)
       | unfold norm, Cabs2, Cof; simpl; rewrite <- sqrt_1; f_equal; nra ]).
Qed.

Lemma C5_detect_swap_triggered_witness :
  exists r,
    Spectral.detect eigh_of_swap Spectral.default observed_ab predicted_ab = Ok r /\
    triggered r = true /\
    "a"%string ∈ rogue_segments r.
Proof.
  apply (C5_detect_swap_triggered eigh_of_swap [0; 2]%R
           [[Cof (/ sqrt 2); Cof (/ sqrt 2)]; [Cof (/ sqrt 2); Cof (- / sqrt 2)]]).
  intros oe en Hoe. split; [reflexivity|].
  rewrite error_operator_ab in Hoe. inversion Hoe; subst.
  exact eigh_of_swap_contract.
Defined.

(** ** Rogue variable library *)

Section RVLFacts.

Import RVL Faults.

Implicit Types (env : Env) (l : RogueVariableLibrary) (r : RogueEventRecord).

Lemma _write_audit_outcome env r l :
  (_write_audit env r l).2 = outcome (audit_fault env l r).
Proof.
  unfold _write_audit, audit_fault, mbind, Eff_bind, eff_bind, may_fail, get, modify.
  simpl. destruct (mkdir_fault env); [reflexivity|].
  destruct (audit_file l); simpl.
  - destruct (read_parquet_fault env); [reflexivity|].
    destruct (to_parquet_fault env _); reflexivity.
  - destruct (to_parquet_fault env _); reflexivity.
Qed.

Lemma _write_audit_keeps env r l :
  _in_memory (_write_audit env r l).1 = _in_memory l /\
  repo_kind (_write_audit env r l).1 = repo_kind l.
Proof.
  unfold _write_audit, mbind, Eff_bind, eff_bind, may_fail, get, modify.
  simpl. destruct (mkdir_fault env); [by split|].
  destruct (audit_file l); simpl.
  - destruct (read_parquet_fault env); [by split|].
    destruct (to_parquet_fault env _); by split.
  - destruct (to_parquet_fault env _); by split.
Qed.

Lemma for_each_run_outcome env (stmts : list Statement) l :
  (for_each (run env) stmts l).2 = outcome (first_fault (map (run_fault env) stmts)).
Proof.
  revert l. induction stmts as [|stmt stmts IH]; intros l; simpl; [reflexivity|].
  unfold eff_bind, run, mbind, Eff_bind, eff_bind, may_fail, modify.
  destruct (run_fault env stmt); simpl; [reflexivity | apply IH].
Qed.

Lemma for_each_run_keeps env (stmts : list Statement) l :
  _in_memory (for_each (run env) stmts l).1 = _in_memory l /\
  repo_kind (for_each (run env) stmts l).1 = repo_kind l.
Proof.
  revert l. induction stmts as [|stmt stmts IH]; intros l; simpl; [by split|].
  unfold eff_bind, run, mbind, Eff_bind, eff_bind, may_fail, modify.
  destruct (run_fault env stmt); simpl; [by split|].
  exact (IH (executed stmt l)).
Qed.

Lemma _persist_neo4j_outcome env r l :
  (_persist_neo4j env r l).2 = outcome (mirror_fault env l r).
Proof.
  unfold _persist_neo4j, mirror_fault, mbind, Eff_bind, eff_bind, may_fail, get.
  simpl. destruct (repo_kind l); [reflexivity|].
  destruct (session_fault env); [reflexivity|].
  exact (for_each_run_outcome env (statements r) l).
Qed.

Lemma _persist_neo4j_keeps env r l :
  _in_memory (_persist_neo4j env r l).1 = _in_memory l /\
  repo_kind (_persist_neo4j env r l).1 = repo_kind l.
Proof.
  unfold _persist_neo4j, mbind, Eff_bind, eff_bind, may_fail, get.
  simpl. destruct (repo_kind l) eqn:E; [by split|].
  destruct (session_fault env); [by split|].
  destruct (for_each_run_keeps env (statements r) l) as [H1 H2].
  rewrite E in H2. split; [exact H1 | exact H2].
Qed.

(** The record is in the in-memory log after [record], whatever the sinks
    did, and the kind of repository is unchanged. *)
Lemma record_appends env r l :
  _in_memory (record env r l).1 = _in_memory l ++ [r] /\
  repo_kind (record env r l).1 = repo_kind l.
Proof.
  unfold record, mbind, Eff_bind, eff_bind, modify.
  pose proof (_write_audit_keeps env r (append_in_memory r l)) as [H1 H2].
  destruct (_write_audit env r (append_in_memory r l)) as [l1 [[]|e]]; simpl in *.
  - destruct (_persist_neo4j_keeps env r l1) as [H3 H4]. by rewrite H3, H4.
  - by split.
Qed.

Lemma record_outcome env r l :
  (record env r l).2 =
    match audit_fault env l r with
    | Some e => Raise e
    | None => outcome (mirror_fault env l r)
    end.
Proof.
  unfold record, mbind, Eff_bind, eff_bind, modify.
  pose proof (_write_audit_outcome env r (append_in_memory r l)) as Ha.
  pose proof (_write_audit_keeps env r (append_in_memory r l)) as [_ Hk].
  change (audit_fault env (append_in_memory r l) r) with (audit_fault env l r) in Ha.
  destruct (_write_audit env r (append_in_memory r l)) as [l1 [[]|e]]; simpl in *.
  - rewrite _persist_neo4j_outcome.
    destruct (audit_fault env l r); simpl in Ha; [discriminate|].
    unfold mirror_fault. rewrite Hk. reflexivity.
  - destruct (audit_fault env l r); simpl in Ha; [congruence | discriminate].
Qed.

(** C2, as stated, fails: with a parquet write that raises, [record]
    raises. *)
Lemma C2_record_raises_when_audit_write_fails :
  ~ (forall env r l, returns (record env r l).2).
Proof.
  intros H.
  specialize (H sinks_parquet_down swap_record (RVL.init Repo.InMemoryMPGRepository)).
  rewrite record_outcome in H. exact H.
Qed.

(** C2, amended: [record] appends the record to the in-memory log and then
    runs the audit write and the graph-store mirror without a handler: it
    raises the first exception a sink raises (the audit write first, then
    the mirror) and returns normally exactly when no sink step fails; the
    record is in the in-memory log in either case. *)
Theorem C2_record_propagates_sink_failure env r l :
  (record env r l).2 =
    match audit_fault env l r with
    | Some e => Raise e
    | None => outcome (mirror_fault env l r)
    end /\
  (returns (record env r l).2 <->
   audit_fault env l r = None /\ mirror_fault env l r = None) /\
  _in_memory (record env r l).1 = _in_memory l ++ [r].
Proof.
  split; [apply record_outcome|]. split; [|apply record_appends].
  rewrite record_outcome.
  destruct (audit_fault env l r); simpl.
  - split; [intros [] | intros [H _]; discriminate H].
  - destruct (mirror_fault env l r); simpl.
    + split; [intros [] | intros [_ H]; discriminate H].
    + split; [by intros _ | by intros _].
Qed.

Lemma list_events_in_memory env l (session_id : option string) :
  repo_kind l = Repo.InMemoryMPGRepository ->
  list_events env l session_id =
    Ok (map Dumped (List.filter (fun rec => negb (skipped session_id rec)) (_in_memory l))).
Proof. intros H. unfold list_events. by rewrite H. Qed.

Lemma not_skipped_own_session r : skipped (Some (rec_session_id r)) r = false.
Proof.
  unfold skipped. rewrite String.eqb_refl. simpl. apply andb_false_r.
Qed.

(** C10, as stated, fails: over a graph store that cannot be reached the
    mirror write of [record] raises, the record is in the in-memory log,
    and [list_events] for the record's session raises as well instead of
    returning it. *)
Lemma C10_list_events_raises_when_store_down :
  ~ (forall env r l,
       raises (record env r l).2 ->
       exists events,
         list_events env (record env r l).1 (Some (rec_session_id r)) = Ok events /\
         Dumped r ∈ events).
Proof.
  intros H.
  destruct (H sinks_store_down swap_record (RVL.init Repo.Neo4jMPGRepository))
    as (events & Hev & _).
  - rewrite record_outcome. exact I.
  - unfold list_events in Hev. rewrite (proj2 (record_appends _ _ _)) in Hev.
    discriminate Hev.
Qed.

(** C10, amended: when [record] raises, the record is nevertheless in the
    in-memory log, and every list that [list_events] returns for the
    record's session id holds its dump.  With the in-memory repository
    [list_events] always returns; with a graph-store repository it returns
    exactly when the session can be opened and the query runs, and raises
    the store's exception otherwise. *)
Theorem C10_record_not_atomic env r l :
  raises (record env r l).2 ->
  _in_memory (record env r l).1 = _in_memory l ++ [r] /\
  (forall events,
     list_events env (record env r l).1 (Some (rec_session_id r)) = Ok events ->
     Dumped r ∈ events) /\
  (repo_kind l = Repo.InMemoryMPGRepository ->
   returns (list_events env (record env r l).1 (Some (rec_session_id r)))) /\
  (repo_kind l = Repo.Neo4jMPGRepository ->
   list_events env (record env r l).1 (Some (rec_session_id r)) =
     match session_fault env,
           run_fault env (MatchRogueEvents (Some (rec_session_id r))) with
     | Some e, _ => Raise e
     | None, Some e => Raise e
     | None, None =>
         Ok (map Dumped (List.filter
                           (fun rec => negb (skipped (Some (rec_session_id r)) rec))
                           (_in_memory l ++ [r]))
             ++ map Stored (stored_events env (Some (rec_session_id r))))
     end).
Proof.
  intros _. destruct (record_appends env r l) as [Hmem Hkind].
  split; [exact Hmem|].
  assert (Hin : Dumped r ∈
            map Dumped (List.filter
                          (fun rec => negb (skipped (Some (rec_session_id r)) rec))
                          (_in_memory (record env r l).1))).
  { apply list_elem_of_In, in_map, filter_In. split.
    - rewrite Hmem. apply in_or_app. right. by left.
    - by rewrite not_skipped_own_session. }
  unfold list_events. rewrite Hkind. repeat split.
  - intros events. destruct (repo_kind l).
    + intros [= <-]. exact Hin.
    + destruct (session_fault env) as [e|]; [discriminate|].
      destruct (run_fault env _) as [e|]; [discriminate|].
      intros [= <-]. apply elem_of_app. by left.
  - by intros ->.
  - intros ->. by rewrite Hmem.
Qed.

End RVLFacts.

Lemma C10_record_not_atomic_witness :
  let l' := (RVL.record sinks_parquet_down swap_record
               (RVL.init Repo.InMemoryMPGRepository)).1 in
  raises (RVL.record sinks_parquet_down swap_record
            (RVL.init Repo.InMemoryMPGRepository)).2 /\
  RVL._in_memory l' = [swap_record] /\
  returns (RVL.list_events sinks_parquet_down l' (Some "s1"%string)) /\
  (forall events,
     RVL.list_events sinks_parquet_down l' (Some "s1"%string) = Ok events ->
     RVL.Dumped swap_record ∈ events).
Proof.
  assert (Hr : raises (RVL.record sinks_parquet_down swap_record
                         (RVL.init Repo.InMemoryMPGRepository)).2) by exact I.
  destruct (C10_record_not_atomic sinks_parquet_down swap_record
              (RVL.init Repo.InMemoryMPGRepository) Hr) as (Hmem & Hin & Hret & _).
  split; [exact Hr|]. split; [exact Hmem|]. split; [exact (Hret eq_refl) | exact Hin].
Defined.

(** ** Manager: a failing component fails the tick *)

Section ManagerFacts.

Import Manager.

Local Open Scope R_scope.

Implicit Types (env : Env) (m : QRVManager) (sid : string) (t : R).

Lemma build_top_segments_raises (b : QMS.QMSBuilder) sid t limit fo e :
  Repo.top_segments (QMS.repo b) limit = Raise e ->
  QMS.build_from_segments b sid t limit fo = Raise e.
Proof. intros H. unfold QMS.build_from_segments. by rewrite H. Qed.

Lemma detect_eigh_raises eigh d observed predicted oe en e :
  amplitudes observed <> [] ->
  Spectral._error_operator (amplitudes observed) (amplitudes predicted) = Ok (oe, en) ->
  eigh oe = Raise e ->
  Spectral.detect eigh d observed predicted = Raise e.
Proof.
  intros Hne Hoe He. unfold Spectral.detect.
  destruct (amplitudes observed) as [|z a] eqn:E; [contradiction|].
  simpl length. cbv iota beta. rewrite Hoe. simpl. by rewrite He.
Qed.

Lemma process_tick_build_raises env m sid t fo e :
  QMS.build_from_segments (qms_builder m) sid t (qms_limit m) fo = Raise e ->
  process_tick env sid t fo m = (m, Raise e).
Proof.
  intros H. unfold process_tick, mbind, Eff_bind, eff_bind, get, lift.
  by rewrite H.
Qed.

Lemma process_tick_predict_raises env m sid t fo observed e :
  QMS.build_from_segments (qms_builder m) sid t (qms_limit m) fo = Ok observed ->
  Hamiltonian.predict (hamiltonian m) (prior m sid observed)
                      (elapsed t (prior m sid observed)) = Raise e ->
  process_tick env sid t fo m = (m, Raise e).
Proof.
  intros Hb Hp. unfold process_tick, mbind, Eff_bind, eff_bind, get, lift.
  rewrite Hb. cbv beta iota zeta. by rewrite Hp.
Qed.

Lemma process_tick_detect_raises env m sid t fo observed predicted e :
  QMS.build_from_segments (qms_builder m) sid t (qms_limit m) fo = Ok observed ->
  Hamiltonian.predict (hamiltonian m) (prior m sid observed)
                      (elapsed t (prior m sid observed)) = Ok predicted ->
  Spectral.detect (eigh env) (detector m) observed predicted = Raise e ->
  process_tick env sid t fo m = (m, Raise e).
Proof.
  intros Hb Hp Hd. unfold process_tick, mbind, Eff_bind, eff_bind, get, lift.
  rewrite Hb. cbv beta iota zeta. rewrite Hp. cbv beta iota zeta. by rewrite Hd.
Qed.

Lemma process_tick_record_raises env m sid t fo observed predicted det e :
  QMS.build_from_segments (qms_builder m) sid t (qms_limit m) fo = Ok observed ->
  Hamiltonian.predict (hamiltonian m) (prior m sid observed)
                      (elapsed t (prior m sid observed)) = Ok predicted ->
  Spectral.detect (eigh env) (detector m) observed predicted = Ok det ->
  triggered det = true ->
  (RVL.record (sinks env) (event_record env sid t det) (rvl m)).2 = Raise e ->
  process_tick env sid t fo m =
    (set_rvl (RVL.record (sinks env) (event_record env sid t det) (rvl m)).1 m,
     Raise e).
Proof.
  intros Hb Hp Hd Ht Hr. unfold process_tick, mbind, Eff_bind, eff_bind, get, lift.
  rewrite Hb. cbv beta iota zeta. rewrite Hp. cbv beta iota zeta.
  rewrite Hd. cbv beta iota zeta.
  unfold register. rewrite Ht.
  unfold mbind, Eff_bind, eff_bind, on_rvl.
  destruct (RVL.record (sinks env) (event_record env sid t det) (rvl m)) as [l' res].
  simpl in Hr. subst res. reflexivity.
Qed.

(** C3, as stated, fails: the tick of a manager whose graph accessor
    raises in [top_segments] raises; nothing is returned. *)
Lemma C3_process_tick_raises_when_top_segments_fails :
  ~ (forall env m sid t fo, returns (process_tick env sid t fo m).2).
Proof.
  intros H. specialize (H tick_env down_manager "s1"%string 0 None).
  rewrite (process_tick_build_raises _ _ _ _ _ ServiceUnavailable) in H; [exact H|].
  reflexivity.
Qed.

(** C3, amended: [process_tick] has no handler of its own.  When
    [top_segments] raises, when [get_graph] raises, when the eigensolver
    raises, or when [RVL.record] raises on a triggered detection (a failed
    sink), the same exception leaves [process_tick]; in the first three
    cases the manager is unchanged, in the last one only the library has
    changed (the record is already in its in-memory log) and neither the
    HILD machine nor the cached prior state has been updated. *)
Theorem C3_process_tick_propagates env m sid t fo :
  (forall e,
     Repo.top_segments (QMS.repo (qms_builder m)) (qms_limit m) = Raise e ->
     process_tick env sid t fo m = (m, Raise e)) /\
  (forall observed e,
     QMS.build_from_segments (qms_builder m) sid t (qms_limit m) fo = Ok observed ->
     Repo.get_graph (Hamiltonian.repo (hamiltonian m)) (Some 1%Z) = Raise e ->
     process_tick env sid t fo m = (m, Raise e)) /\
  (forall observed predicted oe en e,
     QMS.build_from_segments (qms_builder m) sid t (qms_limit m) fo = Ok observed ->
     Hamiltonian.predict (hamiltonian m) (prior m sid observed)
                         (elapsed t (prior m sid observed)) = Ok predicted ->
     amplitudes observed <> [] ->
     Spectral._error_operator (amplitudes observed) (amplitudes predicted) = Ok (oe, en) ->
     eigh env oe = Raise e ->
     process_tick env sid t fo m = (m, Raise e)) /\
  (forall observed predicted det e,
     QMS.build_from_segments (qms_builder m) sid t (qms_limit m) fo = Ok observed ->
     Hamiltonian.predict (hamiltonian m) (prior m sid observed)
                         (elapsed t (prior m sid observed)) = Ok predicted ->
     Spectral.detect (eigh env) (detector m) observed predicted = Ok det ->
     triggered det = true ->
     (RVL.record (sinks env) (event_record env sid t det) (rvl m)).2 = Raise e ->
     exists l',
       process_tick env sid t fo m = (set_rvl l' m, Raise e) /\
       RVL._in_memory l' = RVL._in_memory (rvl m) ++ [event_record env sid t det]).
Proof.
  repeat split.
  - intros e H. apply process_tick_build_raises.
    by apply build_top_segments_raises.
  - intros observed e Hb Hg. eapply process_tick_predict_raises; [exact Hb|].
    by apply predict_get_graph_raises.
  - intros observed predicted oe en e Hb Hp Hne Hoe He.
    eapply process_tick_detect_raises; [exact Hb | exact Hp |].
    by eapply detect_eigh_raises.
  - intros observed predicted det e Hb Hp Hd Ht Hr.
    eexists. split.
    + by eapply process_tick_record_raises.
    + apply record_appends.
Qed.

End ManagerFacts.

Lemma C3_process_tick_propagates_witness :
  Manager.process_tick tick_env "s1" 0 None down_manager =
    (down_manager, Raise ServiceUnavailable).
Proof.
  apply (proj1 (C3_process_tick_propagates tick_env down_manager "s1" 0 None)).
  reflexivity.
Defined.

(* ===================================================================== *)
(** * Further properties of the code *)
(* ===================================================================== *)

(** ** HILD machine: sessions, histories *)

Section HILDMore.

Import HILD HILDTrace.

Local Open Scope R_scope.

Implicit Types (sessions : gmap string HILDSessionState) (sid : string).

(** The session ticked is stored with exactly the status returned. *)
Lemma on_tick_stored uuid sessions sid t det :
  exists flag,
    (on_tick uuid sessions sid t det).1 !! sid =
      Some (mkHILDSessionState (on_tick uuid sessions sid t det).2 flag).
Proof.
  unfold on_tick.
  destruct (sessions !! sid) as [[cur flag]|] eqn:E; simpl.
  - destruct (triggered det); destruct cur as [? [] ? ? ?]; simpl;
      try destruct flag; simpl;
      rewrite ?lookup_insert_eq, ?E; eauto.
  - destruct (triggered det); simpl; rewrite !lookup_insert_eq; eauto.
Qed.

Lemma on_tick_other uuid sessions sid sid' t det :
  sid' <> sid ->
  (on_tick uuid sessions sid t det).1 !! sid' = sessions !! sid'.
Proof.
  intros Hne. unfold on_tick.
  destruct (sessions !! sid) as [[cur flag]|] eqn:E; simpl.
  - destruct (triggered det); destruct cur as [? [] ? ? ?]; simpl;
      try destruct flag; simpl;
      rewrite ?lookup_insert_ne by congruence; reflexivity.
  - destruct (triggered det); simpl;
      rewrite ?lookup_insert_ne by congruence; reflexivity.
Qed.

Lemma acknowledge_other sessions sid sid' response t :
  sid' <> sid ->
  (acknowledge sessions sid response t).1 !! sid' = sessions !! sid'.
Proof.
  intros Hne. unfold acknowledge.
  destruct (sessions !! sid); simpl; by rewrite lookup_insert_ne by congruence.
Qed.

(** X1: a tick or an acknowledgement of one session leaves the status of
    every other session as it was. *)
Theorem X1_hild_sessions_independent uuid sessions sid sid' response t det :
  sid' <> sid ->
  get_status (on_tick uuid sessions sid t det).1 sid' = get_status sessions sid' /\
  get_status (acknowledge sessions sid response t).1 sid' = get_status sessions sid'.
Proof.
  intros Hne. unfold get_status.
  by rewrite on_tick_other, acknowledge_other.
Qed.

(** X2: after [on_tick] the status read back for the session is the status
    the call returned, whichever branch was taken. *)
Theorem X2_on_tick_read_back uuid sessions sid t det :
  get_status (on_tick uuid sessions sid t det).1 sid =
    (on_tick uuid sessions sid t det).2.
Proof.
  unfold get_status.
  destruct (on_tick_stored uuid sessions sid t det) as [flag ->]. reflexivity.
Qed.

Lemma on_tick_coherent uuid sessions sid t det :
  (forall st, sessions !! sid = Some st -> coherent sid (status st)) ->
  coherent sid (on_tick uuid sessions sid t det).2.
Proof.
  intros H. unfold on_tick.
  destruct (sessions !! sid) as [[cur flag]|] eqn:E; simpl.
  - specialize (H _ eq_refl). destruct H as [Hsid Hst]. simpl in *.
    destruct (triggered det); destruct cur as [csid [] ev pr tr]; simpl in *;
      try destruct flag; simpl; unfold coherent; simpl; eauto.
  - destruct (triggered det); simpl; unfold coherent; simpl; eauto.
Qed.

Lemma acknowledge_coherent sessions sid response t :
  coherent sid (acknowledge sessions sid response t).2.
Proof.
  unfold acknowledge. destruct (sessions !! sid); simpl; unfold coherent; simpl; eauto.
Qed.

Lemma acknowledge_stored sessions sid response t :
  (acknowledge sessions sid response t).1 !! sid =
    Some (mkHILDSessionState (acknowledge sessions sid response t).2 false).
Proof.
  unfold acknowledge. destruct (sessions !! sid); simpl; by rewrite lookup_insert_eq.
Qed.

Lemma step_coherent sessions op :
  all_coherent sessions -> all_coherent (step sessions op).
Proof.
  intros H sid' st' Hst'. destruct op as [uuid sid t det | sid response t]; simpl in Hst'.
  - destruct (decide (sid' = sid)) as [->|Hne].
    + destruct (on_tick_stored uuid sessions sid t det) as [flag Hs].
      rewrite Hs in Hst'. inversion Hst'; subst. simpl.
      apply on_tick_coherent. intros st. apply H.
    + rewrite on_tick_other in Hst' by exact Hne. by apply H.
  - destruct (decide (sid' = sid)) as [->|Hne].
    + rewrite acknowledge_stored in Hst'. inversion Hst'; subst. simpl.
      apply acknowledge_coherent.
    + rewrite acknowledge_other in Hst' by exact Hne. by apply H.
Qed.

(** X3: after any history of ticks and acknowledgements on a fresh machine,
    every stored status names its own session, is never in PendingRogue,
    carries a prompt exactly when it is in Clarifying or PassiveSafe, and
    an Idle status has no active event. *)
Theorem X3_hild_reachable_coherent (ops : list Op) :
  all_coherent (run ops).
Proof.
  unfold run.
  assert (H0 : all_coherent ∅) by (intros sid st H; by rewrite lookup_empty in H).
  revert H0. generalize (∅ : gmap string HILDSessionState).
  induction ops as [|op ops IH]; simpl; intros sessions H; [exact H|].
  apply IH. by apply step_coherent.
Qed.

End HILDMore.

Lemma X1_hild_sessions_independent_witness :
  HILD.get_status (HILD.on_tick "p-2" (HILDTrace.waiting "s1") "s2" 10 quiet_detection).1 "s1" =
    HILD.get_status (HILDTrace.waiting "s1") "s1" /\
  HILD.get_status (HILD.acknowledge (HILDTrace.waiting "s1") "s2" "ok" 10).1 "s1" =
    HILD.get_status (HILDTrace.waiting "s1") "s1".
Proof.
  apply (X1_hild_sessions_independent "p-2" (HILDTrace.waiting "s1") "s2" "s1" "ok" 10
           quiet_detection).
  discriminate.
Defined.

Section HILDSettle.

Import HILD HILDTrace.

Local Open Scope R_scope.

Implicit Types (sessions : gmap string HILDSessionState) (sid : string).

Lemma quiet_tick_distance uuid sessions sid t det :
  triggered det = false ->
  state (get_status sessions sid) <> pending ->
  distance ((on_tick uuid sessions sid t det).1 !! sid) = pred (distance (sessions !! sid)) /\
  state (get_status (on_tick uuid sessions sid t det).1 sid) <> pending.
Proof.
  intros Hq Hp. unfold get_status, on_tick in *. rewrite Hq.
  destruct (sessions !! sid) as [[cur flag]|] eqn:E; simpl in *.
  - destruct cur as [csid [] ev pr tr]; simpl in *; try contradiction;
      try destruct flag; simpl; rewrite ?lookup_insert_eq, ?E; simpl; by split.
  - rewrite lookup_insert_eq. simpl. by split.
Qed.

Lemma ticks_distance sessions sid calls :
  Forall (fun c => triggered c.2 = false) calls ->
  state (get_status sessions sid) <> pending ->
  distance (ticks sessions sid calls !! sid) = (distance (sessions !! sid) - length calls)%nat /\
  state (get_status (ticks sessions sid calls) sid) <> pending.
Proof.
  intros Hq. revert sessions. unfold ticks.
  induction Hq as [|[[uuid t] det] calls Hc _ IH]; intros sessions Hp; simpl.
  - split; [lia | exact Hp].
  - destruct (quiet_tick_distance uuid sessions sid t det Hc Hp) as [Hd Hp'].
    destruct (IH _ Hp') as [Hd' Hp'']. split; [|exact Hp''].
    rewrite Hd', Hd. lia.
Qed.

Lemma distance_at_most_3 (o : option HILDSessionState) : (distance o <= 3)%nat.
Proof.
  destruct o as [[cur flag]|]; simpl; [|lia].
  destruct (state cur); try destruct flag; lia.
Qed.

(** X4: a session that is not in PendingRogue and receives three or more
    ticks in a row without a triggered detection ends in Idle or Resolved:
    an unanswered prompt is given up after at most three quiet ticks. *)
Theorem X4_three_quiet_ticks_settle sessions sid calls :
  Forall (fun c => triggered c.2 = false) calls ->
  (3 <= length calls)%nat ->
  state (get_status sessions sid) <> pending ->
  state (get_status (ticks sessions sid calls) sid) = idle \/
  state (get_status (ticks sessions sid calls) sid) = resolved.
Proof.
  intros Hq Hlen Hp.
  destruct (ticks_distance sessions sid calls Hq Hp) as [Hd Hp'].
  pose proof (distance_at_most_3 (sessions !! sid)) as H3.
  assert (H0 : distance (ticks sessions sid calls !! sid) = 0%nat) by lia.
  unfold get_status in *.
  destruct (ticks sessions sid calls !! sid) as [[cur flag]|]; simpl in *; [|by left].
  destruct (state cur); try destruct flag; try discriminate; try contradiction; auto.
Qed.

(** X5: whatever the session was doing, once it has been acknowledged the
    next triggered tick opens a new clarification: Clarifying, with the
    event id of that detection and a prompt built from it. *)
Theorem X5_trigger_after_acknowledge uuid sessions sid response t t' det :
  triggered det = true ->
  (on_tick uuid (acknowledge sessions sid response t).1 sid t' det).2 =
    mkHILDStatus sid clarifying (event_id det) (Some (_make_prompt uuid det)) (Some t').
Proof.
  intros Ht. unfold on_tick. rewrite acknowledge_stored, Ht.
  unfold acknowledge. destruct (sessions !! sid); reflexivity.
Qed.

(** X6: while a prompt is outstanding (Clarifying or PassiveSafe), a further
    triggered detection changes nothing: no new prompt, the active event
    and the retry flag stay, the new detection's event id is dropped. *)
Theorem X6_trigger_while_prompt_outstanding uuid sessions sid t det st :
  sessions !! sid = Some st ->
  state (status st) = clarifying \/ state (status st) = passive_safe ->
  triggered det = true ->
  on_tick uuid sessions sid t det = (sessions, status st).
Proof.
  intros E Hs Ht. unfold on_tick. rewrite E, Ht.
  destruct Hs as [-> | ->]; reflexivity.
Qed.

End HILDSettle.

Lemma X4_three_quiet_ticks_settle_witness :
  state (HILD.get_status
           (HILDTrace.ticks (HILDTrace.waiting "s1") "s1"
              [("p", 1, quiet_detection); ("p", 2, quiet_detection);
               ("p", 3, quiet_detection)]%R) "s1") = idle \/
  state (HILD.get_status
           (HILDTrace.ticks (HILDTrace.waiting "s1") "s1"
              [("p", 1, quiet_detection); ("p", 2, quiet_detection);
               ("p", 3, quiet_detection)]%R) "s1") = resolved.
Proof.
  apply (X4_three_quiet_ticks_settle (HILDTrace.waiting "s1") "s1"
           [("p", 1, quiet_detection); ("p", 2, quiet_detection);
            ("p", 3, quiet_detection)]%R).
  - repeat constructor.
  - simpl. lia.
  - discriminate.
Defined.

Lemma X5_trigger_after_acknowledge_witness :
  (HILD.on_tick "p-2" (HILD.acknowledge (HILDTrace.waiting "s1") "s1" "walking" 5).1
                "s1" 9 rogue_detection).2 =
    mkHILDStatus "s1" clarifying (event_id rogue_detection)
                 (Some (HILD._make_prompt "p-2" rogue_detection)) (Some 9%R).
Proof.
  apply (X5_trigger_after_acknowledge "p-2" (HILDTrace.waiting "s1") "s1" "walking" 5 9
           rogue_detection).
  reflexivity.
Defined.

Lemma X6_trigger_while_prompt_outstanding_witness :
  HILD.on_tick "p-2" (HILDTrace.waiting "s1") "s1" 7 rogue_detection =
    (HILDTrace.waiting "s1",
     mkHILDStatus "s1" clarifying (Some "ev-1"%string)
       (Some (HILD._make_prompt "p-1"
                (mkRogueDetectionResult true 1 (-1) [] ["seg_0"; "seg_1"]%string
                                        (Some "ev-1"%string) None None)))
       (Some 0%R)).
Proof.
  apply (X6_trigger_while_prompt_outstanding "p-2" (HILDTrace.waiting "s1") "s1" 7
           rogue_detection
           (HILD.mkHILDSessionState
              (mkHILDStatus "s1" clarifying (Some "ev-1"%string)
                 (Some (HILD._make_prompt "p-1"
                          (mkRogueDetectionResult true 1 (-1) [] ["seg_0"; "seg_1"]%string
                                                  (Some "ev-1"%string) None None)))
                 (Some 0%R))
              false)).
  - reflexivity.
  - left. reflexivity.
  - reflexivity.
Defined.

(** ** Spectral detector: what every returned result satisfies *)

Section SpectralMore.

Import Spectral.

Local Open Scope R_scope.

Lemma mapM_Forall {A B : Type} (f : A -> Result B) (P : B -> Prop) xs ys :
  (forall x y, f x = Ok y -> P y) ->
  mapM f xs = Ok ys -> Forall P ys.
Proof.
  intros Hf. revert ys. induction xs as [|x xs IH]; simpl; intros ys H.
  - inversion H. constructor.
  - destruct (f x) as [y|e] eqn:E; [|discriminate]. simpl in H.
    destruct (mapM f xs) as [ys'|e]; [|discriminate]. simpl in H.
    inversion H; subst. constructor; [by eapply Hf | by apply IH].
Qed.

Lemma unique_first_acc (xs acc : list string) :
  NoDup acc ->
  NoDup (fold_left (fun acc x => if bool_decide (x ∈ acc) then acc else acc ++ [x]) xs acc) /\
  (forall s, s ∈ fold_left (fun acc x => if bool_decide (x ∈ acc) then acc else acc ++ [x]) xs acc
             <-> s ∈ acc \/ s ∈ xs).
Proof.
  revert acc. induction xs as [|x xs IH]; intros acc Hnd; simpl.
  - split; [exact Hnd|]. intros s. rewrite elem_of_nil. tauto.
  - destruct (bool_decide (x ∈ acc)) eqn:E.
    + apply bool_decide_eq_true in E.
      destruct (IH acc Hnd) as [H1 H2]. split; [exact H1|].
      intros s. rewrite H2, elem_of_cons. split; [tauto|].
      intros [H|[->|H]]; tauto.
    + apply bool_decide_eq_false in E.
      assert (Hnd' : NoDup (acc ++ [x])).
      { apply NoDup_app. split; [exact Hnd|]. split; [|apply NoDup_singleton].
        intros y Hy Hx. apply list_elem_of_singleton in Hx. by subst. }
      destruct (IH _ Hnd') as [H1 H2]. split; [exact H1|].
      intros s. rewrite H2, elem_of_app, list_elem_of_singleton, elem_of_cons. tauto.
Qed.

Lemma unique_first_NoDup (xs : list string) : NoDup (unique_first xs).
Proof. apply unique_first_acc, NoDup_nil_2. Qed.

Lemma unique_first_elem (xs : list string) (s : string) :
  s ∈ unique_first xs <-> s ∈ xs.
Proof.
  unfold unique_first.
  destruct (unique_first_acc xs [] (NoDup_nil_2)) as [_ H].
  rewrite H, elem_of_nil. tauto.
Qed.

Lemma slice_to_length {A : Type} (k : Z) (xs : list A) :
  (0 <= k)%Z -> (length (slice_to k xs) <= Z.to_nat k)%nat.
Proof.
  intros Hk. unfold slice_to.
  destruct (0 <=? k)%Z eqn:E; [|apply Z.leb_gt in E; lia].
  rewrite length_take. lia.
Qed.

Lemma filter_length_le {A : Type} (f : A -> bool) (xs : list A) :
  (length (List.filter f xs) <= length xs)%nat.
Proof. induction xs as [|x xs IH]; simpl; [lia|]. destruct (f x); simpl; lia. Qed.

Lemma item_elem {A : Type} (xs : list A) (i : nat) (x : A) :
  item xs i = Ok x -> x ∈ xs.
Proof.
  unfold item. destruct (xs !! i) eqn:E; [|discriminate].
  intros H. inversion H; subst. by eapply list_elem_of_lookup_2.
Qed.

Lemma _top_loadings_inv d (v : vec) basis top :
  _top_loadings d v basis = Ok top ->
  Forall (fun s => s ∈ basis) top /\
  ((0 <= loading_top_k d)%Z -> (length top <= Z.to_nat (loading_top_k d))%nat).
Proof.
  unfold _top_loadings. intros H. split.
  - eapply mapM_Forall; [|exact H]. intros i s. apply item_elem.
  - intros Hk. rewrite (mapM_length _ _ _ H).
    etransitivity; [apply filter_length_le|]. by apply slice_to_length.
Qed.

Lemma direction_inv d basis eigvals eigvecs idx rd :
  direction d basis eigvals eigvecs idx = Ok rd ->
  Forall (fun s => s ∈ basis) (high_segments rd) /\
  ((0 <= loading_top_k d)%Z ->
   (length (high_segments rd) <= Z.to_nat (loading_top_k d))%nat) /\
  Some (eigenvalue rd) = eigvals !! idx.
Proof.
  unfold direction, item. intros H.
  destruct (eigvals !! idx) as [val|]; [|discriminate]. simpl in H.
  destruct (column eigvecs idx) as [v|]; [|discriminate]. simpl in H.
  destruct (loadings_of v basis) as [loads|]; [|discriminate]. simpl in H.
  destruct (_top_loadings d v basis) as [top|] eqn:E; [|discriminate]. simpl in H.
  inversion H; subst. simpl.
  destruct (_top_loadings_inv _ _ _ _ E) as [H1 H2]. by repeat split.
Qed.

Lemma _ablate_nonneg (psi_obs psi_pred : vec) indices e :
  _ablate psi_obs psi_pred indices = Ok e -> 0 <= e.
Proof.
  unfold _ablate. destruct (vsub _ psi_pred); [|discriminate].
  simpl. intros H. inversion H. apply norm_nonneg.
Qed.

(** Every way [detect] can return: the early exit on an empty observation,
    or the full path. *)
Lemma detect_inv eigh d observed predicted r :
  detect eigh d observed predicted = Ok r ->
  (amplitudes observed = [] /\
   r = mkRogueDetectionResult false 0 0 [] [] None (Some observed) (Some predicted)) \/
  (exists delta eigvals eigvecs dirs e,
     amplitudes observed <> [] /\
     vsub (amplitudes observed) (amplitudes predicted) = Ok delta /\
     eigh (outer delta (map Cconj delta)) = Ok (eigvals, eigvecs) /\
     mapM (direction d (basis observed) eigvals eigvecs)
          (slice_to (max_directions d) (rev (argsort eigvals))) = Ok dirs /\
     0 <= e /\
     r = mkRogueDetectionResult
           (Rlt_bool (e - norm delta) (- improvement_tolerance d))
           (norm delta) (e - norm delta)
           (map (set_delta_error (e - norm delta)) dirs)
           (unique_first (concat (map high_segments dirs)))
           None (Some observed) (Some predicted)).
Proof.
  unfold detect. intros H.
  destruct (length (amplitudes observed) =? 0)%nat eqn:E.
  - left. apply Nat.eqb_eq, nil_length_inv in E. inversion H. by split.
  - right. apply Nat.eqb_neq in E. unfold _error_operator in H.
    destruct (vsub (amplitudes observed) (amplitudes predicted)) as [delta|] eqn:Ev;
      [|discriminate]. simpl in H.
    destruct (eigh (outer delta (map Cconj delta))) as [[eigvals eigvecs]|] eqn:Eh;
      [|discriminate]. simpl in H.
    destruct (mapM _ _) as [dirs|] eqn:Ed; [|discriminate]. simpl in H.
    destruct (_ablate _ _ _) as [e|] eqn:Ee; [|discriminate]. simpl in H.
    exists delta, eigvals, eigvecs, dirs, e.
    split; [intros Hnil; by rewrite Hnil in E|].
    split; [reflexivity|]. split; [exact Eh|]. split; [exact Ed|].
    split; [by eapply _ablate_nonneg|]. by inversion H.
Qed.

(** X7: the rogue segments of a returned detection are pairwise distinct
    ids of the observed basis, and they are exactly the segments that
    appear among the high segments of some rogue direction. *)
Theorem X7_rogue_segments_distinct_basis_ids eigh d observed predicted r :
  detect eigh d observed predicted = Ok r ->
  NoDup (rogue_segments r) /\
  (forall s, s ∈ rogue_segments r -> s ∈ basis observed) /\
  (forall s, s ∈ rogue_segments r <->
             exists rd, rd ∈ rogue_directions r /\ s ∈ high_segments rd).
Proof.
  intros H. destruct (detect_inv _ _ _ _ _ H) as
      [[_ ->] | (delta & eigvals & eigvecs & dirs & e & _ & _ & _ & Hd & _ & ->)]; simpl.
  - split; [apply NoDup_nil_2|]. split; intros s; rewrite elem_of_nil; [tauto|].
    split; [tauto|]. intros (rd & Hrd & _). by apply elem_of_nil in Hrd.
  - assert (Hb : Forall (fun rd => Forall (fun s => s ∈ basis observed) (high_segments rd)) dirs).
    { eapply mapM_Forall; [|exact Hd]. intros idx rd Hrd.
      by destruct (direction_inv _ _ _ _ _ _ Hrd) as [? _]. }
    assert (Hc : forall s, s ∈ concat (map high_segments dirs) <->
                           exists rd, rd ∈ dirs /\ s ∈ high_segments rd).
    { intros s. rewrite list_elem_of_In, in_concat. split.
      - intros (l & Hl & Hs). apply in_map_iff in Hl as (rd & <- & Hrd).
        exists rd. split; by apply list_elem_of_In.
      - intros (rd & Hrd & Hs). exists (high_segments rd).
        split; [apply in_map|]; by apply list_elem_of_In. }
    split; [apply unique_first_NoDup|]. split.
    + intros s Hs. apply unique_first_elem, Hc in Hs as (rd & Hrd & Hs).
      rewrite Forall_forall in Hb. specialize (Hb rd Hrd).
      rewrite Forall_forall in Hb. by apply Hb.
    + intros s. rewrite unique_first_elem, Hc. split.
      * intros (rd & Hrd & Hs). exists (set_delta_error (e - norm delta) rd).
        split; [|exact Hs]. apply list_elem_of_In, in_map. by apply list_elem_of_In.
      * intros (rd' & Hrd' & Hs).
        apply list_elem_of_In, in_map_iff in Hrd' as (rd & <- & Hrd).
        exists rd. split; [by apply list_elem_of_In | exact Hs].
Qed.

(** X8: in a returned detection every rogue direction carries the same
    [delta_error], the detection's [ablation_improvement]; with non-negative
    limits there are at most [max_directions] directions and each has at
    most [loading_top_k] high segments; [detect] itself never sets
    [event_id]. *)
Theorem X8_rogue_directions_shared_delta_and_caps eigh d observed predicted r :
  detect eigh d observed predicted = Ok r ->
  Forall (fun rd => delta_error rd = ablation_improvement r) (rogue_directions r) /\
  ((0 <= max_directions d)%Z ->
   (length (rogue_directions r) <= Z.to_nat (max_directions d))%nat) /\
  ((0 <= loading_top_k d)%Z ->
   Forall (fun rd => (length (high_segments rd) <= Z.to_nat (loading_top_k d))%nat)
          (rogue_directions r)) /\
  event_id r = None.
Proof.
  intros H. destruct (detect_inv _ _ _ _ _ H) as
      [[_ ->] | (delta & eigvals & eigvecs & dirs & e & _ & _ & _ & Hd & _ & ->)]; simpl.
  - repeat split; intros; try constructor; simpl; lia.
  - split; [|split; [|split; [|reflexivity]]].
    + apply List.Forall_map, Forall_true. reflexivity.
    + intros Hk. rewrite length_map, (mapM_length _ _ _ Hd). by apply slice_to_length.
    + intros Hk. apply List.Forall_map.
      eapply mapM_Forall; [|exact Hd]. intros idx rd Hrd. simpl.
      destruct (direction_inv _ _ _ _ _ _ Hrd) as (_ & Hlen & _). by apply Hlen.
Qed.

(** X9: with a tolerance that is not negative, a triggered detection has a
    positive error norm and a negative ablation improvement that is not
    below [- error_norm]; a detection with error norm 0 is never
    triggered. *)
Theorem X9_triggered_needs_positive_error eigh d observed predicted r :
  0 <= improvement_tolerance d ->
  detect eigh d observed predicted = Ok r ->
  triggered r = true ->
  0 < error_norm r /\
  - error_norm r <= ablation_improvement r < 0.
Proof.
  intros Htol H Ht. destruct (detect_inv _ _ _ _ _ H) as
      [[_ ->] | (delta & eigvals & eigvecs & dirs & e & _ & _ & _ & _ & He & ->)];
    simpl in *; [discriminate|].
  unfold Rlt_bool in Ht. destruct (Rlt_dec _ _) as [Hlt|]; [|discriminate].
  lra.
Qed.

Lemma vsub_shape_mismatch (a b : vec) :
  (2 <= length a)%nat -> length b <> length a -> length b <> 1%nat ->
  vsub a b = Raise ValueError.
Proof.
  intros Ha Hne H1. unfold vsub, broadcast2.
  destruct (length a =? length b)%nat eqn:E; [apply Nat.eqb_eq in E; congruence|].
  destruct a as [|x [|x' a]]; simpl in Ha; try lia.
  destruct b as [|y [|y' b]]; simpl in H1; try reflexivity; lia.
Qed.

(** X10: an observation of two or more amplitudes against a prediction of
    another size (other than 1, which numpy broadcasts) makes [detect]
    raise [ValueError] before the eigensolver is called. *)
Theorem X10_detect_rejects_shape_mismatch eigh d observed predicted :
  (2 <= length (amplitudes observed))%nat ->
  length (amplitudes predicted) <> length (amplitudes observed) ->
  length (amplitudes predicted) <> 1%nat ->
  detect eigh d observed predicted = Raise ValueError.
Proof.
  intros Ha Hne H1. unfold detect.
  destruct (length (amplitudes observed) =? 0)%nat eqn:E;
    [apply Nat.eqb_eq in E; lia|].
  unfold _error_operator. by rewrite vsub_shape_mismatch.
Qed.

End SpectralMore.

Section SpectralFlip.

Import Spectral.

Local Open Scope R_scope.

Lemma Cabs_one : Cabs (Cof 1) = 1.
Proof.
  unfold Cabs, Cabs2, Cof. simpl.
  replace (1 * 1 + 0 * 0) with 1 by ring. apply sqrt_1.
Qed.

Lemma norm_C0_singleton : norm [C0] = 0.
Proof.
  unfold norm, Cabs2, C0. simpl.
  replace (0 * 0 + 0 * 0 + 0) with 0 by ring. apply sqrt_0.
Qed.

(** The flipped one-segment pair is detected: a returned, triggered
    result. *)
Lemma detect_flip_triggered :
  exists r,
    detect eigh_of_flip default observed_flip predicted_flip = Ok r /\
    triggered r = true.
Proof.
  unfold detect, _error_operator, eigh_of_flip. simpl.
  unfold direction, _top_loadings, loadings_of, argsort. simpl.
  rewrite Cabs_one, (Rlt_bool_true 0 1) by lra. simpl.
  unfold _ablate. simpl.
  unfold normalize. rewrite norm_C0_singleton, Rlt_bool_irrefl. simpl.
  eexists. split; [reflexivity|]. simpl.
  apply Rlt_bool_true.
  assert (H1 : norm [Csub C0 (Cof (-1))] = 1).
  { unfold norm, Cabs2, Csub, C0, Cof. simpl.
    replace ((0 - -1) * (0 - -1) + (0 - 0) * (0 - 0) + 0) with 1 by ring.
    apply sqrt_1. }
  assert (H2 : norm [Csub (Cof 1) (Cof (-1))] = 2).
  { unfold norm, Cabs2, Csub, Cof. simpl.
    replace ((1 - -1) * (1 - -1) + (0 - 0) * (0 - 0) + 0) with (2 * 2) by ring.
    apply sqrt_square. lra. }
  rewrite H1, H2. lra.
Qed.

End SpectralFlip.

Lemma X7_rogue_segments_distinct_basis_ids_witness :
  exists r,
    Spectral.detect eigh_of_flip Spectral.default observed_flip predicted_flip = Ok r /\
    NoDup (rogue_segments r) /\
    (forall s, s ∈ rogue_segments r -> s ∈ basis observed_flip) /\
    (forall s, s ∈ rogue_segments r <->
               exists rd, rd ∈ rogue_directions r /\ s ∈ high_segments rd).
Proof.
  destruct detect_flip_triggered as (r & Hr & _). exists r. split; [exact Hr|].
  apply (X7_rogue_segments_distinct_basis_ids eigh_of_flip Spectral.default
           observed_flip predicted_flip r).
  exact Hr.
Defined.

Lemma X8_rogue_directions_shared_delta_and_caps_witness :
  exists r,
    Spectral.detect eigh_of_flip Spectral.default observed_flip predicted_flip = Ok r /\
    Forall (fun rd => delta_error rd = ablation_improvement r) (rogue_directions r) /\
    ((0 <= 3)%Z -> (length (rogue_directions r) <= Z.to_nat 3)%nat) /\
    ((0 <= 5)%Z ->
     Forall (fun rd => (length (high_segments rd) <= Z.to_nat 5)%nat)
            (rogue_directions r)) /\
    event_id r = None.
Proof.
  destruct detect_flip_triggered as (r & Hr & _). exists r. split; [exact Hr|].
  apply (X8_rogue_directions_shared_delta_and_caps eigh_of_flip Spectral.default
           observed_flip predicted_flip r).
  exact Hr.
Defined.

Lemma X9_triggered_needs_positive_error_witness :
  exists r,
    Spectral.detect eigh_of_flip Spectral.default observed_flip predicted_flip = Ok r /\
    (0 < error_norm r)%R /\
    (- error_norm r <= ablation_improvement r < 0)%R.
Proof.
  destruct detect_flip_triggered as (r & Hr & Ht). exists r. split; [exact Hr|].
  apply (X9_triggered_needs_positive_error eigh_of_flip Spectral.default
           observed_flip predicted_flip r).
  - simpl. lra.
  - exact Hr.
  - exact Ht.
Defined.

Lemma X10_detect_rejects_shape_mismatch_witness :
  Spectral.detect eigh_of_flip Spectral.default observed_abc predicted_ab =
    Raise ValueError.
Proof.
  apply (X10_detect_rejects_shape_mismatch eigh_of_flip Spectral.default
           observed_abc predicted_ab).
  - simpl. lia.
  - simpl. lia.
  - simpl. lia.
Defined.

(** ** QMS builder: results, overrides, attribute errors *)

Section QMSMore.

Import Repo QMS QMSErrors.

Local Open Scope R_scope.

Lemma Cadd_zero_r (z : C) : Cadd z (Cof 0) = z.
Proof. destruct z as [a b]. unfold Cadd, Cof. simpl. f_equal; ring. Qed.

Lemma zip_with_Cadd_zeros (xs : vec) (zs : list R) :
  Forall (fun x => x = 0) zs -> length zs = length xs ->
  zip_with Cadd xs (map Cof zs) = xs.
Proof.
  intros Hz. revert xs. induction Hz as [|z zs -> _ IH]; intros [|x xs] Hlen;
    simpl in *; try discriminate; [reflexivity|].
  rewrite Cadd_zero_r, IH by lia. reflexivity.
Qed.

Lemma apply_overrides_zeros (amps : vec) (fo : list R) :
  Forall (fun x => x = 0) fo ->
  apply_overrides amps (Some fo) = amps.
Proof.
  intros Hz. unfold apply_overrides.
  destruct (length (map Cof fo) =? 0)%nat; [reflexivity|].
  unfold add_prefix. rewrite firstn_map.
  rewrite zip_with_Cadd_zeros.
  - rewrite length_map. apply take_drop.
  - by apply Forall_take.
  - rewrite ?length_map, ?length_take, ?length_map. lia.
Qed.

Lemma apply_overrides_truncate (amps : vec) (fo : list R) :
  apply_overrides amps (Some fo) = apply_overrides amps (Some (take (length amps) fo)).
Proof.
  unfold apply_overrides. rewrite !length_map.
  destruct (length fo =? 0)%nat eqn:E1.
  - apply Nat.eqb_eq, nil_length_inv in E1. subst. by rewrite take_nil.
  - apply Nat.eqb_neq in E1.
    destruct (length (take (length amps) fo) =? 0)%nat eqn:E2.
    + apply Nat.eqb_eq in E2. rewrite length_take in E2.
      assert (length amps = 0%nat) as Ha by lia.
      apply nil_length_inv in Ha. subst. reflexivity.
    + f_equal. rewrite !firstn_map. by rewrite take_take, Nat.min_id.
Qed.

(** X12: feature overrides beyond the length of the basis are ignored, and
    overrides that are all 0.0 give the same state as no overrides. *)
Theorem X12_overrides_truncated_and_zero_neutral b sid t limit fo :
  build_from_segments b sid t limit (Some fo) =
    match top_segments (repo b) limit with
    | Ok segs => build_from_segments b sid t limit (Some (take (length segs) fo))
    | Raise e => Raise e
    end /\
  (Forall (fun x => x = 0) fo ->
   build_from_segments b sid t limit (Some fo) = build_from_segments b sid t limit None).
Proof.
  unfold build_from_segments, raw_amplitudes. split.
  - destruct (top_segments (repo b) limit) as [segs|]; [|reflexivity].
    cbn [mbind Result_bind Py.bind].
    destruct (mapM (_amplitude_from_segment b) segs) as [amps|] eqn:E; [|reflexivity].
    cbn [mbind Result_bind Py.bind].
    rewrite (apply_overrides_truncate (map Cof amps) fo).
    by rewrite length_map, (mapM_length _ _ _ E).
  - intros Hz. destruct (top_segments (repo b) limit) as [segs|]; [|reflexivity].
    cbn [mbind Result_bind Py.bind].
    destruct (mapM (_amplitude_from_segment b) segs) as [amps|]; [|reflexivity].
    cbn [mbind Result_bind Py.bind]. by rewrite apply_overrides_zeros.
Qed.

Lemma foldM_raises {A B : Type} (step : B -> A -> Result B) (xs : list A) (acc : B) :
  Exists (fun x => forall acc', raises (step acc' x)) xs ->
  raises (foldM step xs acc).
Proof.
  intros H. revert acc. induction H as [x xs Hx | x xs _ IH]; intros acc; simpl.
  - specialize (Hx acc). destruct (step acc x); [destruct Hx | exact I].
  - destruct (step acc x) as [acc'|e]; simpl; [apply IH | exact I].
Qed.

Lemma mapM_raises {A B : Type} (f : A -> Result B) (xs : list A) :
  Exists (fun x => raises (f x)) xs -> raises (mapM f xs).
Proof.
  induction 1 as [x xs Hx | x xs _ IH]; simpl.
  - destruct (f x); [destruct Hx | exact I].
  - destruct (f x) as [y|e]; simpl; [|exact I].
    destruct (mapM f xs); [destruct IH | exact I].
Qed.

Lemma weighted_sum_raises ws seg coh pot :
  rejected_attr ws seg -> raises (weighted_sum ws seg coh pot).
Proof.
  intros H. unfold weighted_sum. apply foldM_raises.
  eapply Exists_impl; [exact H|]. intros [key w] (E1 & E2 & Hr) acc. simpl in *.
  rewrite E1, E2. destruct (attr_float seg key); [destruct Hr | exact I].
Qed.

(** X13: attribute errors are not isolated: if some ranked segment has,
    under a weighted key, a value that [float()] rejects, the whole build
    raises (unlike a failing state lookup, which only zeroes two terms). *)
Theorem X13_rejected_attribute_fails_build b sid t limit fo segs :
  top_segments (repo b) limit = Ok segs ->
  Exists (rejected_attr (weights b)) segs ->
  raises (build_from_segments b sid t limit fo).
Proof.
  intros Hs Hex. unfold build_from_segments, raw_amplitudes. rewrite Hs. simpl.
  assert (Hm : raises (mapM (_amplitude_from_segment b) segs)).
  { apply mapM_raises. eapply Exists_impl; [exact Hex|]. intros seg Hseg.
    unfold _amplitude_from_segment. destruct (_latest_state b (seg_id seg)).
    by apply weighted_sum_raises. }
  destruct (mapM (_amplitude_from_segment b) segs); [destruct Hm | exact I].
Qed.

Lemma mapM_ext {A B : Type} (f g : A -> Result B) (xs : list A) :
  (forall x, f x = g x) -> mapM f xs = mapM g xs.
Proof.
  intros H. induction xs as [|x xs IH]; simpl; [reflexivity|]. by rewrite H, IH.
Qed.

(** X14: a builder created with [include_state_metrics=False] never
    consults the state snapshots: two such builders with the same weights
    whose repositories rank the same segments build the same state, however
    their [get_segment_states] behave. *)
Theorem X14_state_metrics_switch b b' sid t limit fo :
  include_state_metrics b = false ->
  include_state_metrics b' = false ->
  weights b = weights b' ->
  top_segments (repo b) limit = top_segments (repo b') limit ->
  build_from_segments b sid t limit fo = build_from_segments b' sid t limit fo.
Proof.
  intros Hb Hb' Hw Ht. unfold build_from_segments, raw_amplitudes. rewrite Ht.
  destruct (top_segments (repo b') limit) as [segs|]; [|reflexivity]. simpl.
  rewrite (mapM_ext (_amplitude_from_segment b) (_amplitude_from_segment b')); [reflexivity|].
  intros seg. unfold _amplitude_from_segment, _latest_state. by rewrite Hb, Hb', Hw.
Qed.

End QMSMore.

Lemma X12_overrides_truncated_and_zero_neutral_witness :
  QMS.build_from_segments demo_builder "s1" 1000 3 (Some [0; 0; 0]%R) =
    QMS.build_from_segments demo_builder "s1" 1000 3 None.
Proof.
  apply (proj2 (X12_overrides_truncated_and_zero_neutral demo_builder "s1" 1000 3
                  [0; 0; 0]%R)).
  repeat constructor.
Defined.

Lemma X13_rejected_attribute_fails_build_witness :
  raises (QMS.build_from_segments (QMS.init bad_repo None true) "s1" 0 2 None).
Proof.
  apply (X13_rejected_attribute_fails_build (QMS.init bad_repo None true) "s1" 0 2 None
           [demo_segment "seg_0"; bad_segment]).
  - reflexivity.
  - apply Exists_cons_tl, Exists_cons_hd, Exists_cons_hd.
    split; [reflexivity|]. split; [reflexivity|]. exact I.
Defined.

Lemma X14_state_metrics_switch_witness :
  QMS.build_from_segments (QMS.init demo_repo None false) "s1" 0 3 None =
    QMS.build_from_segments (QMS.init stateless_repo None false) "s1" 0 3 None.
Proof.
  apply (X14_state_metrics_switch (QMS.init demo_repo None false)
           (QMS.init stateless_repo None false) "s1" 0 3 None);
    reflexivity.
Defined.

(** ** Hamiltonian builder: results, shape errors, uncoupled bases *)

Section HamiltonianMore.

Import Repo Hamiltonian Coupling.

Local Open Scope R_scope.

Lemma predict_inv b prev dt q :
  predict b prev dt = Ok q ->
  exists psi,
    q = mkQMSState (basis prev) (normalize psi) (session_id prev) (t_rel_ms prev)
                   (norm psi) [("predicted_from"%string, t_rel_ms prev)].
Proof.
  unfold predict. intros H.
  destruct (build b (basis prev) 1) as [h|]; [|discriminate]. simpl in H.
  destruct (matvec _ h _) as [hpsi|]; [|discriminate]. simpl in H.
  destruct (vsub _ _) as [psi|]; [|discriminate]. simpl in H.
  exists psi. by inversion H.
Qed.

(** X15: every state [predict] returns keeps the basis, the session id and
    the time stamp of the prior state (not the time predicted for), and
    records that same time stamp under [predicted_from]. *)
Theorem X15_predicted_state_keeps_prior_fields b prev dt q :
  predict b prev dt = Ok q ->
  basis q = basis prev /\
  session_id q = session_id prev /\
  t_rel_ms q = t_rel_ms prev /\
  meta q = [("predicted_from"%string, t_rel_ms prev)].
Proof.
  intros H. destruct (predict_inv _ _ _ _ H) as [psi ->]. simpl. by repeat split.
Qed.

(** X16: given the graph, [predict] raises [ValueError] for a prior state
    whose amplitudes and basis differ in length (the matrix product is
    rejected). *)
Theorem X16_predict_rejects_length_mismatch b prev dt g :
  get_graph (repo b) (Some 1%Z) = Ok g ->
  length (amplitudes prev) <> length (basis prev) ->
  predict b prev dt = Raise ValueError.
Proof.
  intros Hg Hne. destruct (build_returns b (basis prev) 1 g Hg) as (h & Hb & _).
  unfold predict. rewrite Hb. simpl. unfold matvec.
  destruct (length (basis prev) =? length (amplitudes prev))%nat eqn:E; [|reflexivity].
  apply Nat.eqb_eq in E. congruence.
Qed.

Lemma index_fold_is_Some (l : list (nat * string)) (m : gmap string nat) (s : string) :
  is_Some (fold_left (fun m '(i, node_id) => <[node_id := i]> m) l m !! s) <->
  is_Some (m !! s) \/ s ∈ map snd l.
Proof.
  revert m. induction l as [|[i id] l IH]; intros m; simpl.
  - rewrite elem_of_nil. tauto.
  - rewrite IH, elem_of_cons. destruct (decide (id = s)) as [->|Hne].
    + rewrite lookup_insert_eq. split; [intros _; right; by left|].
      intros _. left. by eexists.
    + rewrite lookup_insert_ne by exact Hne. split; [tauto|].
      intros [H|[H|H]]; [tauto | congruence | tauto].
Qed.

Lemma map_snd_imap_pair {A : Type} (l : list A) : map snd (imap pair l) = l.
Proof.
  apply list_eq. intros i.
  change (map snd (imap pair l)) with (snd <$> imap pair l).
  rewrite list_lookup_fmap, list_lookup_imap.
  by destruct (l !! i).
Qed.

(** An id has a position in the index exactly when it is in the basis. *)
Lemma index_of_basis_is_Some (basis : list string) (s : string) :
  is_Some (index_of_basis basis !! s) <-> s ∈ basis.
Proof.
  unfold index_of_basis. rewrite index_fold_is_Some, map_snd_imap_pair, lookup_empty.
  split; [intros [[? H]|H]; [discriminate | exact H] | by right].
Qed.

Lemma add_edge_outside basis h e :
  leaves_basis basis e -> add_edge (index_of_basis basis) h e = h.
Proof.
  intros H. unfold add_edge.
  destruct (index_of_basis basis !! edge_src e) as [i|] eqn:E1; [|reflexivity].
  destruct (index_of_basis basis !! edge_dst e) as [j|] eqn:E2; [|reflexivity].
  exfalso. destruct H as [H|H]; apply H, index_of_basis_is_Some; by eexists.
Qed.

Lemma alter_fixed {A : Type} (f : A -> A) (i : nat) (l : list A) :
  (forall x, l !! i = Some x -> f x = x) -> alter f i l = l.
Proof.
  intros H. apply list_eq. intros j. destruct (decide (i = j)) as [->|Hne].
  - rewrite list_lookup_alter_eq. destruct (l !! j) as [x|] eqn:E; simpl; [|reflexivity].
    by rewrite H.
  - by rewrite list_lookup_alter_ne.
Qed.

Lemma Rsum_Cabs_zeros (n : nat) : Rsum (map Cabs (replicate n C0)) = 0.
Proof.
  induction n as [|n IH]; simpl; [reflexivity|]. rewrite IH.
  unfold Cabs, Cabs2, C0. simpl.
  replace (0 * 0 + 0 * 0) with 0 by ring. rewrite sqrt_0. ring.
Qed.

Lemma damp_row_zeros d n i : damp_row d (zeros n) i = zeros n.
Proof.
  unfold damp_row, zeros. destruct (replicate n (replicate n C0) !! i) as [row|] eqn:E;
    [|reflexivity].
  apply lookup_replicate in E as [-> Hi].
  unfold update_entry. apply alter_fixed. intros row Hrow.
  apply lookup_replicate in Hrow as [-> _].
  apply alter_fixed. intros z Hz. apply lookup_replicate in Hz as [-> _].
  rewrite Rsum_Cabs_zeros. unfold Csub, Cof, C0. simpl. f_equal; ring.
Qed.

Lemma build_uncoupled b basis g :
  get_graph (repo b) (Some 1%Z) = Ok g ->
  Forall (leaves_basis basis) g ->
  build b basis 1 = Ok (zeros (length basis)).
Proof.
  intros Hg Hout. unfold build. rewrite Hg. simpl. f_equal.
  assert (H1 : fold_left (add_edge (index_of_basis basis)) g (zeros (length basis))
               = zeros (length basis)).
  { clear Hg. generalize (zeros (length basis)).
    induction Hout as [|e g He _ IH]; intros h; cbn [fold_left]; [reflexivity|].
    by rewrite add_edge_outside, IH. }
  rewrite H1. generalize (seq 0 (length basis)). intros l.
  induction l as [|i l IH]; cbn [fold_left]; [reflexivity|]. by rewrite damp_row_zeros.
Qed.

Lemma dot_zeros (n : nat) (v : vec) : dot (replicate n C0) v = C0.
Proof.
  unfold dot. revert v. induction n as [|n IH]; intros [|z v]; simpl; try reflexivity.
  rewrite IH. destruct z as [a b]. unfold Cadd, Cmul, C0. simpl. f_equal; ring.
Qed.

Lemma zip_with_Csub_zeros (c : C) (v : vec) (n : nat) :
  n = length v ->
  zip_with Csub v (map (Cmul c) (replicate n C0)) = v.
Proof.
  intros ->. induction v as [|[a b] v IH]; simpl; [reflexivity|].
  rewrite IH. f_equal. destruct c as [c1 c2]. unfold Csub, Cmul, C0. simpl.
  f_equal; ring.
Qed.

(** The prediction over a basis no edge couples. *)
Lemma predict_uncoupled b prev dt g :
  get_graph (repo b) (Some 1%Z) = Ok g ->
  Forall (leaves_basis (basis prev)) g ->
  length (amplitudes prev) = length (basis prev) ->
  build b (basis prev) 1 = Ok (zeros (length (basis prev))) /\
  predict b prev dt =
    Ok (mkQMSState (basis prev) (normalize (amplitudes prev)) (session_id prev)
                   (t_rel_ms prev) (norm (amplitudes prev))
                   [("predicted_from"%string, t_rel_ms prev)]).
Proof.
  intros Hg Hout Hlen. pose proof (build_uncoupled b (basis prev) g Hg Hout) as Hb.
  split; [exact Hb|]. unfold predict. rewrite Hb.
  cbn [mbind Result_bind Py.bind].
  unfold matvec. rewrite <- Hlen, Nat.eqb_refl.
  cbn [mbind Result_bind Py.bind].
  assert (Hz : map (fun row : vec => dot row (amplitudes prev))
                   (zeros (length (amplitudes prev)))
               = replicate (length (amplitudes prev)) C0).
  { unfold zeros. generalize (length (amplitudes prev)) at 1 3. intros k.
    induction k as [|k IH]; simpl; [reflexivity|]. by rewrite dot_zeros, IH. }
  rewrite Hz.
  destruct (vsub_same_length (amplitudes prev)
              (map (Cmul (Cmul Ci (Cof dt))) (replicate (length (amplitudes prev)) C0)))
    as (psi & Hpsi & Heq & _).
  { by rewrite length_map, length_replicate. }
  rewrite Hpsi. cbn [mbind Result_bind Py.bind].
  rewrite Heq, zip_with_Csub_zeros by reflexivity. reflexivity.
Qed.



End HamiltonianMore.

Lemma predict_returns (b : Hamiltonian.HamiltonianBuilder) prev dt g :
  Repo.get_graph (Hamiltonian.repo b) (Some 1%Z) = Ok g ->
  length (amplitudes prev) = length (basis prev) ->
  exists q, Hamiltonian.predict b prev dt = Ok q /\
            length (amplitudes q) = length (amplitudes prev).
Proof.
  intros Hg Hlen.
  destruct (build_returns b (basis prev) 1 g Hg) as (h & Hb & [Hh _]).
  unfold Hamiltonian.predict. rewrite Hb. cbn [mbind Result_bind Py.bind].
  unfold matvec. rewrite <- Hlen, Nat.eqb_refl. cbn [mbind Result_bind Py.bind].
  destruct (vsub_same_length (amplitudes prev)
              (map (Cmul (Cmul Ci (Cof dt)))
                   (map (fun row : vec => dot row (amplitudes prev)) h)))
    as (psi & -> & _ & Hpsi).
  { rewrite !length_map. congruence. }
  cbn [mbind Result_bind Py.bind]. eexists. split; [reflexivity|].
  simpl. by rewrite normalize_length.
Qed.

Lemma X15_predicted_state_keeps_prior_fields_witness :
  exists q,
    Hamiltonian.predict demo_hamiltonian demo_prior (1 / 1000) = Ok q /\
    basis q = basis demo_prior /\
    session_id q = session_id demo_prior /\
    t_rel_ms q = t_rel_ms demo_prior /\
    meta q = [("predicted_from"%string, t_rel_ms demo_prior)].
Proof.
  destruct (predict_returns demo_hamiltonian demo_prior (1 / 1000)
              [Repo.mkEdge "seg_0" "seg_1" (Some (6 / 10)%R) (Some (8 / 10)%R)]
              eq_refl eq_refl) as (q & Hq & _).
  exists q. split; [exact Hq|].
  apply (X15_predicted_state_keeps_prior_fields demo_hamiltonian demo_prior (1 / 1000) q).
  exact Hq.
Defined.

Lemma X16_predict_rejects_length_mismatch_witness :
  Hamiltonian.predict demo_hamiltonian lopsided_state (1 / 1000) = Raise ValueError.
Proof.
  apply (X16_predict_rejects_length_mismatch demo_hamiltonian lopsided_state (1 / 1000)
           [Repo.mkEdge "seg_0" "seg_1" (Some (6 / 10)%R) (Some (8 / 10)%R)]).
  - reflexivity.
  - simpl. lia.
Defined.


(** ** Rogue variable library: listing, and the stores after [record] *)

Section RVLMore.

Import RVL Faults Stores.

Implicit Types (env : Env) (l : RogueVariableLibrary) (r : RogueEventRecord).

Lemma skipped_falsy r : skipped None r = false /\ skipped (Some ""%string) r = false.
Proof. split; reflexivity. Qed.

Lemma filter_all {A : Type} (f : A -> bool) (xs : list A) :
  (forall x, f x = true) -> List.filter f xs = xs.
Proof.
  intros H. induction xs as [|x xs IH]; simpl; [reflexivity|]. by rewrite H, IH.
Qed.

Lemma skipped_truthy (sid : string) r :
  sid <> ""%string ->
  skipped (Some sid) r = false <-> rec_session_id r = sid.
Proof.
  intros Hne. unfold skipped.
  destruct (String.eqb_spec sid "") as [->|_]; [contradiction|]. simpl.
  destruct (String.eqb_spec (rec_session_id r) sid) as [->|Hd]; simpl; split;
    try reflexivity; try discriminate; congruence.
Qed.

(** X18: with the in-memory repository, [list_events] never raises and
    lists dumps of in-memory records only.  Without a session id, and also
    with the empty string as session id, it lists every record in the order
    recorded; with a non-empty session id it lists exactly the records of
    that session. *)
Theorem X18_list_events_in_memory env l :
  repo_kind l = Repo.InMemoryMPGRepository ->
  list_events env l None = Ok (map Dumped (_in_memory l)) /\
  list_events env l (Some ""%string) = Ok (map Dumped (_in_memory l)) /\
  (forall sid, sid <> ""%string ->
     exists events,
       list_events env l (Some sid) = Ok events /\
       forall ev, ev ∈ events <->
                  exists r, ev = Dumped r /\ r ∈ _in_memory l /\ rec_session_id r = sid).
Proof.
  intros Hk. rewrite !list_events_in_memory by exact Hk.
  split; [|split].
  - by rewrite filter_all.
  - by rewrite filter_all.
  - intros sid Hne. rewrite list_events_in_memory by exact Hk.
    eexists. split; [reflexivity|]. intros ev.
    rewrite list_elem_of_In, in_map_iff. split.
    + intros (r & <- & Hr). apply filter_In in Hr as [Hr Hs].
      exists r. split; [reflexivity|]. split; [by apply list_elem_of_In|].
      apply skipped_truthy; [exact Hne|]. by destruct (skipped (Some sid) r).
    + intros (r & -> & Hr & Hs). exists r. split; [reflexivity|].
      apply filter_In. split; [by apply list_elem_of_In|].
      apply (skipped_truthy sid r Hne) in Hs. by rewrite Hs.
Qed.

Lemma _write_audit_stores env r l :
  audit_file (_write_audit env r l).1 =
    match audit_fault env l r with
    | None => Some (audit_frame l r)
    | Some _ => audit_file l
    end /\
  graph_store (_write_audit env r l).1 = graph_store l.
Proof.
  unfold _write_audit, audit_fault, mbind, Eff_bind, eff_bind, may_fail, get, modify.
  simpl. destruct (mkdir_fault env); [by split|].
  destruct (audit_file l) eqn:E; simpl.
  - destruct (read_parquet_fault env); simpl; [by rewrite ?E|].
    destruct (to_parquet_fault env _); simpl; by rewrite ?E.
  - destruct (to_parquet_fault env _); simpl; by rewrite ?E.
Qed.

Lemma for_each_run_stores env (stmts : list Statement) l :
  audit_file (for_each (run env) stmts l).1 = audit_file l /\
  graph_store (for_each (run env) stmts l).1 = graph_store l ++ clean_prefix env stmts.
Proof.
  revert l. induction stmts as [|stmt stmts IH]; intros l; simpl.
  - by rewrite app_nil_r.
  - unfold eff_bind, run, mbind, Eff_bind, eff_bind, may_fail, modify.
    destruct (run_fault env stmt); simpl; [by rewrite app_nil_r|].
    destruct (IH (executed stmt l)) as [H1 H2].
    split; [exact H1|]. etransitivity; [exact H2|]. simpl. by rewrite <- app_assoc.
Qed.

Lemma _persist_neo4j_stores env r l :
  audit_file (_persist_neo4j env r l).1 = audit_file l /\
  graph_store (_persist_neo4j env r l).1 = graph_store l ++ mirrored env l r.
Proof.
  unfold _persist_neo4j, mirrored, mbind, Eff_bind, eff_bind, may_fail, get.
  cbv beta iota. destruct (repo_kind l); [by rewrite app_nil_r|].
  destruct (session_fault env); [by rewrite app_nil_r|].
  exact (for_each_run_stores env (statements r) l).
Qed.

(** The two stores after [record], in every case. *)
Lemma record_stores env r l :
  audit_file (record env r l).1 =
    match audit_fault env l r with
    | None => Some (audit_frame l r)
    | Some _ => audit_file l
    end /\
  graph_store (record env r l).1 =
    graph_store l ++
    match audit_fault env l r with
    | None => mirrored env l r
    | Some _ => []
    end.
Proof.
  unfold record, mbind, Eff_bind, eff_bind, modify.
  pose proof (_write_audit_outcome env r (append_in_memory r l)) as Ho.
  pose proof (_write_audit_stores env r (append_in_memory r l)) as [Hf Hg].
  pose proof (_write_audit_keeps env r (append_in_memory r l)) as [_ Hk].
  change (audit_fault env (append_in_memory r l) r) with (audit_fault env l r) in *.
  change (audit_frame (append_in_memory r l) r) with (audit_frame l r) in *.
  change (audit_file (append_in_memory r l)) with (audit_file l) in *.
  change (graph_store (append_in_memory r l)) with (graph_store l) in *.
  change (repo_kind (append_in_memory r l)) with (repo_kind l) in *.
  destruct (_write_audit env r (append_in_memory r l)) as [l1 [[]|e]]; simpl in *.
  - destruct (audit_fault env l r); simpl in Ho; [discriminate|].
    destruct (_persist_neo4j_stores env r l1) as [H1 H2].
    rewrite H1, H2, Hf, Hg. split; [reflexivity|].
    unfold mirrored. by rewrite Hk.
  - destruct (audit_fault env l r); simpl in Ho; [|discriminate].
    rewrite Hf, Hg. by rewrite app_nil_r.
Qed.

(** X19: what [record] leaves in the two stores.  The audit file holds the
    previous rows followed by the row of the record when no step of the
    audit write failed, and is untouched otherwise.  The graph store is
    untouched when the audit write failed, with the in-memory repository,
    or when the session could not be opened; otherwise it has executed the
    record's statements in order up to the first one that raised, so a
    failing mirror leaves a partial write behind. *)
Theorem X19_record_stores env r l :
  audit_file (record env r l).1 =
    match audit_fault env l r with
    | None => Some (audit_frame l r)
    | Some _ => audit_file l
    end /\
  graph_store (record env r l).1 =
    graph_store l ++
    match audit_fault env l r with
    | None => mirrored env l r
    | Some _ => []
    end.
Proof. apply record_stores. Qed.

Lemma audit_fault_working env l r :
  mkdir_fault env = None -> read_parquet_fault env = None ->
  (forall rows, to_parquet_fault env rows = None) ->
  audit_fault env l r = None.
Proof.
  intros H1 H2 H3. unfold audit_fault. rewrite H1, H2, H3. simpl.
  by destruct (audit_file l).
Qed.

(** X20: with an audit sink that works, two records made one after the
    other end up, in that order, at the end of the in-memory log and as the
    last two rows of the audit file (whatever the graph-store mirror
    does). *)
Theorem X20_two_records_in_order env r1 r2 l :
  mkdir_fault env = None -> read_parquet_fault env = None ->
  (forall rows, to_parquet_fault env rows = None) ->
  _in_memory (record env r2 (record env r1 l).1).1 = _in_memory l ++ [r1; r2] /\
  audit_file (record env r2 (record env r1 l).1).1 =
    Some (default [] (audit_file l) ++ [audit_row r1; audit_row r2]).
Proof.
  intros H1 H2 H3.
  destruct (record_appends env r1 l) as [Hm1 _].
  destruct (record_appends env r2 (record env r1 l).1) as [Hm2 _].
  destruct (record_stores env r1 l) as [Hf1 _].
  destruct (record_stores env r2 (record env r1 l).1) as [Hf2 _].
  rewrite (audit_fault_working env _ _ H1 H2 H3) in Hf1.
  rewrite (audit_fault_working env _ _ H1 H2 H3) in Hf2.
  split.
  - rewrite Hm2, Hm1, <- app_assoc. reflexivity.
  - rewrite Hf2. unfold audit_frame at 1. rewrite Hf1. f_equal.
    unfold audit_frame. destruct (audit_file l); simpl; by rewrite <- ?app_assoc.
Qed.

End RVLMore.

Lemma X18_list_events_in_memory_witness :
  RVL.list_events sinks_ok demo_library None =
    Ok (map RVL.Dumped (RVL._in_memory demo_library)) /\
  RVL.list_events sinks_ok demo_library (Some ""%string) =
    Ok (map RVL.Dumped (RVL._in_memory demo_library)) /\
  (forall sid, sid <> ""%string ->
     exists events,
       RVL.list_events sinks_ok demo_library (Some sid) = Ok events /\
       forall ev, ev ∈ events <->
                  exists r, ev = RVL.Dumped r /\ r ∈ RVL._in_memory demo_library /\
                            rec_session_id r = sid).
Proof.
  apply (X18_list_events_in_memory sinks_ok demo_library).
  reflexivity.
Defined.

Lemma X20_two_records_in_order_witness :
  RVL._in_memory (RVL.record sinks_ok swap_record_2
                    (RVL.record sinks_ok swap_record
                       (RVL.init Repo.InMemoryMPGRepository)).1).1 =
    [] ++ [swap_record; swap_record_2] /\
  RVL.audit_file (RVL.record sinks_ok swap_record_2
                    (RVL.record sinks_ok swap_record
                       (RVL.init Repo.InMemoryMPGRepository)).1).1 =
    Some (default [] None ++ [RVL.audit_row swap_record; RVL.audit_row swap_record_2]).
Proof.
  apply (X20_two_records_in_order sinks_ok swap_record swap_record_2
           (RVL.init Repo.InMemoryMPGRepository)).
  - reflexivity.
  - reflexivity.
  - intros rows. reflexivity.
Defined.

(** ** Rosetta aligner *)

Section RSLMore.

Import RSL.

Local Open Scope R_scope.

(** X21: [align] keeps the basis and returns as many aligned amplitudes as
    it was given, with or without noise; an aligner whose noise is not
    positive (the manager's aligner has noise 0.0) draws no random numbers:
    its answer does not depend on the generator. *)
Theorem X21_align_shape_and_determinism a gauss q :
  aligned_basis (align a gauss q) = basis q /\
  length (aligned_state (align a gauss q)) = length (amplitudes q) /\
  (~ 0 < noise a -> forall gauss', align a gauss' q = align a gauss q).
Proof.
  unfold align. cbn [aligned_basis aligned_state]. split; [reflexivity|]. split.
  - rewrite normalize_length. destruct (Rlt_bool 0 (noise a)); [|reflexivity].
    rewrite length_zip_with, length_map, length_seq. lia.
  - intros Hn gauss'. by rewrite (Rlt_bool_false 0 (noise a) Hn).
Qed.

End RSLMore.

Section RSLGroup.

Import RSL.

Local Open Scope R_scope.

Lemma max_len_bound (states : list QMSState) s :
  s ∈ states -> (length (amplitudes s) <= max_len states)%nat.
Proof.
  unfold max_len. induction 1 as [s states | s s' states _ IH]; simpl; lia.
Qed.

Lemma pad_length n (v : vec) : (length v <= n)%nat -> length (pad n v) = n.
Proof. intros H. unfold pad. rewrite length_app, length_replicate. lia. Qed.

Lemma column_sums_length n (rows : list vec) :
  Forall (fun row => length row = n) rows -> length (column_sums n rows) = n.
Proof.
  unfold column_sums. intros H.
  assert (Hacc : length (replicate n C0) = n) by apply length_replicate.
  revert Hacc. generalize (replicate n C0).
  induction H as [|row rows Hrow _ IH]; intros acc Hacc; simpl; [exact Hacc|].
  apply IH. rewrite length_zip_with. lia.
Qed.

(** X22: [summarize_group] of no states gives no archetype; of one or
    more states it gives a single archetype whose [participants] is the
    number of states and whose centroid has one entry per position of the
    longest amplitude vector, shorter vectors being padded. *)
Theorem X22_summarize_group_shape (states : list QMSState) :
  summarize_group [] = [] /\
  (states <> [] ->
   exists c,
     summarize_group states = [mkArchetype c (length states)] /\
     length c = max_len states /\
     forall s, s ∈ states -> (length (amplitudes s) <= length c)%nat).
Proof.
  split; [reflexivity|]. intros Hne.
  destruct states as [|s0 rest] eqn:E; [contradiction|]. rewrite <- E in *.
  assert (Hs : summarize_group states =
               [mkArchetype
                  (mean_rows (max_len states)
                     (map (fun s => pad (max_len states) (amplitudes s)) states))
                  (length states)]) by (by rewrite E).
  assert (Hlen : length (mean_rows (max_len states)
                           (map (fun s => pad (max_len states) (amplitudes s)) states))
                 = max_len states).
  { unfold mean_rows. rewrite length_map. apply column_sums_length.
    apply List.Forall_map, Forall_forall. intros s Hin.
    apply pad_length, max_len_bound, Hin. }
  eexists. split; [exact Hs|]. split; [exact Hlen|].
  intros s Hin. rewrite Hlen. by apply max_len_bound.
Qed.

End RSLGroup.

Lemma X21_align_shape_and_determinism_witness :
  RSL.align (RSL.mkRosettaStoneAligner 0) (fun i => INR i) observed_ab =
    RSL.align (RSL.mkRosettaStoneAligner 0) (fun _ => 0%R) observed_ab.
Proof.
  apply (X21_align_shape_and_determinism (RSL.mkRosettaStoneAligner 0)
           (fun _ => 0%R) observed_ab).
  simpl. lra.
Defined.

Lemma X22_summarize_group_shape_witness :
  exists c,
    RSL.summarize_group [observed_ab; lopsided_state] =
      [RSL.mkArchetype c (length [observed_ab; lopsided_state])] /\
    length c = RSL.max_len [observed_ab; lopsided_state] /\
    forall s, s ∈ [observed_ab; lopsided_state] ->
              (length (amplitudes s) <= length c)%nat.
Proof.
  apply (proj2 (X22_summarize_group_shape [observed_ab; lopsided_state])).
  discriminate.
Defined.

(** ** Manager: ticks that go through, time steps, publication *)

Section ManagerMore.

Import Manager.

Local Open Scope R_scope.

Implicit Types (env : Env) (m : QRVManager) (sid : string) (t : R).



Lemma _publish_event_no_bus env msg m :
  bus m = false -> _publish_event env msg m = (m, Ok tt).
Proof.
  intros H. unfold _publish_event, mbind, Eff_bind, eff_bind, get. simpl.
  by rewrite H.
Qed.

(** A tick whose components all return, on a manager without a bus. *)
Lemma process_tick_quiet env m sid t fo observed predicted det :
  QMS.build_from_segments (qms_builder m) sid t (qms_limit m) fo = Ok observed ->
  Hamiltonian.predict (hamiltonian m) (prior m sid observed)
                      (elapsed t (prior m sid observed)) = Ok predicted ->
  Spectral.detect (eigh env) (detector m) observed predicted = Ok det ->
  triggered det = false ->
  bus m = false ->
  process_tick env sid t fo m =
    (set_last_qms sid observed
       (set_hild (HILD.on_tick (prompt_uuid env) (hild m) sid t det).1 m),
     Ok (mkBundle observed predicted det
                  (HILD.on_tick (prompt_uuid env) (hild m) sid t det).2
                  (RSL.align (rsl m) (standard_normal env) observed) None)).
Proof.
  intros Hb Hp Hd Ht Hbus.
  unfold process_tick, mbind, Eff_bind, eff_bind, get, lift.
  rewrite Hb. cbv beta iota zeta. rewrite Hp. cbv beta iota zeta.
  rewrite Hd. cbv beta iota zeta.
  unfold register. rewrite Ht. unfold mret, Eff_ret, eff_ret. cbv beta iota zeta.
  destruct (HILD.on_tick (prompt_uuid env) (hild m) sid t det) as [h st] eqn:E.
  cbv beta iota zeta.
  rewrite _publish_event_no_bus by exact Hbus.
  reflexivity.
Qed.

(** X24: a tick whose detection is not triggered, on a manager without a
    bus, returns a bundle without event id, leaves the rogue variable
    library and the outbox untouched, ticks the HILD machine (the status in
    the bundle is the one [status] reports afterwards) and caches the
    observation as the session's prior state. *)
Theorem X24_quiet_tick_effects env m sid t fo observed predicted det :
  QMS.build_from_segments (qms_builder m) sid t (qms_limit m) fo = Ok observed ->
  Hamiltonian.predict (hamiltonian m) (prior m sid observed)
                      (elapsed t (prior m sid observed)) = Ok predicted ->
  Spectral.detect (eigh env) (detector m) observed predicted = Ok det ->
  triggered det = false ->
  bus m = false ->
  exists m' bundle,
    process_tick env sid t fo m = (m', Ok bundle) /\
    qms_observed bundle = observed /\ qms_predicted bundle = predicted /\
    bundle_detection bundle = det /\ bundle_event_id bundle = None /\
    rvl m' = rvl m /\ sent m' = sent m /\
    status m' sid = bundle_hild bundle /\
    _last_qms m' = <[sid := observed]> (_last_qms m) /\
    prior m' sid observed = observed.
Proof.
  intros Hb Hp Hd Ht Hbus.
  rewrite (process_tick_quiet env m sid t fo observed predicted det Hb Hp Hd Ht Hbus).
  eexists. eexists. split; [reflexivity|]. simpl.
  repeat split.
  - unfold status. simpl.
    unfold HILD.get_status.
    destruct (on_tick_stored (prompt_uuid env) (hild m) sid t det) as [flag ->].
    reflexivity.
  - unfold prior. simpl. by rewrite lookup_insert_eq.
Qed.

(** A tick whose components all return and whose detection is not
    triggered reaches the publication of the [hild_status] message with
    only the HILD machine updated. *)
Lemma process_tick_to_publish env m sid t fo observed predicted det :
  QMS.build_from_segments (qms_builder m) sid t (qms_limit m) fo = Ok observed ->
  Hamiltonian.predict (hamiltonian m) (prior m sid observed)
                      (elapsed t (prior m sid observed)) = Ok predicted ->
  Spectral.detect (eigh env) (detector m) observed predicted = Ok det ->
  triggered det = false ->
  process_tick env sid t fo m =
    let ticked := HILD.on_tick (prompt_uuid env) (hild m) sid t det in
    match _publish_event env
            (hild_status sid t (state ticked.2) (text <$> prompt ticked.2))
            (set_hild ticked.1 m) with
    | (m1, Ok _) =>
        (set_last_qms sid observed m1,
         Ok (mkBundle observed predicted det ticked.2
                      (RSL.align (rsl m) (standard_normal env) observed) None))
    | (m1, Raise e) => (m1, Raise e)
    end.
Proof.
  intros Hb Hp Hd Ht.
  unfold process_tick, mbind, Eff_bind, eff_bind, get, lift.
  rewrite Hb. cbv beta iota zeta. rewrite Hp. cbv beta iota zeta.
  rewrite Hd. cbv beta iota zeta.
  unfold register. rewrite Ht. unfold mret, Eff_ret, eff_ret. cbv beta iota zeta.
  destruct (HILD.on_tick (prompt_uuid env) (hild m) sid t det) as [h st].
  cbv beta iota zeta. cbn [fst snd].
  destruct (_publish_event env _ (set_hild h m)) as [m1 [[]|e]]; reflexivity.
Qed.

(** X25: with a bus, a tick whose detection is not triggered hands the
    [hild_status] message to the bus according to the event loop of the
    calling thread.  From a running loop the publication is only scheduled
    and the tick returns.  Otherwise it is run synchronously and a failure
    is not swallowed: on a current loop that is closed the tick raises
    [RuntimeError] and the bus is not called; on an open current loop, or
    on the new loop made when there is none, the tick raises what [publish]
    raises and returns when [publish] returns.  Whenever the tick raises
    here the HILD machine has been ticked but the observation is not cached
    as prior state; and a synchronous publication on the thread's current
    loop leaves that loop closed, so that the next one raises. *)
Theorem X25_publication_follows_event_loop
    env m sid t fo observed predicted det :
  QMS.build_from_segments (qms_builder m) sid t (qms_limit m) fo = Ok observed ->
  Hamiltonian.predict (hamiltonian m) (prior m sid observed)
                      (elapsed t (prior m sid observed)) = Ok predicted ->
  Spectral.detect (eigh env) (detector m) observed predicted = Ok det ->
  triggered det = false ->
  bus m = true ->
  let ticked := HILD.on_tick (prompt_uuid env) (hild m) sid t det in
  let msg := hild_status sid t (state ticked.2) (text <$> prompt ticked.2) in
  let after := event_loop (process_tick env sid t fo m).1 in
  let returned :=
    exists m' bundle,
      process_tick env sid t fo m = (m', Ok bundle) /\
      bundle_hild bundle = ticked.2 /\
      sent m' = sent m ++ [msg] /\
      _last_qms m' = <[sid := observed]> (_last_qms m) in
  let raised e :=
    exists m',
      process_tick env sid t fo m = (m', Raise e) /\
      hild m' = ticked.1 /\ sent m' = sent m /\ _last_qms m' = _last_qms m in
  let synchronous :=
    match publish env msg with
    | Ok _ => returned
    | Raise e => raised e
    end in
  match event_loop m with
  | loop_running => returned /\ after = loop_running
  | loop_open => synchronous /\ after = loop_closed
  | loop_closed => raised RuntimeError /\ after = loop_closed
  | loop_unset => synchronous /\ after = loop_unset
  end.
Proof.
  intros Hb Hp Hd Ht Hbus. cbv zeta.
  rewrite (process_tick_to_publish env m sid t fo observed predicted det Hb Hp Hd Ht).
  cbv zeta.
  destruct (HILD.on_tick (prompt_uuid env) (hild m) sid t det) as [h st].
  cbn [fst snd].
  unfold _publish_event, mbind, Eff_bind, eff_bind, get.
  cbn [bus set_hild event_loop]. rewrite Hbus. cbn [negb].
  destruct (event_loop m) eqn:El;
    unfold finally, run_until_complete, mbind, Eff_bind, eff_bind, lift, modify;
    cbv beta iota zeta;
    try destruct (publish env _) as [[]|e];
    cbv beta iota zeta; cbn [fst snd];
    (split; [eexists; try eexists; by repeat split | try reflexivity]).
  all: cbn [event_loop set_last_qms add_sent with_event_loop set_hild]; done.
Qed.

End ManagerMore.

Section ManagerScenarios.

Import Manager.

Local Open Scope R_scope.

Lemma normalize_nil : normalize [] = [].
Proof. apply normalize_zero, norm_nil. Qed.

Lemma empty_build (with_bus : bool) :
  QMS.build_from_segments (qms_builder (Manager.init empty_repo 64 with_bus))
                          "s1" 0 64 None = Ok empty_observed.
Proof.
  unfold QMS.build_from_segments, QMS.raw_amplitudes. simpl.
  rewrite normalize_nil, norm_nil. reflexivity.
Qed.

Lemma empty_predict (with_bus : bool) :
  Hamiltonian.predict (hamiltonian (Manager.init empty_repo 64 with_bus))
    (prior (Manager.init empty_repo 64 with_bus) "s1" empty_observed)
    (elapsed 0 (prior (Manager.init empty_repo 64 with_bus) "s1" empty_observed))
  = Ok empty_predicted.
Proof.
  change (prior (Manager.init empty_repo 64 with_bus) "s1" empty_observed)
    with empty_observed.
  destruct (predict_uncoupled (hamiltonian (Manager.init empty_repo 64 with_bus))
              empty_observed (elapsed 0 empty_observed) [])
    as [_ ->]; [reflexivity | constructor | reflexivity |].
  simpl. rewrite normalize_nil, norm_nil. reflexivity.
Qed.

Lemma empty_detect eigh d :
  Spectral.detect eigh d empty_observed empty_predicted = Ok empty_detection.
Proof. reflexivity. Qed.

End ManagerScenarios.


Lemma X24_quiet_tick_effects_witness :
  exists m' bundle,
    Manager.process_tick tick_env "s1" 0 None empty_manager = (m', Ok bundle) /\
    Manager.qms_observed bundle = empty_observed /\
    Manager.qms_predicted bundle = empty_predicted /\
    Manager.bundle_detection bundle = empty_detection /\
    Manager.bundle_event_id bundle = None /\
    Manager.rvl m' = Manager.rvl empty_manager /\
    Manager.sent m' = Manager.sent empty_manager /\
    Manager.status m' "s1" = Manager.bundle_hild bundle /\
    Manager._last_qms m' = <[ "s1"%string := empty_observed ]> (Manager._last_qms empty_manager) /\
    Manager.prior m' "s1" empty_observed = empty_observed.
Proof.
  apply (X24_quiet_tick_effects tick_env empty_manager "s1" 0 None
           empty_observed empty_predicted empty_detection).
  - exact (empty_build false).
  - exact (empty_predict false).
  - reflexivity.
  - reflexivity.
  - reflexivity.
Defined.

(** Two ticks in a row from a thread whose current loop is open: the first
    publication goes through and closes the loop, the second raises. *)
Lemma X25_publication_follows_event_loop_witness :
  let m0 := Manager.with_event_loop Manager.loop_open empty_manager_bus in
  (exists m1 bundle,
     Manager.process_tick tick_env "s1" 0 None m0 = (m1, Ok bundle) /\
     Manager.event_loop m1 = Manager.loop_closed) /\
  (exists m',
     Manager.process_tick bus_down_env "s1" 0 None m0 = (m', Raise ServiceUnavailable) /\
     Manager.event_loop m' = Manager.loop_closed) /\
  (exists m',
     Manager.process_tick tick_env "s1" 0 None
       (Manager.with_event_loop Manager.loop_closed empty_manager_bus) =
       (m', Raise RuntimeError)).
Proof.
  cbv zeta. split; [|split].
  - pose proof (X25_publication_follows_event_loop tick_env
                  (Manager.with_event_loop Manager.loop_open empty_manager_bus)
                  "s1" 0 None empty_observed empty_predicted empty_detection
                  (empty_build true) (empty_predict true) eq_refl eq_refl eq_refl)
      as [(m1 & bundle & H & _) Hafter].
    exists m1, bundle. split; [exact H|].
    cbv zeta in Hafter. rewrite H in Hafter. exact Hafter.
  - pose proof (X25_publication_follows_event_loop bus_down_env
                  (Manager.with_event_loop Manager.loop_open empty_manager_bus)
                  "s1" 0 None empty_observed empty_predicted empty_detection
                  (empty_build true) (empty_predict true) eq_refl eq_refl eq_refl)
      as [(m' & H & _) Hafter].
    exists m'. split; [exact H|].
    cbv zeta in Hafter. rewrite H in Hafter. exact Hafter.
  - pose proof (X25_publication_follows_event_loop tick_env
                  (Manager.with_event_loop Manager.loop_closed empty_manager_bus)
                  "s1" 0 None empty_observed empty_predicted empty_detection
                  (empty_build true) (empty_predict true) eq_refl eq_refl eq_refl)
      as [(m' & H & _) _].
    exists m'. exact H.
Defined.

(** ** In-memory repository *)

Section InMemoryFacts.

Import InMemory.

Local Open Scope R_scope.

Lemma dict_get_set {V : Type} (k k' : string) (v : V) (d : dict V) :
  dict_get k (dict_set k' v d) = if String.eqb k' k then Some v else dict_get k d.
Proof.
  induction d as [|[k0 v0] d IH]; simpl.
  - reflexivity.
  - destruct (String.eqb_spec k0 k') as [->|Hne]; simpl.
    + destruct (String.eqb k' k); reflexivity.
    + rewrite IH. destruct (String.eqb_spec k0 k) as [->|Hne'].
      * destruct (String.eqb_spec k' k) as [->|_]; [contradiction | reflexivity].
      * reflexivity.
Qed.

Lemma dict_get_set_is_Some {V : Type} (k k' : string) (v : V) (d : dict V) :
  is_Some (dict_get k d) -> is_Some (dict_get k (dict_set k' v d)).
Proof.
  intros H. rewrite dict_get_set. destruct (String.eqb k' k); [by eexists | exact H].
Qed.

Lemma step_edges_closed r op : edges_closed r -> edges_closed (step r op).
Proof.
  unfold edges_closed. intros H. destruct op as [node | edge | id st]; simpl.
  - eapply Forall_impl; [exact H|]. intros e [H1 H2].
    split; by apply dict_get_set_is_Some.
  - unfold create_edge, node_exists.
    destruct (bool_decide (is_Some (dict_get (src edge) (nodes r)))) eqn:E1; simpl;
      [|exact H].
    destruct (bool_decide (is_Some (dict_get (dst edge) (nodes r)))) eqn:E2; simpl;
      [|exact H].
    apply bool_decide_eq_true in E1, E2.
    apply Forall_app. split; [exact H|]. by repeat constructor.
  - exact H.
Qed.

Lemma run_edges_closed (ops : list Op) : edges_closed (run ops).
Proof.
  unfold run. assert (H0 : edges_closed empty) by constructor.
  revert H0. generalize empty. induction ops as [|op ops IH]; simpl; intros r H;
    [exact H|]. apply IH. by apply step_edges_closed.
Qed.

Lemma get_graph_returns r lvl : edges_closed r -> returns (get_graph r lvl).
Proof.
  unfold edges_closed, get_graph. intros H. apply foldM_returns.
  eapply Forall_impl; [exact H|]. intros e [[a Ha] [b Hb]] g.
  unfold edge_selected, node_at. destruct lvl as [l|]; simpl; [|exact I].
  rewrite Ha. simpl. destruct (level a =? l)%Z; simpl; [|exact I].
  rewrite Hb. exact I.
Qed.

(** X27: on a repository built by any sequence of [create_node],
    [create_edge] (a rejected edge leaving it as it was) and
    [create_segment_state] calls, every edge joins two existing nodes; so
    [get_graph] never raises [KeyError], and [predict] over that repository
    returns for every prior state with as many amplitudes as basis ids. *)
Theorem X27_in_memory_graph_total (ops : list Op) :
  edges_closed (run ops) /\
  (forall lvl, returns (get_graph (run ops) lvl)) /\
  (forall float_of_str damping prev dt,
     length (amplitudes prev) = length (basis prev) ->
     returns (Hamiltonian.predict
                (Hamiltonian.mkHamiltonianBuilder (as_repo float_of_str (run ops)) damping)
                prev dt)).
Proof.
  pose proof (run_edges_closed ops) as Hc.
  split; [exact Hc|]. split; [intros lvl; by apply get_graph_returns|].
  intros f damping prev dt Hlen.
  destruct (returns_Ok _ (get_graph_returns (run ops) (Some 1%Z) Hc)) as [g Hg].
  destruct (predict_returns
              (Hamiltonian.mkHamiltonianBuilder (as_repo f (run ops)) damping)
              prev dt (graph_edges g)) as (q & -> & _); [|exact Hlen|exact I].
  simpl. by rewrite Hg.
Qed.

End InMemoryFacts.

Section InMemoryRanking.

Import InMemory.

Local Open Scope R_scope.

(** Membership and head of a descending insertion. *)
Lemma insert_desc_elem {A : Type} (lt : A -> A -> bool) (x y : A) (l : list A) :
  y ∈ insert_desc lt x l <-> y = x \/ y ∈ l.
Proof.
  induction l as [|z l IH]; simpl.
  - rewrite list_elem_of_singleton, elem_of_nil. tauto.
  - destruct (lt z x); rewrite !elem_of_cons; [tauto|]. rewrite IH. tauto.
Qed.

Lemma sorted_desc_elem {A : Type} (lt : A -> A -> bool) (y : A) (xs : list A) :
  y ∈ sorted_desc lt xs <-> y ∈ xs.
Proof.
  unfold sorted_desc.
  assert (H : forall acc, y ∈ fold_left (fun acc x => insert_desc lt x acc) xs acc
                          <-> y ∈ acc \/ y ∈ xs).
  { induction xs as [|x xs IH]; intros acc; simpl.
    - rewrite elem_of_nil. tauto.
    - rewrite IH, insert_desc_elem, elem_of_cons. tauto. }
  rewrite H, elem_of_nil. tauto.
Qed.

Lemma insert_desc_length {A : Type} (lt : A -> A -> bool) (x : A) (l : list A) :
  length (insert_desc lt x l) = S (length l).
Proof.
  induction l as [|z l IH]; simpl; [reflexivity|].
  destruct (lt z x); simpl; by rewrite ?IH.
Qed.

Lemma chain_cons {A : Type} (rel : A -> A -> Prop) (x : A) (l : list A) :
  chain rel (x :: l) <-> (forall y, head l = Some y -> rel x y) /\ chain rel l.
Proof.
  unfold chain. split.
  - intros H. split.
    + intros y Hy. destruct l as [|z l]; [discriminate|]. simpl in Hy.
      inversion Hy; subst. exact (H 0%nat x y eq_refl eq_refl).
    + intros i a b Ha Hb. exact (H (S i) a b Ha Hb).
  - intros [Hh Ht] [|i] a b Ha Hb; simpl in *.
    + inversion Ha; subst. apply Hh. destruct l; [discriminate | exact Hb].
    + exact (Ht i a b Ha Hb).
Qed.

Lemma insert_desc_chain {A : Type} (lt : A -> A -> bool) (x : A) (l : list A) :
  (forall a b, lt a b = true -> lt b a = false) ->
  chain (fun a b => lt a b = false) l ->
  chain (fun a b => lt a b = false) (insert_desc lt x l).
Proof.
  intros Hasym. induction l as [|z l IH]; intros Hl; simpl.
  - intros [|i] a b Ha Hb; discriminate.
  - destruct (lt z x) eqn:E.
    + apply chain_cons. split; [|exact Hl].
      intros y Hy. inversion Hy; subst. by apply Hasym.
    + apply chain_cons in Hl as [Hh Ht]. apply chain_cons. split; [|by apply IH].
      intros y Hy. destruct l as [|w l]; simpl in Hy.
      * inversion Hy; subst. exact E.
      * destruct (lt w x) eqn:E'; simpl in Hy; inversion Hy; subst;
          [exact E | by apply Hh].
Qed.

Lemma sorted_desc_chain {A : Type} (lt : A -> A -> bool) (xs : list A) :
  (forall a b, lt a b = true -> lt b a = false) ->
  chain (fun a b => lt a b = false) (sorted_desc lt xs).
Proof.
  intros Hasym. unfold sorted_desc.
  assert (H0 : chain (fun a b => lt a b = false) (@nil A))
    by (intros [|i] a b Ha Hb; discriminate).
  revert H0. generalize (@nil A). induction xs as [|x xs IH]; simpl; intros acc H;
    [exact H|]. apply IH. by apply insert_desc_chain.
Qed.

Lemma slice_to_chain {A : Type} (rel : A -> A -> Prop) (k : Z) (l : list A) :
  chain rel l -> chain rel (slice_to k l).
Proof.
  unfold slice_to, chain. intros H i a b Ha Hb.
  destruct (0 <=? k)%Z; apply lookup_take_Some in Ha as [Ha _];
    apply lookup_take_Some in Hb as [Hb _]; by eapply H.
Qed.

Lemma slice_to_elem {A : Type} (k : Z) (l : list A) (x : A) :
  x ∈ slice_to k l -> x ∈ l.
Proof.
  unfold slice_to. destruct (0 <=? k)%Z; intros H;
    apply list_elem_of_lookup in H as [i Hi];
    apply lookup_take_Some in Hi as [Hi _]; by eapply list_elem_of_lookup_2.
Qed.

Lemma rank_lt_asym (a b : MPGNode) : rank_lt a b = true -> rank_lt b a = false.
Proof.
  unfold rank_lt, Rlt_bool, Req_bool.
  destruct (Rlt_dec (importance a) (importance b)),
           (Rlt_dec (importance b) (importance a)),
           (Req_dec_T (importance a) (importance b)),
           (Req_dec_T (importance b) (importance a)),
           (Rlt_dec (confidence a) (confidence b)),
           (Rlt_dec (confidence b) (confidence a));
    simpl; intros H; try reflexivity; try discriminate; lra.
Qed.

Lemma rank_lt_false (a b : MPGNode) :
  rank_lt a b = false ->
  importance b <= importance a /\
  (importance a = importance b -> confidence b <= confidence a).
Proof.
  unfold rank_lt, Rlt_bool, Req_bool.
  destruct (Rlt_dec (importance a) (importance b)),
           (Req_dec_T (importance a) (importance b)),
           (Rlt_dec (confidence a) (confidence b));
    simpl; intros H; try discriminate; split; intros; lra.
Qed.

(** X28: [top_segments] ranks segment nodes only (level at least 1, or the
    layer "Segment"), each a node of the repository; it returns at most
    [limit] of them for a non-negative [limit]; and it lists them by
    importance in descending order, nodes of equal importance by confidence
    in descending order. *)
Theorem X28_top_segments_ranked float_of_str (r : InMemoryMPGRepository) (limit : Z) :
  top_segments float_of_str r limit = map (dump_node float_of_str) (ranked r limit) /\
  ((0 <= limit)%Z -> (length (top_segments float_of_str r limit) <= Z.to_nat limit)%nat) /\
  (forall n, n ∈ ranked r limit -> is_segment n = true /\ n ∈ map snd (nodes r)) /\
  (forall i a b, ranked r limit !! i = Some a -> ranked r limit !! S i = Some b ->
     importance b <= importance a /\
     (importance a = importance b -> confidence b <= confidence a)).
Proof.
  split; [reflexivity|]. split; [|split].
  - intros Hk. unfold top_segments. rewrite length_map. by apply slice_to_length.
  - intros n Hn. unfold ranked in Hn.
    apply slice_to_elem, sorted_desc_elem, list_elem_of_In, filter_In in Hn as [Hin Hseg].
    split; [exact Hseg | by apply list_elem_of_In].
  - intros i a b Ha Hb. apply rank_lt_false.
    exact (slice_to_chain _ limit _ (sorted_desc_chain rank_lt _ rank_lt_asym) i a b Ha Hb).
Qed.

End InMemoryRanking.

Section InMemoryStates.

Import InMemory.

Local Open Scope R_scope.

Lemma insert_desc_head_max (x : SegmentState) (l : list SegmentState) :
  (forall h, head l = Some h -> forall s, s ∈ l -> t s <= t h) ->
  forall h, head (insert_desc state_lt x l) = Some h ->
            forall s, s ∈ insert_desc state_lt x l -> t s <= t h.
Proof.
  intros Hl h Hh s Hs. apply insert_desc_elem in Hs.
  destruct l as [|z l]; simpl in *.
  - inversion Hh; subst. destruct Hs as [->|Hs]; [lra | by apply elem_of_nil in Hs].
  - unfold state_lt, Rlt_bool in Hh. destruct (Rlt_dec (t z) (t x)) as [Hlt|Hge];
      simpl in Hh; inversion Hh; subst.
    + destruct Hs as [->|Hs]; [lra|]. specialize (Hl z eq_refl s Hs). lra.
    + destruct Hs as [->|Hs]; [lra|]. exact (Hl h eq_refl s Hs).
Qed.

Lemma sorted_desc_head_max (xs : list SegmentState) :
  forall h, head (sorted_desc state_lt xs) = Some h ->
            forall s, s ∈ xs -> t s <= t h.
Proof.
  intros h Hh s Hs. apply (sorted_desc_elem state_lt) in Hs.
  revert h Hh s Hs. unfold sorted_desc.
  assert (H0 : forall h, head (@nil SegmentState) = Some h ->
                         forall s, s ∈ (@nil SegmentState) -> t s <= t h)
    by (intros h Hh; discriminate).
  revert H0. generalize (@nil SegmentState).
  induction xs as [|x xs IH]; simpl; intros acc H; [exact H|].
  apply IH. by apply insert_desc_head_max.
Qed.

Lemma sorted_desc_nil_inv {A : Type} (lt : A -> A -> bool) (xs : list A) :
  sorted_desc lt xs = [] -> xs = [].
Proof.
  intros H. destruct xs as [|x xs]; [reflexivity|].
  assert (Hx : x ∈ sorted_desc lt (x :: xs)) by (apply sorted_desc_elem; by left).
  rewrite H in Hx. by apply elem_of_nil in Hx.
Qed.

(** X29: [get_segment_states(id, limit=1)] hands out the snapshot with the
    greatest time [t] among those created for the segment, so the builder's
    [_latest_state] reads coherence and potency (absent values as 0) from
    that most recent snapshot; for a segment without snapshots it gives
    [(0, 0)]. *)
Theorem X29_latest_state_is_most_recent float_of_str (r : InMemoryMPGRepository)
    (id : string) (ws : list (string * R)) :
  let states := default [] (segment_states r !! id) in
  let b := QMS.mkQMSBuilder (as_repo float_of_str r) ws true in
  (states = [] ->
   get_segment_states r id 1 = [] /\ QMS._latest_state b id = (0, 0)) /\
  (states <> [] ->
   exists st,
     st ∈ states /\ (forall s, s ∈ states -> t s <= t st) /\
     get_segment_states r id 1 = [dump_state st] /\
     QMS._latest_state b id = (QMS.or_zero (coherence st), QMS.or_zero (potency st))).
Proof.
  intros states b. unfold get_segment_states, latest_states, QMS._latest_state.
  simpl. unfold get_segment_states, latest_states. fold states. split.
  - intros ->. split; reflexivity.
  - intros Hne. destruct (sorted_desc state_lt states) as [|st rest] eqn:E.
    + apply sorted_desc_nil_inv in E. contradiction.
    + exists st. split; [|split].
      * apply (sorted_desc_elem state_lt). rewrite E. by left.
      * intros s Hs. apply (sorted_desc_head_max states); [by rewrite E | exact Hs].
      * split; reflexivity.
Qed.

End InMemoryStates.

Import RepositoryScenario.

Lemma X27_in_memory_graph_total_witness :
  returns (Hamiltonian.predict
             (Hamiltonian.mkHamiltonianBuilder
                (InMemory.as_repo no_number (InMemory.run built_ops)) (1 / 10))
             demo_prior (1 / 1000)).
Proof.
  apply (proj2 (proj2 (X27_in_memory_graph_total built_ops))
           no_number (1 / 10)%R demo_prior (1 / 1000)%R).
  reflexivity.
Defined.

Lemma X28_top_segments_ranked_witness :
  (length (InMemory.top_segments no_number (InMemory.run built_ops) 1) <= Z.to_nat 1)%nat.
Proof.
  apply (proj1 (proj2 (X28_top_segments_ranked no_number (InMemory.run built_ops) 1))).
  lia.
Defined.

Lemma X29_latest_state_is_most_recent_witness :
  exists st,
    st ∈ [snapshot_1; snapshot_2] /\
    (forall s, s ∈ [snapshot_1; snapshot_2] -> (InMemory.t s <= InMemory.t st)%R) /\
    InMemory.get_segment_states snapshots_repo "seg_0" 1 = [InMemory.dump_state st] /\
    QMS._latest_state
      (QMS.mkQMSBuilder (InMemory.as_repo no_number snapshots_repo) QMS.default_weights true)
      "seg_0" =
      (QMS.or_zero (InMemory.coherence st), QMS.or_zero (InMemory.potency st)).
Proof.
  apply (proj2 (X29_latest_state_is_most_recent no_number snapshots_repo "seg_0"
                  QMS.default_weights)).
  discriminate.
Defined.
